(** * casync archive decoding: a shallow embedding of
      [system/updated/casync/format.py]

    The Python module decodes a casync index ([.caidx]) into chunk
    descriptors, joins the chunk contents delivered by a chunk reader and
    parses the resulting stream as a flat tar-like archive.

    Modelling choices.
    - Python [int] is unbounded, so every integer is a [Z]; nothing wraps.
      The one place where a machine range shows is the count of [b.read],
      which must fit [Py_ssize_t].
    - [bytes] is [list byte]; [str] is the list of its code points.
    - [io.BytesIO] is a buffer with a position.  Parsers are written in a
      state-and-exception monad over it, one definition per Python function,
      under the Python names (classes become modules).
    - Exceptions are the constructors of [exn].  The natural-language
      specification calls [struct.error] "Truncated" and [AssertionError]
      "UnexpectedMagic".
    - The two unbounded loops ([while len(filename) < ...] and
      [while True]) take fuel; running out of it is the separate outcome
      [OutOfFuel], never confused with a Python result. *)

From Stdlib Require Import ZArith List Lia Bool String.
From Stdlib.Strings Require Import Byte.
Import ListNotations.
Local Open Scope Z_scope.

(** ** Outcomes *)

Inductive exn : Type :=
| struct_error        (* struct.unpack: buffer of the wrong size *)
| AssertionError      (* assert magic == MAGIC_TYPE *)
| AttributeError      (* attribute access on None *)
| UnicodeDecodeError  (* bytes.decode("utf-8") *)
| ValueError          (* tuple unpacking of the wrong arity, bad seek *)
| TypeError           (* constructor called with the wrong number of fields *)
| OSError             (* open() *)
| OverflowError       (* a read count that does not fit Py_ssize_t *)
| StopIteration       (* raised by the chunk reader, see [read_chunks] *)
| RuntimeError        (* a StopIteration that leaves a generator *)
| ReaderError.        (* anything else the chunk reader raises *)

Inductive result (A : Type) : Type :=
| Ok (a : A)
| Raise (e : exn)
| OutOfFuel.

Arguments Ok {A} a.
Arguments Raise {A} e.
Arguments OutOfFuel {A}.

Definition bytes := list byte.

Definition byte_val (c : byte) : Z := Z.of_N (Byte.to_N c).

(** [==] on [bytes] *)
Fixpoint bytes_eqb (x y : bytes) : bool :=
  match x, y with
  | [], [] => true
  | c :: x', d :: y' => Byte.eqb c d && bytes_eqb x' y'
  | _, _ => false
  end.

(** ** io.BytesIO *)

Module BytesIO.

Record t : Type := mk { buf : bytes; pos : nat }.

Definition of_bytes (data : bytes) : t := {| buf := data; pos := 0 |}.

Definition remaining (b : t) : bytes := skipn (pos b) (buf b).

End BytesIO.

(** The monad of the parsers: a computation reads and moves the cursor of
    one [BytesIO] and either returns, raises or runs out of fuel. *)

Definition M (A : Type) : Type := BytesIO.t -> result (A * BytesIO.t).

Definition ret {A} (a : A) : M A := fun b => Ok (a, b).

Definition bind {A B} (m : M A) (k : A -> M B) : M B :=
  fun b =>
    match m b with
    | Ok (a, b') => k a b'
    | Raise e => Raise e
    | OutOfFuel => OutOfFuel
    end.

Definition raise {A} (e : exn) : M A := fun _ => Raise e.

Definition out_of_fuel {A} : M A := fun _ => OutOfFuel.

Definition lift {A} (r : result A) : M A :=
  fun b =>
    match r with
    | Ok a => Ok (a, b)
    | Raise e => Raise e
    | OutOfFuel => OutOfFuel
    end.

Declare Scope py_scope.
Delimit Scope py_scope with py.
Notation "x <- c ;; k" := (bind c (fun x => k))
  (at level 100, c at next level, right associativity) : py_scope.
Notation "c ;;; k" := (bind c (fun _ => k))
  (at level 100, right associativity) : py_scope.
Local Open Scope py_scope.

Inductive whence : Type := SEEK_SET | SEEK_END.

(** The largest [Py_ssize_t] (64-bit platforms). *)
Definition SSIZE_MAX : Z := 9223372036854775807.

Definition fits_ssize (n : Z) : bool :=
  (- SSIZE_MAX - 1 <=? n) && (n <=? SSIZE_MAX).

(** [b.read(n)]: the count is converted to [Py_ssize_t], which raises
    [OverflowError] outside its range; then at most [n] bytes from the
    position are returned, fewer when the buffer ends first, all of them
    when [n] is negative. *)
Definition read (n : Z) : M bytes :=
  fun b =>
    if fits_ssize n then
      let avail := BytesIO.remaining b in
      let k := if n <? 0 then List.length avail
               else Nat.min (Z.to_nat n) (List.length avail) in
      Ok (firstn k avail, BytesIO.mk (BytesIO.buf b) (BytesIO.pos b + k))
    else Raise OverflowError.

(** [b.seek(offset, whence)] *)
Definition seek (offset : Z) (w : whence) : M unit :=
  fun b =>
    match w with
    | SEEK_SET =>
        if offset <? 0 then Raise ValueError
        else Ok (tt, BytesIO.mk (BytesIO.buf b) (Z.to_nat offset))
    | SEEK_END =>
        Ok (tt, BytesIO.mk (BytesIO.buf b)
                  (Z.to_nat (Z.max 0 (Z.of_nat (List.length (BytesIO.buf b)) + offset))))
    end.

(** [b.tell()] *)
Definition tell : M Z := fun b => Ok (Z.of_nat (BytesIO.pos b), b).

(** ** struct.unpack with little-endian unsigned 64-bit fields *)

(** The unsigned integer a little-endian byte string denotes. *)
Fixpoint le_uint (data : bytes) : Z :=
  match data with
  | [] => 0
  | c :: rest => byte_val c + 256 * le_uint rest
  end.

Fixpoint unpack_fields (n : nat) (data : bytes) : list Z :=
  match n with
  | O => []
  | S n' => le_uint (firstn 8 data) :: unpack_fields n' (skipn 8 data)
  end.

(** [struct.unpack("<Q...Q", data)] with [n] fields: [struct.error] unless
    [data] has exactly [8 * n] bytes. *)
Definition struct_unpack_Q (n : nat) (data : bytes) : result (list Z) :=
  if Nat.eqb (List.length data) (8 * n) then Ok (unpack_fields n data)
  else Raise struct_error.

(** ** Constants *)

Definition CA_FORMAT_TABLE_TAIL_MARKER : Z := 0xe75b9e112f17417.
Definition FLAGS : Z := 0xb000000000000000.

Definition CA_HEADER_LEN : Z := 32.
Definition CA_TABLE_HEADER_LEN : Z := 16.
Definition CA_TABLE_ENTRY_LEN : Z := 40.
Definition CA_TABLE_MIN_LEN : Z := CA_TABLE_HEADER_LEN + CA_TABLE_ENTRY_LEN.

Definition CA_FORMAT_INDEX : Z := 0x96824d9c7b129ff9.
Definition CA_FORMAT_TABLE : Z := 0xe75b9e112f17417d.
Definition CA_FORMAT_ENTRY : Z := 0x1396fabcea5bbb51.
Definition CA_FORMAT_GOODBYE : Z := 0xdfd35c5e8327c403.
Definition CA_FORMAT_FILENAME : Z := 0x6dbb6ebcb3161f0b.
Definition CA_FORMAT_PAYLOAD : Z := 0x8b9e1d93d6dcffc9.

Definition CA_MAX_FILENAME_SIZE : Z := 256.

(** ** Headers *)

Module CAFormatHeader.
Record t : Type := mk { size : Z; type : Z }.
End CAFormatHeader.

(** A header class: what [create_header_with_type] returns.  Its only
    member is the static method [from_buffer]; [None] is Python's [None]. *)
Record header_class : Type :=
  { from_buffer : M (option CAFormatHeader.t) }.

Definition create_header_with_type (MAGIC_TYPE : Z) : header_class :=
  {| from_buffer :=
       data <- read CA_TABLE_HEADER_LEN ;;
       fields <- lift (struct_unpack_Q 2 data) ;;
       match fields with
       | [length; magic] =>
           if magic =? CA_FORMAT_GOODBYE then ret None
           else if magic =? MAGIC_TYPE
                then ret (Some (CAFormatHeader.mk length magic))
                else raise AssertionError
       | _ => raise ValueError
       end |}.

Definition CAIndexHeader := create_header_with_type CA_FORMAT_INDEX.
Definition CATableHeader := create_header_with_type CA_FORMAT_TABLE.
Definition CAEntryHeader := create_header_with_type CA_FORMAT_ENTRY.
Definition CAFilenameHeader := create_header_with_type CA_FORMAT_FILENAME.
Definition CAPayloadHeader := create_header_with_type CA_FORMAT_PAYLOAD.

(** ** The index *)

Module CAChunk.

Record t : Type := mk { sha : bytes; offset : Z; length : Z }.

Definition from_buffer (last_offset : Z) : M t :=
  data <- read 8 ;;
  fields <- lift (struct_unpack_Q 1 data) ;;
  match fields with
  | new_offset :: _ =>
      sha <- read 32 ;;
      let length := new_offset - last_offset in
      ret (mk sha last_offset length)
  | [] => raise ValueError
  end.

End CAChunk.

Module CaFormatIndex.

Record t : Type := mk
  { header : option CAFormatHeader.t;
    flags : Z;
    chunk_size_min : Z;
    chunk_size_avg : Z;
    chunk_size_max : Z }.

Definition from_buffer : M t :=
  header <- from_buffer CAIndexHeader ;;
  data <- read CA_HEADER_LEN ;;
  fields <- lift (struct_unpack_Q 4 data) ;;
  match fields with
  | [f; cmin; cavg; cmax] => ret (mk header f cmin cavg cmax)
  | _ => raise TypeError
  end.

End CaFormatIndex.

Module CAIndex.

Record t : Type := mk { chunks : list CAChunk.t }.

(** The body of [for _ in range(num_chunks)], with the loop variables
    [offset] and [chunks] as accumulators; [n] is the number of
    iterations left. *)
Fixpoint chunk_loop (n : nat) (offset : Z) (chunks : list CAChunk.t)
  : M (list CAChunk.t) :=
  match n with
  | O => ret chunks
  | S n' =>
      chunk <- CAChunk.from_buffer offset ;;
      chunk_loop n' (offset + CAChunk.length chunk) (chunks ++ [chunk])
  end.

(** [//] is floor division, which [Z.div] is for a positive divisor;
    [range] of a negative number is empty, which [Z.to_nat] gives. *)
Definition from_buffer : M t :=
  seek 0 SEEK_END ;;;
  length <- tell ;;
  seek 0 SEEK_SET ;;;
  CaFormatIndex.from_buffer ;;;
  from_buffer CATableHeader ;;;
  let num_chunks :=
    (length - CA_HEADER_LEN - CA_TABLE_MIN_LEN) / CA_TABLE_ENTRY_LEN in
  chunks <- chunk_loop (Z.to_nat num_chunks) 0 [] ;;
  ret (mk chunks).

End CAIndex.

(** ** bytes.decode("utf-8")

    Python's strict decoder accepts exactly the well-formed sequences of
    the Unicode standard (no overlong forms, no surrogates, nothing above
    U+10FFFF) and yields their code points; anything else raises
    [UnicodeDecodeError]. *)

Definition str := list Z.

Definition in_range (lo hi c : Z) : bool := (lo <=? c) && (c <=? hi).

Definition is_cont (c : Z) : bool := in_range 0x80 0xBF c.

(** The range of the second byte after the lead byte of a three-byte and of a
    four-byte sequence. *)
Definition second_of_3 (b0 b1 : Z) : bool :=
  if b0 =? 0xE0 then in_range 0xA0 0xBF b1
  else if b0 =? 0xED then in_range 0x80 0x9F b1
  else is_cont b1.

Definition second_of_4 (b0 b1 : Z) : bool :=
  if b0 =? 0xF0 then in_range 0x90 0xBF b1
  else if b0 =? 0xF4 then in_range 0x80 0x8F b1
  else is_cont b1.

Fixpoint utf8_code_points (data : bytes) : option str :=
  match data with
  | [] => Some []
  | c0 :: r0 =>
      let b0 := byte_val c0 in
      if b0 <? 0x80 then option_map (cons b0) (utf8_code_points r0)
      else if in_range 0xC2 0xDF b0 then
        match r0 with
        | c1 :: r1 =>
            let b1 := byte_val c1 in
            if is_cont b1
            then option_map (cons ((b0 - 0xC0) * 64 + (b1 - 0x80)))
                            (utf8_code_points r1)
            else None
        | _ => None
        end
      else if in_range 0xE0 0xEF b0 then
        match r0 with
        | c1 :: c2 :: r2 =>
            let b1 := byte_val c1 in
            let b2 := byte_val c2 in
            if second_of_3 b0 b1 && is_cont b2
            then option_map
                   (cons ((b0 - 0xE0) * 4096 + (b1 - 0x80) * 64 + (b2 - 0x80)))
                   (utf8_code_points r2)
            else None
        | _ => None
        end
      else if in_range 0xF0 0xF4 b0 then
        match r0 with
        | c1 :: c2 :: c3 :: r3 =>
            let b1 := byte_val c1 in
            let b2 := byte_val c2 in
            let b3 := byte_val c3 in
            if second_of_4 b0 b1 && is_cont b2 && is_cont b3
            then option_map
                   (cons ((b0 - 0xF0) * 262144 + (b1 - 0x80) * 4096
                          + (b2 - 0x80) * 64 + (b3 - 0x80)))
                   (utf8_code_points r3)
            else None
        | _ => None
        end
      else None
  end.

Definition decode_utf8 (data : bytes) : result str :=
  match utf8_code_points data with
  | Some s => Ok s
  | None => Raise UnicodeDecodeError
  end.

(** ** The archive stream *)

Module CAFilename.

Record t : Type := mk
  { header : option CAFormatHeader.t; filename : str }.

(** [while len(filename) < CA_MAX_FILENAME_SIZE]: one unit of fuel per
    test of the loop condition.  At the end of the buffer [b.read(1)] is
    [b""], which is not the terminator and leaves [filename] as it was. *)
Fixpoint name_loop (fuel : nat) (filename : bytes) : M bytes :=
  match fuel with
  | O => out_of_fuel
  | S fuel' =>
      if Z.of_nat (List.length filename) <? CA_MAX_FILENAME_SIZE then
        c <- read 1 ;;
        if bytes_eqb c [x00] then ret filename
        else name_loop fuel' (filename ++ c)
      else ret filename
  end.

Definition from_buffer (fuel : nat) : M (option t) :=
  header <- from_buffer CAFilenameHeader ;;
  match header with
  | None => ret None
  | Some _ =>
      filename <- name_loop fuel [] ;;
      name <- lift (decode_utf8 filename) ;;
      ret (Some (mk header name))
  end.

End CAFilename.

Module CAEntry.

Record t : Type := mk
  { header : option CAFormatHeader.t;
    feature_flags : Z;
    mode : Z;
    flags : Z;
    uid : Z;
    gid : Z;
    mtime : Z }.

Definition from_buffer : M t :=
  entry <- from_buffer CAEntryHeader ;;
  data <- read (8 * 6) ;;
  fields <- lift (struct_unpack_Q 6 data) ;;
  match fields with
  | [ff; m; f; u; g; mt] => ret (mk entry ff m f u g mt)
  | _ => raise TypeError
  end.

End CAEntry.

Module CAArchive.

Record t : Type := mk { entry : CAEntry.t }.

Definition from_buffer : M t :=
  entry <- CAEntry.from_buffer ;;
  ret (mk entry).

End CAArchive.

Module CAFile.

Record t : Type := mk { filename : CAFilename.t; data : bytes }.

(** [payload.size] raises [AttributeError] when [payload] is [None]. *)
Definition payload_size (payload : option CAFormatHeader.t) : M Z :=
  match payload with
  | Some p => ret (CAFormatHeader.size p)
  | None => raise AttributeError
  end.

Definition from_bytes (fuel : nat) : M (option t) :=
  filename <- CAFilename.from_buffer fuel ;;
  match filename with
  | None => ret None
  | Some filename =>
      CAArchive.from_buffer ;;;
      payload <- from_buffer CAPayloadHeader ;;
      size <- payload_size payload ;;
      data <- read (size - 16) ;;
      ret (Some (mk filename data))
  end.

End CAFile.

Module CATar.

Record t : Type := mk { archive : CAArchive.t; files : list CAFile.t }.

(** [while True]: [n] bounds the number of iterations, [fuel] is handed to
    each [CAFile.from_bytes]. *)
Fixpoint files_loop (fuel n : nat) (files : list CAFile.t)
  : M (list CAFile.t) :=
  match n with
  | O => out_of_fuel
  | S n' =>
      file <- CAFile.from_bytes fuel ;;
      match file with
      | None => ret files
      | Some file => files_loop fuel n' (files ++ [file])
      end
  end.

Definition from_bytes (fuel : nat) : M t :=
  archive <- CAArchive.from_buffer ;;
  files <- files_loop fuel fuel [] ;;
  ret (mk archive files).

End CATar.

(** ** From an index file to the archive

    [DirectoryChunkReader] lives in another module; it is taken as a
    parameter: the type of reader objects, the constructor, and [read],
    which may change the reader and may raise.  The file system is the
    partial map [open_rb] from paths to file contents. *)

Section Pipeline.

Variable open_rb : string -> option bytes.
Variable ChunkReader : Type.
Variable DirectoryChunkReader : string -> ChunkReader.
Variable chunk_reader_read :
  ChunkReader -> CAChunk.t -> result bytes * ChunkReader.

(** [CAIndex.from_file] *)
Definition from_file (filepath : string) : result CAIndex.t :=
  match open_rb filepath with
  | None => Raise OSError
  | Some contents =>
      match CAIndex.from_buffer (BytesIO.of_bytes contents) with
      | Ok (index, _) => Ok index
      | Raise e => Raise e
      | OutOfFuel => OutOfFuel
      end
  end.

(** An exception that leaves the body of a generator: a [StopIteration]
    is replaced by a [RuntimeError] (PEP 479), any other is handed on. *)
Definition through_generator (e : exn) : exn :=
  match e with
  | StopIteration => RuntimeError
  | _ => e
  end.

(** The generator [chunk_reader.read(chunk) for chunk in caidx.chunks] as
    [b"".join] consumes it: one [read] per chunk, first to last, stopping
    at the first exception, which leaves through the generator. *)
Fixpoint read_chunks (r : ChunkReader) (chunks : list CAChunk.t)
  : result (list bytes) * ChunkReader :=
  match chunks with
  | [] => (Ok [], r)
  | chunk :: rest =>
      match chunk_reader_read r chunk with
      | (Ok part, r') =>
          match read_chunks r' rest with
          | (Ok parts, r'') => (Ok (part :: parts), r'')
          | other => other
          end
      | (Raise e, r') => (Raise (through_generator e), r')
      | (OutOfFuel, r') => (OutOfFuel, r')
      end
  end.

(** [b"".join(...)] over that generator. *)
Definition join_chunks (r : ChunkReader) (chunks : list CAChunk.t)
  : result bytes * ChunkReader :=
  match read_chunks r chunks with
  | (Ok parts, r') => (Ok (List.concat parts), r')
  | (Raise e, r') => (Raise e, r')
  | (OutOfFuel, r') => (OutOfFuel, r')
  end.

(** [parse_caidx]; the reader is returned with the result so that what
    was asked of it can be observed. *)
Definition parse_caidx (fuel : nat) (caidx_path : string)
  : result CATar.t * option ChunkReader :=
  match from_file caidx_path with
  | Ok caidx =>
      let chunk_reader :=
        DirectoryChunkReader "/tmp/test_casync/default.castr" in
      match join_chunks chunk_reader (CAIndex.chunks caidx) with
      | (Ok data, r) =>
          match CATar.from_bytes fuel (BytesIO.of_bytes data) with
          | Ok (tar, _) => (Ok tar, Some r)
          | Raise e => (Raise e, Some r)
          | OutOfFuel => (OutOfFuel, Some r)
          end
      | (Raise e, r) => (Raise e, Some r)
      | (OutOfFuel, r) => (OutOfFuel, Some r)
      end
  | Raise e => (Raise e, None)
  | OutOfFuel => (OutOfFuel, None)
  end.

End Pipeline.

Arguments from_file open_rb filepath : assert.
Arguments read_chunks {ChunkReader} chunk_reader_read r chunks : assert.
Arguments join_chunks {ChunkReader} chunk_reader_read r chunks : assert.
Arguments parse_caidx open_rb {ChunkReader} DirectoryChunkReader
  chunk_reader_read fuel caidx_path : assert.

(** ** Building byte strings

    Encoders used to write inputs down; the decoder never calls them. *)

Definition byte_of_Z (z : Z) : byte :=
  match Byte.of_N (Z.to_N (z mod 256)) with
  | Some c => c
  | None => x00
  end.

(** [n] little-endian bytes of [z]. *)
Fixpoint le_bytes (n : nat) (z : Z) : bytes :=
  match n with
  | O => []
  | S n' => byte_of_Z z :: le_bytes n' (z / 256)
  end.

Definition pack_Q (z : Z) : bytes := le_bytes 8 z.

(** A 16-byte header [(length, magic)]. *)
Definition header_bytes (length magic : Z) : bytes :=
  pack_Q length ++ pack_Q magic.

Definition zeros (n : nat) : bytes := repeat x00 n.

(** The UTF-8 encoding of a string, [str.encode("utf-8")]; the decoder
    never calls it, it says which bytes a decoded name stands for. *)
Definition utf8_encode_cp (cp : Z) : bytes :=
  if cp <? 0x80 then [byte_of_Z cp]
  else if cp <? 0x800 then
    [byte_of_Z (0xC0 + cp / 64); byte_of_Z (0x80 + cp mod 64)]
  else if cp <? 0x10000 then
    [byte_of_Z (0xE0 + cp / 4096); byte_of_Z (0x80 + (cp / 64) mod 64);
     byte_of_Z (0x80 + cp mod 64)]
  else
    [byte_of_Z (0xF0 + cp / 262144); byte_of_Z (0x80 + (cp / 4096) mod 64);
     byte_of_Z (0x80 + (cp / 64) mod 64); byte_of_Z (0x80 + cp mod 64)].

Definition utf8_encode (s : str) : bytes := flat_map utf8_encode_cp s.

(** An index file: index header and preamble, table header, one 40-byte
    entry per stored cumulative offset (with a zero hash) and the 40-byte
    tail record. *)
Definition index_entry (stored_offset : Z) : bytes :=
  pack_Q stored_offset ++ zeros 32.

Definition index_bytes (stored_offsets : list Z) : bytes :=
  header_bytes 48 CA_FORMAT_INDEX
  ++ pack_Q FLAGS ++ pack_Q 16384 ++ pack_Q 65536 ++ pack_Q 262144
  ++ header_bytes 0xffffffffffffffff CA_FORMAT_TABLE
  ++ List.concat (map index_entry stored_offsets)
  ++ pack_Q 0 ++ pack_Q 0 ++ pack_Q 48
  ++ pack_Q (16 + 40 * Z.of_nat (List.length stored_offsets) + 40)
  ++ pack_Q CA_FORMAT_TABLE_TAIL_MARKER.

(** The records of an archive stream. *)
Definition entry_bytes (magic : Z) : bytes :=
  header_bytes 64 magic
  ++ pack_Q 0 ++ pack_Q 33188 ++ pack_Q 0 ++ pack_Q 1000 ++ pack_Q 1000
  ++ pack_Q 0.

Definition filename_bytes (name : bytes) : bytes :=
  header_bytes (16 + Z.of_nat (List.length name) + 1) CA_FORMAT_FILENAME
  ++ name ++ [x00].

Definition payload_bytes (data : bytes) : bytes :=
  header_bytes (16 + Z.of_nat (List.length data)) CA_FORMAT_PAYLOAD ++ data.

Definition file_bytes (name data : bytes) : bytes :=
  filename_bytes name ++ entry_bytes CA_FORMAT_ENTRY ++ payload_bytes data.

Definition goodbye_bytes : bytes := header_bytes 16 CA_FORMAT_GOODBYE.

(** "a.txt" and five bytes of content. *)
Definition a_txt : bytes := [x61; x2e; x74; x78; x74].
Definition hello : bytes := [x68; x65; x6c; x6c; x6f].

Definition one_file_archive : bytes :=
  entry_bytes CA_FORMAT_ENTRY ++ file_bytes a_txt hello ++ goodbye_bytes.

(** The record of "a.txt" with a payload header that announces 100 bytes
    of data, and the five bytes that follow it. *)
Definition short_record : bytes :=
  filename_bytes a_txt ++ entry_bytes CA_FORMAT_ENTRY
  ++ header_bytes 116 CA_FORMAT_PAYLOAD ++ hello.

(** A chunk reader without state that returns as many zero bytes as the
    descriptor is long. *)
Definition zero_reader (r : unit) (chunk : CAChunk.t)
  : result bytes * unit :=
  (Ok (zeros (Z.to_nat (CAChunk.length chunk))), r).

(** ** Observations on a cursor, used to state the properties *)

Definition available (b : BytesIO.t) : nat :=
  List.length (BytesIO.remaining b).

Definition peek (n : nat) (b : BytesIO.t) : bytes :=
  firstn n (BytesIO.remaining b).

Definition advance (n : nat) (b : BytesIO.t) : BytesIO.t :=
  BytesIO.mk (BytesIO.buf b) (BytesIO.pos b + n).

(** The two fields of the 16 bytes under the cursor. *)
Definition header_length (b : BytesIO.t) : Z :=
  le_uint (firstn 8 (peek 16 b)).

Definition header_magic (b : BytesIO.t) : Z :=
  le_uint (firstn 8 (skipn 8 (peek 16 b))).

(** Field [i] of a string of little-endian 64-bit fields. *)
Definition u64_at (i : nat) (data : bytes) : Z :=
  le_uint (firstn 8 (skipn (8 * i) data)).

(** Entry [i] of a chunk table that starts under the cursor [b]: the stored
    cumulative offset and the hash. *)
Definition entry_offset (b : BytesIO.t) (i : nat) : Z :=
  le_uint (peek 8 (advance (40 * i) b)).

Definition entry_sha (b : BytesIO.t) (i : nat) : bytes :=
  peek 32 (advance (40 * i + 8) b).

(** The value of the loop variable [offset] when entry [i] is read. *)
Definition running_offset (b : BytesIO.t) (i : nat) : Z :=
  match i with
  | O => 0
  | S j => entry_offset b j
  end.

Definition chunk_of (b : BytesIO.t) (i : nat) : CAChunk.t :=
  CAChunk.mk (entry_sha b i) (running_offset b i)
             (entry_offset b i - running_offset b i).

(** The cursor [CAIndex.from_buffer] starts from after its two seeks. *)
Definition rewind (b : BytesIO.t) : BytesIO.t :=
  BytesIO.mk (BytesIO.buf b) 0.

(** Where the chunk table starts, and how many entries the decoder reads. *)
Definition table_start (b : BytesIO.t) : BytesIO.t :=
  advance 64 (rewind b).

Definition num_chunks (b : BytesIO.t) : Z :=
  (Z.of_nat (List.length (BytesIO.buf b)) - CA_HEADER_LEN - CA_TABLE_MIN_LEN)
  / CA_TABLE_ENTRY_LEN.

(** The cumulative offset stored in the last table entry the decoder
    reads, taken from the eight bytes of the buffer that hold it; 0 when
    the decoder reads no entry. *)
Definition last_stored_offset (b : BytesIO.t) : Z :=
  match Z.to_nat (num_chunks b) with
  | O => 0
  | S j => le_uint (firstn 8 (skipn (64 + 40 * j) (BytesIO.buf b)))
  end.

(** The sum of the descriptor lengths. *)
Definition total_length (chunks : list CAChunk.t) : Z :=
  fold_right (fun c acc => CAChunk.length c + acc) 0 chunks.

(** A chunk reader that also keeps the list of the chunks it was asked
    for, oldest first. *)
Definition logged {R : Type}
  (chunk_reader_read : R -> CAChunk.t -> result bytes * R)
  (s : list CAChunk.t * R) (chunk : CAChunk.t)
  : result bytes * (list CAChunk.t * R) :=
  let (res, r') := chunk_reader_read (snd s) chunk in
  (res, (fst s ++ [chunk], r')).

(** [reads read r chunks parts r']: calling [read] on [chunks] one after the
    other, starting from the reader [r], succeeds each time, returns [parts]
    and leaves the reader [r']. *)
Inductive reads {R : Type}
  (chunk_reader_read : R -> CAChunk.t -> result bytes * R)
  : R -> list CAChunk.t -> list bytes -> R -> Prop :=
| reads_nil r : reads chunk_reader_read r [] [] r
| reads_cons r chunk part r1 rest parts r2 :
    chunk_reader_read r chunk = (Ok part, r1) ->
    reads chunk_reader_read r1 rest parts r2 ->
    reads chunk_reader_read r (chunk :: rest) (part :: parts) r2.

(** [file] was decoded by [CAFile.from_bytes] at the cursor [b], and its
    data are exactly the [size - 16] bytes after the payload header. *)
Definition payload_exact (fuel : nat) (b : BytesIO.t) (file : CAFile.t)
  : Prop :=
  exists b1 a b2 p b3,
    CAFilename.from_buffer fuel b = Ok (Some (CAFile.filename file), b1) /\
    CAArchive.from_buffer b1 = Ok (a, b2) /\
    from_buffer CAPayloadHeader b2 = Ok (Some p, b3) /\
    Z.of_nat (List.length (CAFile.data file)) = CAFormatHeader.size p - 16 /\
    CAFile.data file = peek (Z.to_nat (CAFormatHeader.size p - 16)) b3.

(** A parser that never replaces the buffer it reads. *)
Definition keeps_buffer {A : Type} (m : M A) : Prop :=
  forall b a b', m b = Ok (a, b') -> BytesIO.buf b' = BytesIO.buf b.

(** What leaves every enclosing decoder when the header read at [b] in the
    context [MAGIC] raises [e]: the decoders that read this header first,
    and those that reach it after the parts before it decoded well. *)
Definition aborts_enclosing (MAGIC : Z) (b : BytesIO.t) (e : exn) : Prop :=
  (MAGIC = CA_FORMAT_INDEX ->
     CaFormatIndex.from_buffer b = Raise e /\
     forall b0, rewind b0 = b -> CAIndex.from_buffer b0 = Raise e) /\
  (MAGIC = CA_FORMAT_TABLE ->
     forall b0 idx,
       CaFormatIndex.from_buffer (rewind b0) = Ok (idx, b) ->
       CAIndex.from_buffer b0 = Raise e) /\
  (MAGIC = CA_FORMAT_FILENAME ->
     forall fuel,
       CAFilename.from_buffer fuel b = Raise e /\
       CAFile.from_bytes fuel b = Raise e /\
       (forall n files, CATar.files_loop fuel (S n) files b = Raise e) /\
       (forall b0 a,
           CAArchive.from_buffer b0 = Ok (a, b) ->
           CATar.from_bytes (S fuel) b0 = Raise e)) /\
  (MAGIC = CA_FORMAT_ENTRY ->
     CAEntry.from_buffer b = Raise e /\
     CAArchive.from_buffer b = Raise e /\
     forall fuel,
       CATar.from_bytes fuel b = Raise e /\
       forall b0 fn,
         CAFilename.from_buffer fuel b0 = Ok (Some fn, b) ->
         CAFile.from_bytes fuel b0 = Raise e /\
         forall n files, CATar.files_loop fuel (S n) files b0 = Raise e) /\
  (MAGIC = CA_FORMAT_PAYLOAD ->
     forall fuel b0 fn b1 a,
       CAFilename.from_buffer fuel b0 = Ok (Some fn, b1) ->
       CAArchive.from_buffer b1 = Ok (a, b) ->
       CAFile.from_bytes fuel b0 = Raise e /\
       forall n files, CATar.files_loop fuel (S n) files b0 = Raise e).

(** An outcome of the Python program, that is, not a lack of fuel. *)
Definition settled {A : Type} (r : result A) : Prop := r <> OutOfFuel.

(** ** Encoders for whole records

    What a well-formed stream looks like, to state what the decoders make of
    one; the decoders never call these. *)

(** An entry record: the 16-byte header and the six fields of [e]. *)
Definition encode_entry (e : CAEntry.t) : bytes :=
  header_bytes 64 CA_FORMAT_ENTRY
  ++ pack_Q (CAEntry.feature_flags e) ++ pack_Q (CAEntry.mode e)
  ++ pack_Q (CAEntry.flags e) ++ pack_Q (CAEntry.uid e)
  ++ pack_Q (CAEntry.gid e) ++ pack_Q (CAEntry.mtime e).

(** A file as it goes into an archive: the bytes of its name, its entry and
    its content. *)
Record file_source : Type := mk_file_source
  { src_name : bytes; src_entry : CAEntry.t; src_data : bytes }.

Definition encode_file (f : file_source) : bytes :=
  filename_bytes (src_name f) ++ encode_entry (src_entry f)
  ++ payload_bytes (src_data f).

Definition encode_archive (top : CAEntry.t) (files : list file_source)
  : bytes :=
  encode_entry top ++ List.concat (map encode_file files) ++ goodbye_bytes.

(** The record [CAFile.from_bytes] is to return for [f], given the string
    its name decodes to. *)
Definition decoded_file (f : file_source) (name : str) : CAFile.t :=
  CAFile.mk
    (CAFilename.mk
       (Some (CAFormatHeader.mk (16 + Z.of_nat (List.length (src_name f)) + 1)
                                CA_FORMAT_FILENAME))
       name)
    (src_data f).

(** A 64-bit unsigned value. *)
Definition is_u64 (z : Z) : Prop := 0 <= z < 2 ^ 64.

(** The entry the decoder makes of [encode_entry e]: the entry header, and
    each field as the 64 bits that were written. *)
Definition entry_read_back (e : CAEntry.t) : CAEntry.t :=
  CAEntry.mk (Some (CAFormatHeader.mk 64 CA_FORMAT_ENTRY))
    (CAEntry.feature_flags e mod 2 ^ 64) (CAEntry.mode e mod 2 ^ 64)
    (CAEntry.flags e mod 2 ^ 64) (CAEntry.uid e mod 2 ^ 64)
    (CAEntry.gid e mod 2 ^ 64) (CAEntry.mtime e mod 2 ^ 64).

(** A name the file decoder reads back whole: no zero byte and shorter than
    the cap. *)
Definition plain_name (name : bytes) : Prop :=
  ~ In x00 name /\ (List.length name < 256)%nat.

(** The string a name decodes to (empty when it is not UTF-8). *)
Definition decoded_name (name : bytes) : str :=
  match utf8_code_points name with
  | Some s => s
  | None => []
  end.

(** A file the decoder reads back: a plain name in UTF-8, and data no
    longer than a [bytes] object can be ([sys.maxsize] bytes), so that the
    count of the payload read fits [Py_ssize_t]. *)
Definition readable_source (f : file_source) : Prop :=
  plain_name (src_name f) /\
  utf8_code_points (src_name f) <> None /\
  Z.of_nat (List.length (src_data f)) <= SSIZE_MAX.

Definition read_back (f : file_source) : CAFile.t :=
  decoded_file f (decoded_name (src_name f)).

(** A parser that keeps the buffer and never moves the cursor back. *)
Definition moves_forward {A : Type} (m : M A) : Prop :=
  forall b a b',
    m b = Ok (a, b') ->
    BytesIO.buf b' = BytesIO.buf b /\ (BytesIO.pos b <= BytesIO.pos b')%nat.

(** An index file with the same two magics and entries as [index_bytes],
    and zeros for everything the decoder does not look at: both size
    fields, the preamble and the tail record. *)
Definition bare_index_bytes (stored_offsets : list Z) : bytes :=
  header_bytes 0 CA_FORMAT_INDEX ++ zeros 32
  ++ header_bytes 0 CA_FORMAT_TABLE
  ++ List.concat (map index_entry stored_offsets)
  ++ zeros 40.

(** A chunk reader that raises for the descriptor at offset 16 and returns
    zero bytes of the asked length for the others. *)
Definition reader_failing_at_16 (r : unit) (chunk : CAChunk.t)
  : result bytes * unit :=
  if CAChunk.offset chunk =? 16 then (Raise ReaderError, r)
  else (Ok (zeros (Z.to_nat (CAChunk.length chunk))), r).

(** The same reader, raising [StopIteration] instead. *)
Definition reader_stopping_at_16 (r : unit) (chunk : CAChunk.t)
  : result bytes * unit :=
  if CAChunk.offset chunk =? 16 then (Raise StopIteration, r)
  else (Ok (zeros (Z.to_nat (CAChunk.length chunk))), r).

(** A name of 256 letters "a". *)
Definition name_of_256 : bytes := repeat x61 256.

(** ** Extraction

    [extract_tar] works on the file system through [shutil.rmtree],
    [os.mkdir] and, for each file, [open(path, "wb")] followed by one
    [write]; they are parameters that change a file system of some type and
    may raise.  Paths are strings; [f"{directory}/{name}"] is their
    concatenation around the code point 47. *)

Section Extraction.

Variable FS : Type.
Variable rmtree : str -> FS -> result unit * FS.
Variable mkdir : str -> FS -> result unit * FS.
Variable write_file : str -> bytes -> FS -> result unit * FS.

Definition file_path (directory : str) (file : CAFile.t) : str :=
  directory ++ [47] ++ CAFilename.filename (CAFile.filename file).

(** [for file in tar.files: ...] *)
Fixpoint write_files (directory : str) (files : list CAFile.t) (fs : FS)
  : result unit * FS :=
  match files with
  | [] => (Ok tt, fs)
  | file :: rest =>
      match write_file (file_path directory file) (CAFile.data file) fs with
      | (Ok _, fs') => write_files directory rest fs'
      | (Raise e, fs') => (Raise e, fs')
      | (OutOfFuel, fs') => (OutOfFuel, fs')
      end
  end.

Definition extract_tar (tar : CATar.t) (directory : str) (fs : FS)
  : result unit * FS :=
  match rmtree directory fs with
  | (Ok _, fs1) =>
      match mkdir directory fs1 with
      | (Ok _, fs2) => write_files directory (CATar.files tar) fs2
      | (Raise e, fs2) => (Raise e, fs2)
      | (OutOfFuel, fs2) => (OutOfFuel, fs2)
      end
  | (Raise e, fs1) => (Raise e, fs1)
  | (OutOfFuel, fs1) => (OutOfFuel, fs1)
  end.

End Extraction.

Arguments file_path directory file : assert.
Arguments write_files {FS} write_file directory files fs : assert.
Arguments extract_tar {FS} rmtree mkdir write_file tar directory fs : assert.

(** The calls [extract_tar] can make on the file system. *)
Inductive fs_call : Type :=
| Rmtree (directory : str)
| Mkdir (directory : str)
| Write (path : str) (data : bytes).

(** File-system operations that also keep the list of the calls made. *)
Definition logged_rmtree {FS : Type} (rmtree : str -> FS -> result unit * FS)
  (directory : str) (s : list fs_call * FS) : result unit * (list fs_call * FS) :=
  let (res, fs') := rmtree directory (snd s) in
  (res, (fst s ++ [Rmtree directory], fs')).

Definition logged_mkdir {FS : Type} (mkdir : str -> FS -> result unit * FS)
  (directory : str) (s : list fs_call * FS) : result unit * (list fs_call * FS) :=
  let (res, fs') := mkdir directory (snd s) in
  (res, (fst s ++ [Mkdir directory], fs')).

Definition logged_write {FS : Type}
  (write_file : str -> bytes -> FS -> result unit * FS)
  (path : str) (data : bytes) (s : list fs_call * FS)
  : result unit * (list fs_call * FS) :=
  let (res, fs') := write_file path data (snd s) in
  (res, (fst s ++ [Write path data], fs')).

(** One call, on file-system operations that keep no list. *)
Definition do_call {FS : Type} (rmtree mkdir : str -> FS -> result unit * FS)
  (write_file : str -> bytes -> FS -> result unit * FS)
  (call : fs_call) (fs : FS) : result unit * FS :=
  match call with
  | Rmtree directory => rmtree directory fs
  | Mkdir directory => mkdir directory fs
  | Write path data => write_file path data fs
  end.

(** [ran rmtree mkdir write_file fs calls fs']: the [calls], made one after
    the other starting from [fs], all return, and leave [fs']. *)
Inductive ran {FS : Type} (rmtree mkdir : str -> FS -> result unit * FS)
  (write_file : str -> bytes -> FS -> result unit * FS)
  : FS -> list fs_call -> FS -> Prop :=
| ran_nil fs : ran rmtree mkdir write_file fs [] fs
| ran_cons fs call fs1 rest fs2 :
    do_call rmtree mkdir write_file call fs = (Ok tt, fs1) ->
    ran rmtree mkdir write_file fs1 rest fs2 ->
    ran rmtree mkdir write_file fs (call :: rest) fs2.

(** The calls of an extraction in which nothing raises. *)
Definition extraction_plan (tar : CATar.t) (directory : str) : list fs_call :=
  Rmtree directory :: Mkdir directory
  :: map (fun file => Write (file_path directory file) (CAFile.data file))
         (CATar.files tar).

(** A file system that is the list of the files written, where removing a
    tree fails with [OSError] as long as the list is empty. *)
Definition rmtree_needs_files (directory : str) (fs : list (str * bytes))
  : result unit * list (str * bytes) :=
  match fs with
  | [] => (Raise OSError, fs)
  | _ => (Ok tt, [])
  end.

Definition mkdir_plain (directory : str) (fs : list (str * bytes))
  : result unit * list (str * bytes) := (Ok tt, fs).

(** A write that appends the file to the list, and fails with [OSError] on
    data of more than four bytes. *)
Definition write_small (path : str) (data : bytes) (fs : list (str * bytes))
  : result unit * list (str * bytes) :=
  if (List.length data <=? 4)%nat then (Ok tt, fs ++ [(path, data)])
  else (Raise OSError, fs).

(** A parser that never asks for fuel. *)
Definition fuel_free {A : Type} (m : M A) : Prop :=
  forall b, settled (m b).

(** ** An encoder for index files *)

(** An index file with the given table entries, each a stored cumulative
    offset and a hash, and the given bytes after the last entry. *)
Definition encode_index_entry (e : Z * bytes) : bytes :=
  pack_Q (fst e) ++ snd e.

Definition encode_index (entries : list (Z * bytes)) (tail : bytes) : bytes :=
  (header_bytes 48 CA_FORMAT_INDEX
   ++ pack_Q FLAGS ++ pack_Q 16384 ++ pack_Q 65536 ++ pack_Q 262144)
  ++ header_bytes 0xffffffffffffffff CA_FORMAT_TABLE
  ++ List.concat (map encode_index_entry entries) ++ tail.

(** The descriptors of a table: each chunk starts where the one before
    ends, the first at [last]. *)
Fixpoint descriptors (last : Z) (entries : list (Z * bytes))
  : list CAChunk.t :=
  match entries with
  | [] => []
  | (stored, sha) :: rest =>
      CAChunk.mk sha last (stored - last) :: descriptors stored rest
  end.

(** A chunk reader that serves a stream held in memory: for a descriptor,
    the bytes of the stream at its offset, as many as its length. *)
Definition slice_reader (stream : bytes) (r : unit) (chunk : CAChunk.t)
  : result bytes * unit :=
  (Ok (firstn (Z.to_nat (CAChunk.length chunk))
              (skipn (Z.to_nat (CAChunk.offset chunk)) stream)), r).

(** * Properties *)

(** ** The monad *)

Lemma bind_ok {A B} (m : M A) (k : A -> M B) b a b' :
  m b = Ok (a, b') -> bind m k b = k a b'.
Proof. unfold bind. intros ->. reflexivity. Qed.

Lemma bind_raise {A B} (m : M A) (k : A -> M B) b e :
  m b = Raise e -> bind m k b = Raise e.
Proof. unfold bind. intros ->. reflexivity. Qed.

Lemma bind_out_of_fuel {A B} (m : M A) (k : A -> M B) b :
  m b = OutOfFuel -> bind m k b = OutOfFuel.
Proof. unfold bind. intros ->. reflexivity. Qed.

(** A successful [bind] splits into its two halves. *)
Lemma bind_inv {A B} (m : M A) (k : A -> M B) b r b2 :
  bind m k b = Ok (r, b2) ->
  exists a b1, m b = Ok (a, b1) /\ k a b1 = Ok (r, b2).
Proof.
  unfold bind. destruct (m b) as [[a b1]| |]; try discriminate.
  intros H. exists a, b1. split; [reflexivity | exact H].
Qed.

(** ** Reading *)

Lemma available_advance n b :
  (n <= available b)%nat -> available (advance n b) = (available b - n)%nat.
Proof.
  unfold available, advance, BytesIO.remaining. simpl. intros H.
  rewrite !length_skipn in *. lia.
Qed.

Lemma remaining_advance n b :
  BytesIO.remaining (advance n b) = skipn n (BytesIO.remaining b).
Proof.
  unfold advance, BytesIO.remaining. simpl.
  rewrite skipn_skipn. f_equal. lia.
Qed.

Lemma fits_ssize_spec n :
  fits_ssize n = true <-> - SSIZE_MAX - 1 <= n <= SSIZE_MAX.
Proof. unfold fits_ssize. rewrite andb_true_iff, !Z.leb_le. reflexivity. Qed.

Lemma read_full n b :
  (n <= available b)%nat -> fits_ssize (Z.of_nat n) = true ->
  read (Z.of_nat n) b = Ok (peek n b, advance n b).
Proof.
  intros H Hfit. unfold read, peek, advance, available in *. rewrite Hfit.
  destruct (Z.ltb_spec (Z.of_nat n) 0) as [Hn | Hn]; [lia |].
  rewrite Nat2Z.id. rewrite Nat.min_l by exact H. reflexivity.
Qed.

Lemma read_short n b :
  (available b < n)%nat -> fits_ssize (Z.of_nat n) = true ->
  read (Z.of_nat n) b = Ok (BytesIO.remaining b, advance (available b) b).
Proof.
  intros H Hfit. unfold read, advance, available in *. rewrite Hfit.
  destruct (Z.ltb_spec (Z.of_nat n) 0) as [Hn | Hn]; [lia |].
  rewrite Nat2Z.id. rewrite Nat.min_r by lia.
  rewrite firstn_all. reflexivity.
Qed.

Lemma read_negative n b :
  n < 0 -> fits_ssize n = true ->
  read n b = Ok (BytesIO.remaining b, advance (available b) b).
Proof.
  intros H Hfit. unfold read, advance, available. rewrite Hfit.
  destruct (Z.ltb_spec n 0) as [Hn | Hn]; [| lia].
  rewrite firstn_all. reflexivity.
Qed.

Lemma length_peek n b :
  (n <= available b)%nat -> List.length (peek n b) = n.
Proof. unfold peek, available. intros H. rewrite length_firstn. lia. Qed.

Lemma firstn_min_length {A} n (l : list A) :
  firstn (Nat.min n (List.length l)) l = firstn n l.
Proof.
  destruct (Nat.le_ge_cases n (List.length l)) as [H | H].
  - now rewrite Nat.min_l.
  - rewrite Nat.min_r by exact H. now rewrite firstn_all, firstn_all2.
Qed.

(** Every outcome of a read. *)
Lemma read_eq n b :
  read n b =
  if fits_ssize n
  then Ok (if n <? 0 then BytesIO.remaining b
           else firstn (Z.to_nat n) (BytesIO.remaining b),
           advance (if n <? 0 then available b
                    else Nat.min (Z.to_nat n) (available b)) b)
  else Raise OverflowError.
Proof.
  unfold read, advance, available. destruct (fits_ssize n); [| reflexivity].
  destruct (n <? 0).
  - now rewrite firstn_all.
  - now rewrite firstn_min_length.
Qed.

(** ** The header decoder *)

(** What [from_buffer] does, read off the buffer. *)
Lemma header_from_buffer_eq MAGIC b :
  from_buffer (create_header_with_type MAGIC) b =
  if (available b <? 16)%nat then Raise struct_error
  else if header_magic b =? CA_FORMAT_GOODBYE then Ok (None, advance 16 b)
  else if header_magic b =? MAGIC
       then Ok (Some (CAFormatHeader.mk (header_length b) (header_magic b)),
                advance 16 b)
       else Raise AssertionError.
Proof.
  unfold create_header_with_type, from_buffer, CA_TABLE_HEADER_LEN.
  destruct (Nat.ltb_spec (available b) 16) as [Hs | Hl].
  - change 16 with (Z.of_nat 16).
    rewrite (bind_ok _ _ _ _ _ (read_short 16 b Hs eq_refl)).
    unfold bind, lift, struct_unpack_Q.
    replace (List.length (BytesIO.remaining b) =? 8 * 2)%nat with false.
    + reflexivity.
    + symmetry. apply Nat.eqb_neq. unfold available in Hs. lia.
  - change 16 with (Z.of_nat 16).
    rewrite (bind_ok _ _ _ _ _ (read_full 16 b Hl eq_refl)).
    unfold bind, lift, struct_unpack_Q.
    rewrite (length_peek 16 b Hl). simpl Nat.eqb. cbv iota.
    unfold unpack_fields, header_magic, header_length.
    destruct (le_uint (firstn 8 (skipn 8 (peek 16 b))) =? CA_FORMAT_GOODBYE);
      [reflexivity |].
    destruct (le_uint (firstn 8 (skipn 8 (peek 16 b))) =? MAGIC); reflexivity.
Qed.

Lemma header_goodbye MAGIC b :
  (16 <= available b)%nat -> header_magic b = CA_FORMAT_GOODBYE ->
  from_buffer (create_header_with_type MAGIC) b = Ok (None, advance 16 b).
Proof.
  intros H16 Hm. rewrite header_from_buffer_eq.
  destruct (Nat.ltb_spec (available b) 16); [lia |].
  rewrite Hm. reflexivity.
Qed.

Lemma header_short MAGIC b :
  (available b < 16)%nat ->
  from_buffer (create_header_with_type MAGIC) b = Raise struct_error.
Proof.
  intros Hs. rewrite header_from_buffer_eq.
  destruct (Nat.ltb_spec (available b) 16); [reflexivity | lia].
Qed.

Lemma header_mismatch MAGIC b :
  (16 <= available b)%nat ->
  header_magic b <> CA_FORMAT_GOODBYE -> header_magic b <> MAGIC ->
  from_buffer (create_header_with_type MAGIC) b = Raise AssertionError.
Proof.
  intros H16 Hg Hm. rewrite header_from_buffer_eq.
  destruct (Nat.ltb_spec (available b) 16); [lia |].
  destruct (Z.eqb_spec (header_magic b) CA_FORMAT_GOODBYE); [contradiction |].
  destruct (Z.eqb_spec (header_magic b) MAGIC); [contradiction | reflexivity].
Qed.

(** Whatever a successful header read returns, it read 16 bytes. *)
Lemma header_ok_inv MAGIC b r b' :
  from_buffer (create_header_with_type MAGIC) b = Ok (r, b') ->
  (16 <= available b)%nat /\ b' = advance 16 b /\
  (r = None /\ header_magic b = CA_FORMAT_GOODBYE \/
   r = Some (CAFormatHeader.mk (header_length b) (header_magic b)) /\
   header_magic b <> CA_FORMAT_GOODBYE /\ header_magic b = MAGIC).
Proof.
  rewrite header_from_buffer_eq.
  destruct (Nat.ltb_spec (available b) 16); [discriminate |].
  destruct (Z.eqb_spec (header_magic b) CA_FORMAT_GOODBYE) as [Hg | Hg].
  - intros [= <- <-]. auto.
  - destruct (Z.eqb_spec (header_magic b) MAGIC) as [Hm | Hm];
      [| discriminate].
    intros [= <- <-]. auto 6.
Qed.

(** ** Exceptions leave through every enclosing decoder *)

Lemma CAIndex_from_buffer_eq b0 :
  CAIndex.from_buffer b0 =
  (CaFormatIndex.from_buffer ;;;
   from_buffer CATableHeader ;;;
   chunks <- CAIndex.chunk_loop
               (Z.to_nat ((Z.of_nat (List.length (BytesIO.buf b0))
                           - CA_HEADER_LEN - CA_TABLE_MIN_LEN)
                          / CA_TABLE_ENTRY_LEN)) 0 [] ;;
   ret (CAIndex.mk chunks)) (rewind b0).
Proof.
  unfold CAIndex.from_buffer, rewind.
  unfold bind at 1. unfold seek at 1.
  unfold bind at 1. unfold tell at 1.
  unfold bind at 1. unfold seek at 1. simpl.
  rewrite Z.add_0_r, Z.max_r by lia. rewrite Nat2Z.id. reflexivity.
Qed.

Section Propagation.

Variable e : exn.

Lemma CaFormatIndex_header_raise b :
  from_buffer CAIndexHeader b = Raise e ->
  CaFormatIndex.from_buffer b = Raise e.
Proof. intros H. unfold CaFormatIndex.from_buffer. now apply bind_raise. Qed.

Lemma CAIndex_index_raise b0 :
  CaFormatIndex.from_buffer (rewind b0) = Raise e ->
  CAIndex.from_buffer b0 = Raise e.
Proof. intros H. rewrite CAIndex_from_buffer_eq. now apply bind_raise. Qed.

Lemma CAIndex_table_raise b0 idx b :
  CaFormatIndex.from_buffer (rewind b0) = Ok (idx, b) ->
  from_buffer CATableHeader b = Raise e ->
  CAIndex.from_buffer b0 = Raise e.
Proof.
  intros H1 H2. rewrite CAIndex_from_buffer_eq.
  rewrite (bind_ok _ _ _ _ _ H1). now apply bind_raise.
Qed.

Lemma CAFilename_header_raise fuel b :
  from_buffer CAFilenameHeader b = Raise e ->
  CAFilename.from_buffer fuel b = Raise e.
Proof. intros H. unfold CAFilename.from_buffer. now apply bind_raise. Qed.

Lemma CAEntry_header_raise b :
  from_buffer CAEntryHeader b = Raise e -> CAEntry.from_buffer b = Raise e.
Proof. intros H. unfold CAEntry.from_buffer. now apply bind_raise. Qed.

Lemma CAArchive_entry_raise b :
  CAEntry.from_buffer b = Raise e -> CAArchive.from_buffer b = Raise e.
Proof. intros H. unfold CAArchive.from_buffer. now apply bind_raise. Qed.

Lemma CAFile_filename_raise fuel b :
  CAFilename.from_buffer fuel b = Raise e ->
  CAFile.from_bytes fuel b = Raise e.
Proof. intros H. unfold CAFile.from_bytes. now apply bind_raise. Qed.

Lemma CAFile_archive_raise fuel b fn b1 :
  CAFilename.from_buffer fuel b = Ok (Some fn, b1) ->
  CAArchive.from_buffer b1 = Raise e ->
  CAFile.from_bytes fuel b = Raise e.
Proof.
  intros H1 H2. unfold CAFile.from_bytes.
  rewrite (bind_ok _ _ _ _ _ H1). now apply bind_raise.
Qed.

Lemma CAFile_payload_raise fuel b fn b1 a b2 :
  CAFilename.from_buffer fuel b = Ok (Some fn, b1) ->
  CAArchive.from_buffer b1 = Ok (a, b2) ->
  from_buffer CAPayloadHeader b2 = Raise e ->
  CAFile.from_bytes fuel b = Raise e.
Proof.
  intros H1 H2 H3. unfold CAFile.from_bytes.
  rewrite (bind_ok _ _ _ _ _ H1), (bind_ok _ _ _ _ _ H2).
  now apply bind_raise.
Qed.

Lemma files_loop_raise fuel n files b :
  CAFile.from_bytes fuel b = Raise e ->
  CATar.files_loop fuel (S n) files b = Raise e.
Proof. intros H. simpl. now apply bind_raise. Qed.

Lemma CATar_archive_raise fuel b :
  CAArchive.from_buffer b = Raise e -> CATar.from_bytes fuel b = Raise e.
Proof. intros H. unfold CATar.from_bytes. now apply bind_raise. Qed.

Lemma CATar_files_raise fuel b a b1 :
  CAArchive.from_buffer b = Ok (a, b1) ->
  CATar.files_loop fuel fuel [] b1 = Raise e ->
  CATar.from_bytes fuel b = Raise e.
Proof.
  intros H1 H2. unfold CATar.from_bytes.
  rewrite (bind_ok _ _ _ _ _ H1). now apply bind_raise.
Qed.

End Propagation.

(** ** Fields *)

Lemma advance_advance n m b : advance m (advance n b) = advance (n + m) b.
Proof. unfold advance. simpl. f_equal. lia. Qed.

Lemma advance_0 b : advance 0 b = b.
Proof. destruct b as [d p]. unfold advance. simpl. f_equal. lia. Qed.

Lemma unpack_fields_from n : forall k data,
  unpack_fields n (skipn (8 * k) data) =
  map (fun i => u64_at i data) (seq k n).
Proof.
  induction n as [| n IH]; intros k data; cbn [unpack_fields map seq];
    [reflexivity |].
  f_equal.
  rewrite skipn_skipn.
  replace (8 + 8 * k)%nat with (8 * S k)%nat by lia.
  apply IH.
Qed.

Lemma unpack_fields_u64_at n data :
  unpack_fields n data = map (fun i => u64_at i data) (seq 0 n).
Proof. exact (unpack_fields_from n 0 data). Qed.

Lemma struct_unpack_Q_exact n data :
  List.length data = (8 * n)%nat ->
  struct_unpack_Q n data = Ok (map (fun i => u64_at i data) (seq 0 n)).
Proof.
  intros H. unfold struct_unpack_Q. rewrite H, Nat.eqb_refl.
  now rewrite unpack_fields_u64_at.
Qed.

Lemma struct_unpack_Q_wrong n data :
  List.length data <> (8 * n)%nat ->
  struct_unpack_Q n data = Raise struct_error.
Proof.
  intros H. unfold struct_unpack_Q.
  destruct (Nat.eqb_spec (List.length data) (8 * n)); [contradiction |].
  reflexivity.
Qed.

(** Reading [8 * n] bytes and unpacking them as [n] fields. *)
Lemma read_unpack {B} n (k : list Z -> M B) b :
  fits_ssize (Z.of_nat (8 * n)) = true ->
  (data <- read (Z.of_nat (8 * n)) ;;
   fields <- lift (struct_unpack_Q n data) ;;
   k fields) b =
  if (available b <? 8 * n)%nat then Raise struct_error
  else k (map (fun i => u64_at i (peek (8 * n) b)) (seq 0 n))
         (advance (8 * n) b).
Proof.
  intros Hfit.
  destruct (Nat.ltb_spec (available b) (8 * n)) as [Hs | Hl].
  - rewrite (bind_ok _ _ _ _ _ (read_short _ b Hs Hfit)).
    unfold bind, lift. rewrite struct_unpack_Q_wrong; [reflexivity |].
    unfold available in Hs. lia.
  - rewrite (bind_ok _ _ _ _ _ (read_full _ b Hl Hfit)).
    unfold bind, lift. rewrite struct_unpack_Q_exact; [reflexivity |].
    now apply length_peek.
Qed.

(** ** Entries and the index preamble *)

Lemma CAEntry_from_buffer_eq b h b1 :
  from_buffer CAEntryHeader b = Ok (h, b1) ->
  CAEntry.from_buffer b =
  if (available b1 <? 48)%nat then Raise struct_error
  else let md := peek 48 b1 in
       Ok (CAEntry.mk h (u64_at 0 md) (u64_at 1 md) (u64_at 2 md)
                      (u64_at 3 md) (u64_at 4 md) (u64_at 5 md),
           advance 48 b1).
Proof.
  intros H. unfold CAEntry.from_buffer.
  rewrite (bind_ok _ _ _ _ _ H).
  change (8 * 6) with (Z.of_nat (8 * 6)).
  rewrite read_unpack by reflexivity. reflexivity.
Qed.

Lemma CaFormatIndex_from_buffer_eq b h b1 :
  from_buffer CAIndexHeader b = Ok (h, b1) ->
  CaFormatIndex.from_buffer b =
  if (available b1 <? 32)%nat then Raise struct_error
  else let p := peek 32 b1 in
       Ok (CaFormatIndex.mk h (u64_at 0 p) (u64_at 1 p) (u64_at 2 p)
                            (u64_at 3 p),
           advance 32 b1).
Proof.
  intros H. unfold CaFormatIndex.from_buffer.
  rewrite (bind_ok _ _ _ _ _ H).
  unfold CA_HEADER_LEN. change 32 with (Z.of_nat (8 * 4)).
  rewrite read_unpack by reflexivity. reflexivity.
Qed.

(** ** The chunk table *)

Lemma CAChunk_from_buffer_full last b :
  (40 <= available b)%nat ->
  CAChunk.from_buffer last b =
  Ok (CAChunk.mk (peek 32 (advance 8 b)) last (le_uint (peek 8 b) - last),
      advance 40 b).
Proof.
  intros H. unfold CAChunk.from_buffer.
  assert (H32 : (32 <= available (advance 8 b))%nat)
    by (rewrite available_advance; lia).
  change 8 with (Z.of_nat (8 * 1)).
  rewrite read_unpack by reflexivity.
  destruct (Nat.ltb_spec (available b) (8 * 1)); [lia |].
  cbn [seq map]. change 32 with (Z.of_nat 32).
  rewrite (bind_ok _ _ _ _ _ (read_full 32 _ H32 eq_refl)).
  unfold ret. rewrite advance_advance.
  unfold u64_at. cbn [Nat.mul Nat.add skipn]. unfold peek at 2.
  rewrite firstn_firstn. reflexivity.
Qed.

Lemma chunk_loop_spec b : forall n k acc,
  (40 * (k + n) <= available b)%nat ->
  CAIndex.chunk_loop n (running_offset b k) acc (advance (40 * k) b) =
  Ok (acc ++ map (chunk_of b) (seq k n), advance (40 * (k + n)) b).
Proof.
  induction n as [| n IH]; intros k acc H.
  - cbn [CAIndex.chunk_loop seq map]. unfold ret.
    rewrite app_nil_r. do 3 f_equal. lia.
  - cbn [CAIndex.chunk_loop seq map].
    assert (H40 : (40 <= available (advance (40 * k) b))%nat)
      by (rewrite available_advance; lia).
    rewrite (bind_ok _ _ _ _ _
               (CAChunk_from_buffer_full (running_offset b k) _ H40)).
    rewrite !advance_advance. cbn [CAChunk.length].
    replace (running_offset b k + (le_uint (peek 8 (advance (40 * k) b))
                                   - running_offset b k))
      with (running_offset b (S k))
      by (cbn [running_offset]; unfold entry_offset; lia).
    replace (40 * k + 40)%nat with (40 * S k)%nat by lia.
    rewrite IH by lia.
    rewrite <- app_assoc. cbn [app].
    replace (S k + n)%nat with (k + S n)%nat by lia.
    reflexivity.
Qed.

(** ** Index decoding *)

Lemma available_rewind b :
  available (rewind b) = List.length (BytesIO.buf b).
Proof. reflexivity. Qed.

Lemma CaFormatIndex_ok_inv b idx b1 :
  CaFormatIndex.from_buffer b = Ok (idx, b1) ->
  (48 <= available b)%nat /\ b1 = advance 48 b.
Proof.
  intros H.
  destruct (from_buffer CAIndexHeader b) as [[h c] | e |] eqn:Hh.
  - rewrite (CaFormatIndex_from_buffer_eq _ _ _ Hh) in H.
    apply header_ok_inv in Hh. destruct Hh as (H16 & -> & _).
    destruct (Nat.ltb_spec (available (advance 16 b)) 32) as [Hs | Hl];
      [discriminate |].
    rewrite available_advance in Hl by lia.
    injection H as _ <-. rewrite advance_advance. split; [lia | reflexivity].
  - rewrite (CaFormatIndex_header_raise _ _ Hh) in H. discriminate.
  - unfold CaFormatIndex.from_buffer in H.
    rewrite (bind_out_of_fuel _ _ _ Hh) in H. discriminate.
Qed.

Lemma num_chunks_fit b :
  (64 <= List.length (BytesIO.buf b))%nat ->
  (40 * Z.to_nat (num_chunks b) <= available (table_start b))%nat.
Proof.
  intros H. unfold table_start.
  rewrite available_advance by (rewrite available_rewind; lia).
  rewrite available_rewind.
  unfold num_chunks, CA_HEADER_LEN, CA_TABLE_MIN_LEN, CA_TABLE_HEADER_LEN,
    CA_TABLE_ENTRY_LEN.
  set (L := List.length (BytesIO.buf b)) in *.
  destruct (Z_lt_le_dec (Z.of_nat L - 32 - (16 + 40)) 0) as [Hn | Hp].
  - assert ((Z.of_nat L - 32 - (16 + 40)) / 40 < 0)
      by (apply Z.div_lt_upper_bound; lia).
    lia.
  - pose proof (Z.mul_div_le (Z.of_nat L - 32 - (16 + 40)) 40 ltac:(lia)).
    assert (0 <= (Z.of_nat L - 32 - (16 + 40)) / 40)
      by (apply Z.div_pos; lia).
    lia.
Qed.

(** Index decoding reads both headers and then exactly the entries the
    length formula counts; none of these reads can come up short. *)
Lemma CAIndex_ok_inv b idx b' :
  CAIndex.from_buffer b = Ok (idx, b') ->
  (64 <= List.length (BytesIO.buf b))%nat /\
  CAIndex.chunks idx =
    map (chunk_of (table_start b)) (seq 0 (Z.to_nat (num_chunks b))) /\
  b' = advance (40 * Z.to_nat (num_chunks b)) (table_start b).
Proof.
  rewrite CAIndex_from_buffer_eq. intros H.
  apply bind_inv in H. destruct H as (i & b1 & Hi & H).
  apply bind_inv in H. destruct H as (h & b2 & Hh & H).
  apply CaFormatIndex_ok_inv in Hi. destruct Hi as (H48 & ->).
  apply header_ok_inv in Hh. destruct Hh as (H16 & -> & _).
  rewrite available_advance in H16 by lia.
  rewrite available_rewind in H48, H16.
  assert (HL : (64 <= List.length (BytesIO.buf b))%nat) by lia.
  rewrite advance_advance in H. change (48 + 16)%nat with 64%nat in H.
  fold (table_start b) in H. fold (num_chunks b) in H.
  pose proof (chunk_loop_spec (table_start b) (Z.to_nat (num_chunks b)) 0 []
                ltac:(pose proof (num_chunks_fit b HL); lia)) as L.
  cbn [running_offset Nat.mul Nat.add app] in L.
  rewrite advance_0 in L.
  rewrite (bind_ok _ _ _ _ _ L) in H. unfold ret in H.
  injection H as <- <-. cbn [CAIndex.chunks]. auto.
Qed.

(** Enough for the index decoder to accept: 64 bytes and, in both header
    positions, the expected magic or the goodbye magic. *)
Lemma CAIndex_accepts b :
  (64 <= List.length (BytesIO.buf b))%nat ->
  header_magic (rewind b) = CA_FORMAT_INDEX \/
  header_magic (rewind b) = CA_FORMAT_GOODBYE ->
  header_magic (advance 48 (rewind b)) = CA_FORMAT_TABLE \/
  header_magic (advance 48 (rewind b)) = CA_FORMAT_GOODBYE ->
  CAIndex.from_buffer b =
  Ok (CAIndex.mk
        (map (chunk_of (table_start b)) (seq 0 (Z.to_nat (num_chunks b)))),
      advance (40 * Z.to_nat (num_chunks b)) (table_start b)).
Proof.
  intros HL Hi Ht. rewrite CAIndex_from_buffer_eq.
  assert (exists h, from_buffer CAIndexHeader (rewind b)
                    = Ok (h, advance 16 (rewind b))) as [h Hh].
  { unfold CAIndexHeader. rewrite header_from_buffer_eq.
    rewrite available_rewind.
    destruct (Nat.ltb_spec (List.length (BytesIO.buf b)) 16); [lia |].
    destruct Hi as [-> | ->]; cbn; eauto. }
  assert (exists i, CaFormatIndex.from_buffer (rewind b)
                    = Ok (i, advance 48 (rewind b))) as [i Hidx].
  { rewrite (CaFormatIndex_from_buffer_eq _ _ _ Hh).
    rewrite available_advance by (rewrite available_rewind; lia).
    rewrite available_rewind.
    destruct (Nat.ltb_spec (List.length (BytesIO.buf b) - 16) 32); [lia |].
    cbv zeta. rewrite advance_advance. eauto. }
  rewrite (bind_ok _ _ _ _ _ Hidx).
  assert (exists h', from_buffer CATableHeader (advance 48 (rewind b))
                     = Ok (h', advance 16 (advance 48 (rewind b)))) as [h' Hh'].
  { unfold CATableHeader. rewrite header_from_buffer_eq.
    rewrite available_advance by (rewrite available_rewind; lia).
    rewrite available_rewind.
    destruct (Nat.ltb_spec (List.length (BytesIO.buf b) - 48) 16); [lia |].
    destruct Ht as [-> | ->]; cbn; eauto. }
  rewrite (bind_ok _ _ _ _ _ Hh').
  rewrite advance_advance. change (48 + 16)%nat with 64%nat.
  fold (table_start b). fold (num_chunks b).
  pose proof (chunk_loop_spec (table_start b) (Z.to_nat (num_chunks b)) 0 []
                ltac:(pose proof (num_chunks_fit b HL); lia)) as L.
  cbn [running_offset Nat.mul Nat.add app] in L.
  rewrite advance_0 in L.
  rewrite (bind_ok _ _ _ _ _ L). reflexivity.
Qed.

Lemma nth_error_chunks t n i c :
  nth_error (map (chunk_of t) (seq 0 n)) i = Some c ->
  (i < n)%nat /\ c = chunk_of t i.
Proof.
  intros H.
  assert (Hi : (i < n)%nat).
  { assert (Hl : (i < List.length (map (chunk_of t) (seq 0 n)))%nat)
      by (apply nth_error_Some; congruence).
    now rewrite length_map, length_seq in Hl. }
  split; [exact Hi |].
  rewrite nth_error_map, nth_error_seq in H.
  destruct (Nat.ltb_spec i n); [| lia].
  cbn in H. congruence.
Qed.

Lemma total_length_chunks t : forall n k,
  total_length (map (chunk_of t) (seq k n)) =
  running_offset t (k + n) - running_offset t k.
Proof.
  induction n as [| n IH]; intros k.
  - cbn [seq map]. unfold total_length. cbn [fold_right].
    rewrite Nat.add_0_r. lia.
  - cbn [seq map]. unfold total_length. cbn [fold_right]. fold (total_length (map (chunk_of t) (seq (S k) n))).
    rewrite IH. cbn [chunk_of CAChunk.length running_offset].
    replace (k + S n)%nat with (S k + n)%nat by lia.
    cbn [running_offset]. lia.
Qed.

(** ** File names *)

Lemma bytes_eqb_nul c : bytes_eqb [c] [x00] = true <-> c = x00.
Proof.
  cbn [bytes_eqb]. rewrite andb_true_r. split.
  - apply byte_dec_bl.
  - apply byte_dec_lb.
Qed.

Lemma read_1 b c rest :
  BytesIO.remaining b = c :: rest ->
  read 1 b = Ok ([c], advance 1 b) /\ BytesIO.remaining (advance 1 b) = rest.
Proof.
  intros E. split.
  - change 1 with (Z.of_nat 1). rewrite read_full.
    + unfold peek. rewrite E. reflexivity.
    + unfold available. rewrite E. cbn. lia.
    + reflexivity.
  - rewrite remaining_advance, E. reflexivity.
Qed.

(** The loop on a name of [K] bytes: either a terminator follows them and is
    consumed, or they fill the name up to the cap and nothing more is read. *)
Lemma name_loop_spec : forall K fuel acc b,
  ~ In x00 (peek K b) ->
  (K <= available b)%nat ->
  (List.length acc + K = 256)%nat \/
  ((List.length acc + K < 256)%nat /\
   nth_error (BytesIO.remaining b) K = Some x00) ->
  (K < fuel)%nat ->
  CAFilename.name_loop fuel acc b =
  Ok (acc ++ peek K b,
      advance (if (List.length acc + K <? 256)%nat then S K else K) b).
Proof.
  induction K as [| K IH]; intros fuel acc b Hnz Hav Hend Hfuel;
    (destruct fuel as [| fuel]; [lia |]); cbn [CAFilename.name_loop];
    unfold CA_MAX_FILENAME_SIZE.
  - rewrite Nat.add_0_r in *. unfold peek. cbn [firstn]. rewrite app_nil_r.
    destruct Hend as [Hcap | [Hlt Hz]].
    + destruct (Z.ltb_spec (Z.of_nat (List.length acc)) 256); [lia |].
      destruct (Nat.ltb_spec (List.length acc) 256); [lia |].
      unfold ret. now rewrite advance_0.
    + destruct (Z.ltb_spec (Z.of_nat (List.length acc)) 256); [| lia].
      destruct (Nat.ltb_spec (List.length acc) 256); [| lia].
      destruct (BytesIO.remaining b) as [| c rest] eqn:E; [discriminate |].
      cbn in Hz. injection Hz as ->.
      destruct (read_1 _ _ _ E) as [R _].
      rewrite (bind_ok _ _ _ _ _ R).
      now rewrite (proj2 (bytes_eqb_nul x00) eq_refl).
  - destruct (Z.ltb_spec (Z.of_nat (List.length acc)) 256); [| lia].
    destruct (BytesIO.remaining b) as [| c rest] eqn:E.
    { unfold available in Hav. rewrite E in Hav. cbn in Hav. lia. }
    destruct (read_1 _ _ _ E) as [R Erest].
    rewrite (bind_ok _ _ _ _ _ R).
    unfold peek in Hnz |- *. rewrite E in Hnz |- *. cbn [firstn] in Hnz |- *.
    assert (Hc : c <> x00) by (intros ->; apply Hnz; now left).
    destruct (bytes_eqb [c] [x00]) eqn:Eq;
      [apply bytes_eqb_nul in Eq; contradiction |].
    rewrite IH.
    + unfold peek. rewrite Erest, <- app_assoc. cbn [app].
      rewrite advance_advance, length_app. cbn [List.length].
      replace (List.length acc + 1 + K)%nat
        with (List.length acc + S K)%nat by lia.
      destruct (List.length acc + S K <? 256)%nat; reflexivity.
    + unfold peek. rewrite Erest. intros Hin. apply Hnz. now right.
    + unfold available in *. rewrite Erest. rewrite E in Hav. cbn in Hav. lia.
    + rewrite length_app. cbn [List.length]. rewrite Erest.
      destruct Hend as [Hcap | [Hlt Hz]]; [left; lia | right].
      split; [lia |]. exact Hz.
    + lia.
Qed.

(** At the end of the buffer the loop makes no progress: [b.read(1)] is
    empty, the name does not grow, the condition stays true. *)
Lemma name_loop_at_end acc b :
  available b = 0%nat -> (List.length acc < 256)%nat ->
  forall fuel, CAFilename.name_loop fuel acc b = OutOfFuel.
Proof.
  intros Hend Hlen fuel. induction fuel as [| fuel IH]; [reflexivity |].
  cbn [CAFilename.name_loop]. unfold CA_MAX_FILENAME_SIZE.
  destruct (Z.ltb_spec (Z.of_nat (List.length acc)) 256); [| lia].
  change 1 with (Z.of_nat 1).
  rewrite (bind_ok _ _ _ _ _ (read_short 1 b ltac:(lia) eq_refl)).
  assert (E : BytesIO.remaining b = []).
  { unfold available in Hend. now apply length_zero_iff_nil. }
  rewrite E, Hend, advance_0, app_nil_r. cbn [bytes_eqb]. exact IH.
Qed.

(** ** Joining the chunks *)

Section Joining.

Context {R : Type}.
Variable chunk_reader_read : R -> CAChunk.t -> result bytes * R.

Lemma read_chunks_ok : forall chunks r parts r',
  read_chunks chunk_reader_read r chunks = (Ok parts, r') <->
  reads chunk_reader_read r chunks parts r'.
Proof.
  induction chunks as [| c rest IH]; intros r parts r'; cbn [read_chunks].
  - split.
    + intros [= <- <-]. constructor.
    + intros H. inversion H. reflexivity.
  - destruct (chunk_reader_read r c) as [[part | e |] r1] eqn:E.
    + destruct (read_chunks chunk_reader_read r1 rest)
        as [[ps | e |] r2] eqn:E2.
      * split.
        -- intros [= <- <-]. econstructor; [exact E |]. now apply IH.
        -- intros H. inversion H; subst.
           match goal with
           | H1 : chunk_reader_read r c = _ |- _ =>
               rewrite E in H1; injection H1 as <- <-
           end.
           match goal with
           | H2 : reads _ _ _ _ _ |- _ =>
               apply IH in H2; rewrite E2 in H2; injection H2 as <- <-
           end.
           reflexivity.
      * split; [discriminate |].
        intros H. inversion H; subst.
        match goal with
        | H1 : chunk_reader_read r c = _ |- _ =>
            rewrite E in H1; injection H1 as <- <-
        end.
        match goal with
        | H2 : reads _ _ _ _ _ |- _ =>
            apply IH in H2; rewrite E2 in H2; discriminate
        end.
      * split; [discriminate |].
        intros H. inversion H; subst.
        match goal with
        | H1 : chunk_reader_read r c = _ |- _ =>
            rewrite E in H1; injection H1 as <- <-
        end.
        match goal with
        | H2 : reads _ _ _ _ _ |- _ =>
            apply IH in H2; rewrite E2 in H2; discriminate
        end.
    + split; [discriminate |].
      intros H. inversion H; subst. congruence.
    + split; [discriminate |].
      intros H. inversion H; subst. congruence.
Qed.

(** The log of the instrumented reader grows by the chunks asked for: a
    prefix of the table, all of it when every read succeeds. *)
Lemma read_chunks_logged : forall chunks log r res log' r',
  read_chunks (logged chunk_reader_read) (log, r) chunks
  = (res, (log', r')) ->
  read_chunks chunk_reader_read r chunks = (res, r') /\
  exists asked rest,
    log' = log ++ asked /\ chunks = asked ++ rest /\
    (forall parts, res = Ok parts -> rest = []).
Proof.
  induction chunks as [| c cs IH]; intros log r res log' r';
    cbn [read_chunks].
  - intros [= <- <- <-]. split; [reflexivity |].
    exists [], []. rewrite app_nil_r. auto.
  - unfold logged at 1. cbn [fst snd].
    destruct (chunk_reader_read r c) as [[part | e |] r1] eqn:E.
    + destruct (read_chunks (logged chunk_reader_read) (log ++ [c], r1) cs)
        as [res2 [log2 r2]] eqn:E2.
      apply IH in E2. destruct E2 as (E2 & asked & rest & -> & -> & Hall).
      rewrite E2.
      assert (Hlog : (log ++ [c]) ++ asked = log ++ c :: asked)
        by now rewrite <- app_assoc.
      destruct res2 as [ps | e |]; intros [= <- <- <-];
        (split; [reflexivity |]);
        exists (c :: asked), rest;
        (split; [exact Hlog |]); (split; [reflexivity |]).
      * intros parts _. now apply (Hall ps).
      * discriminate.
      * discriminate.
    + intros [= <- <- <-]. split; [reflexivity |].
      exists [c], cs. repeat split; discriminate.
    + intros [= <- <- <-]. split; [reflexivity |].
      exists [c], cs. repeat split; discriminate.
Qed.

Lemma reads_lengths : forall r chunks parts r',
  reads chunk_reader_read r chunks parts r' ->
  (forall s c part s',
      In c chunks ->
      chunk_reader_read s c = (Ok part, s') ->
      Z.of_nat (List.length part) = CAChunk.length c) ->
  Z.of_nat (List.length (List.concat parts)) = total_length chunks.
Proof.
  intros r chunks parts r' H.
  induction H as [r | r c part r1 rest parts r2 Hc Hr IH]; intros Hexact;
    [reflexivity |].
  cbn [List.concat]. rewrite length_app, Nat2Z.inj_add, IH.
  - rewrite (Hexact _ _ _ _ (or_introl eq_refl) Hc). reflexivity.
  - intros s c' p s' Hin. apply Hexact. now right.
Qed.

End Joining.

(** ** The parsers only move the cursor *)

Lemma keeps_ret {A} (a : A) : keeps_buffer (ret a).
Proof. intros b a' b' [= _ <-]. reflexivity. Qed.

Lemma keeps_raise {A} e : keeps_buffer (@raise A e).
Proof. intros b a b' H. discriminate. Qed.

Lemma keeps_out_of_fuel {A} : keeps_buffer (@out_of_fuel A).
Proof. intros b a b' H. discriminate. Qed.

Lemma keeps_lift {A} (r : result A) : keeps_buffer (lift r).
Proof.
  intros b a b'. unfold lift. destruct r; try discriminate.
  intros [= _ <-]. reflexivity.
Qed.

Lemma keeps_read n : keeps_buffer (read n).
Proof.
  intros b a b'. unfold read. destruct (fits_ssize n); [| discriminate].
  intros [= _ <-]. reflexivity.
Qed.

Lemma keeps_bind {A B} (m : M A) (k : A -> M B) :
  keeps_buffer m -> (forall a, keeps_buffer (k a)) -> keeps_buffer (bind m k).
Proof.
  intros Hm Hk b r b2 H. apply bind_inv in H.
  destruct H as (a & b1 & H1 & H2).
  rewrite (Hk _ _ _ _ H2). exact (Hm _ _ _ H1).
Qed.

Create HintDb keeps.

#[local] Hint Resolve keeps_ret keeps_raise keeps_out_of_fuel keeps_lift
  keeps_read : keeps.

Ltac keeps :=
  repeat first
    [ apply keeps_bind; [| intros ?]
    | solve [auto with keeps]
    | match goal with
      | |- keeps_buffer (match ?x with _ => _ end) => destruct x
      | |- keeps_buffer (if ?x then _ else _) => destruct x
      end ].

Lemma keeps_header MAGIC :
  keeps_buffer (from_buffer (create_header_with_type MAGIC)).
Proof. unfold create_header_with_type, from_buffer. keeps. Qed.

#[local] Hint Resolve keeps_header : keeps.

Lemma keeps_name_loop fuel : forall acc,
  keeps_buffer (CAFilename.name_loop fuel acc).
Proof.
  induction fuel as [| fuel IH]; intros acc; cbn [CAFilename.name_loop].
  - keeps.
  - destruct (Z.of_nat (List.length acc) <? CA_MAX_FILENAME_SIZE);
      [| keeps].
    apply keeps_bind; [keeps |]. intros c.
    destruct (bytes_eqb c [x00]); [keeps | apply IH].
Qed.

#[local] Hint Resolve keeps_name_loop : keeps.

Lemma keeps_CAFilename fuel : keeps_buffer (CAFilename.from_buffer fuel).
Proof.
  unfold CAFilename.from_buffer.
  apply keeps_bind; [apply keeps_header | intros h].
  destruct h; keeps.
Qed.

Lemma keeps_CAEntry : keeps_buffer CAEntry.from_buffer.
Proof.
  unfold CAEntry.from_buffer.
  apply keeps_bind; [apply keeps_header | intros h]. keeps.
Qed.

Lemma keeps_CAArchive : keeps_buffer CAArchive.from_buffer.
Proof.
  unfold CAArchive.from_buffer.
  apply keeps_bind; [apply keeps_CAEntry | intros h]. keeps.
Qed.

#[local] Hint Resolve keeps_CAFilename keeps_CAEntry keeps_CAArchive : keeps.

Lemma keeps_CAFile fuel : keeps_buffer (CAFile.from_bytes fuel).
Proof.
  unfold CAFile.from_bytes, CAFile.payload_size.
  apply keeps_bind; [apply keeps_CAFilename | intros fn].
  destruct fn; [| keeps].
  apply keeps_bind; [apply keeps_CAArchive | intros a].
  apply keeps_bind; [apply keeps_header | intros p].
  keeps.
Qed.

(** ** File records *)

(** A read that leaves something in the buffer returned all it was asked
    for. *)
Lemma read_inside n b d b' :
  read n b = Ok (d, b') -> (0 < available b')%nat ->
  0 <= n /\ Z.of_nat (List.length d) = n /\ d = peek (Z.to_nat n) b.
Proof.
  intros H Hrest. rewrite read_eq in H.
  destruct (fits_ssize n); [| discriminate]. injection H as <- <-.
  destruct (Z.ltb_spec n 0) as [Hneg | Hpos].
  - rewrite available_advance in Hrest by lia. lia.
  - destruct (Nat.le_gt_cases (Z.to_nat n) (available b)) as [Hl | Hs].
    + unfold available in Hl. unfold peek.
      rewrite length_firstn, Nat.min_l by exact Hl.
      rewrite Z2Nat.id by lia. auto.
    + rewrite Nat.min_r in Hrest by lia.
      rewrite available_advance in Hrest by lia. lia.
Qed.

Lemma CAFile_ok_inv fuel b file b' :
  CAFile.from_bytes fuel b = Ok (Some file, b') ->
  exists b1 a b2 p b3,
    CAFilename.from_buffer fuel b = Ok (Some (CAFile.filename file), b1) /\
    CAArchive.from_buffer b1 = Ok (a, b2) /\
    from_buffer CAPayloadHeader b2 = Ok (Some p, b3) /\
    read (CAFormatHeader.size p - 16) b3 = Ok (CAFile.data file, b').
Proof.
  unfold CAFile.from_bytes. intros H.
  apply bind_inv in H. destruct H as (fn & b1 & Hfn & H).
  destruct fn as [fn |]; [| discriminate].
  apply bind_inv in H. destruct H as (a & b2 & Ha & H).
  apply bind_inv in H. destruct H as (p & b3 & Hp & H).
  apply bind_inv in H. destruct H as (size & b4 & Hs & H).
  destruct p as [p |]; [| discriminate].
  cbn in Hs. injection Hs as <- <-.
  apply bind_inv in H. destruct H as (data & b5 & Hd & H).
  injection H as <- <-. cbn [CAFile.filename CAFile.data].
  exists b1, a, b2, p, b3. auto.
Qed.

(** After the filename, the entry and the payload header, the outcome of
    [CAFile.from_bytes] is that of the one read that follows. *)
Lemma CAFile_from_payload fuel b filename b1 a b2 p b3 :
  CAFilename.from_buffer fuel b = Ok (Some filename, b1) ->
  CAArchive.from_buffer b1 = Ok (a, b2) ->
  from_buffer CAPayloadHeader b2 = Ok (Some p, b3) ->
  CAFile.from_bytes fuel b
  = match read (CAFormatHeader.size p - 16) b3 with
    | Ok (data, b') => Ok (Some (CAFile.mk filename data), b')
    | Raise e => Raise e
    | OutOfFuel => OutOfFuel
    end.
Proof.
  intros Hfn Ha Hp. unfold CAFile.from_bytes.
  rewrite (bind_ok _ _ _ _ _ Hfn), (bind_ok _ _ _ _ _ Ha),
    (bind_ok _ _ _ _ _ Hp).
  unfold CAFile.payload_size.
  rewrite (bind_ok _ _ _ _ _ (eq_refl : ret _ _ = Ok (_, _))).
  unfold bind.
  destruct (read (CAFormatHeader.size p - 16) b3) as [[d b'] | e |];
    reflexivity.
Qed.

(** The loop can only end well on a filename header, so it never starts an
    iteration at the end of the buffer. *)
Lemma files_loop_ok_available fuel n files b files' b' :
  CATar.files_loop fuel n files b = Ok (files', b') ->
  (16 <= available b)%nat.
Proof.
  destruct n as [| n]; [discriminate |]. cbn [CATar.files_loop].
  intros H. apply bind_inv in H. destruct H as (f & b1 & Hf & _).
  unfold CAFile.from_bytes in Hf.
  apply bind_inv in Hf. destruct Hf as (fn & b2 & Hfn & _).
  unfold CAFilename.from_buffer in Hfn.
  apply bind_inv in Hfn. destruct Hfn as (h & b3 & Hh & _).
  now apply header_ok_inv in Hh.
Qed.

Lemma files_loop_inv fuel : forall n files b files' b',
  CATar.files_loop fuel n files b = Ok (files', b') ->
  exists new,
    files' = files ++ new /\
    Forall (fun file => exists b0,
                BytesIO.buf b0 = BytesIO.buf b /\ payload_exact fuel b0 file)
           new.
Proof.
  induction n as [| n IH]; intros files b files' b' H; [discriminate |].
  cbn [CATar.files_loop] in H.
  apply bind_inv in H. destruct H as (f & b1 & Hf & H).
  destruct f as [file |].
  - pose proof (files_loop_ok_available _ _ _ _ _ _ H) as Hav.
    pose proof (keeps_CAFile _ _ _ _ Hf) as Hbuf.
    apply IH in H. destruct H as (new & -> & Hnew).
    exists (file :: new). rewrite <- app_assoc. split; [reflexivity |].
    constructor.
    + exists b. split; [reflexivity |].
      apply CAFile_ok_inv in Hf.
      destruct Hf as (c1 & a & c2 & p & c3 & Hfn & Ha & Hp & Hd).
      apply read_inside in Hd; [| lia].
      destruct Hd as (_ & Hlen & Hdata).
      exists c1, a, c2, p, c3. auto 6.
    + eapply Forall_impl; [| exact Hnew].
      intros f' (b0 & Hb0 & Hex). exists b0. split; [congruence | exact Hex].
  - injection H as <- <-. exists []. rewrite app_nil_r. auto.
Qed.

Lemma header_raise_aborts MAGIC b e :
  from_buffer (create_header_with_type MAGIC) b = Raise e ->
  aborts_enclosing MAGIC b e.
Proof.
  intros H. unfold aborts_enclosing. repeat split.
  - subst MAGIC. now apply CaFormatIndex_header_raise.
  - intros b0 <-. subst MAGIC.
    now apply CAIndex_index_raise, CaFormatIndex_header_raise.
  - intros -> b0 idx Hidx. exact (CAIndex_table_raise _ _ _ _ Hidx H).
  - subst MAGIC. now apply CAFilename_header_raise.
  - subst MAGIC. now apply CAFile_filename_raise, CAFilename_header_raise.
  - subst MAGIC. intros n files.
    now apply files_loop_raise, CAFile_filename_raise,
      CAFilename_header_raise.
  - subst MAGIC. intros b0 a Ha.
    apply (CATar_files_raise _ _ _ _ _ Ha).
    now apply files_loop_raise, CAFile_filename_raise,
      CAFilename_header_raise.
  - subst MAGIC. now apply CAEntry_header_raise.
  - subst MAGIC. now apply CAArchive_entry_raise, CAEntry_header_raise.
  - subst MAGIC.
    now apply CATar_archive_raise, CAArchive_entry_raise,
      CAEntry_header_raise.
  - subst MAGIC.
    eapply CAFile_archive_raise; [eassumption |].
    now apply CAArchive_entry_raise, CAEntry_header_raise.
  - subst MAGIC. intros n files.
    apply files_loop_raise.
    eapply CAFile_archive_raise; [eassumption |].
    now apply CAArchive_entry_raise, CAEntry_header_raise.
  - subst MAGIC. eapply CAFile_payload_raise; eassumption.
  - subst MAGIC. intros n files. apply files_loop_raise.
    eapply CAFile_payload_raise; eassumption.
Qed.

(** ** UTF-8: a decoded string encodes back to the bytes it came from *)

Lemma byte_val_range c : 0 <= byte_val c <= 255.
Proof.
  unfold byte_val. pose proof (Byte.to_N_bounded c). lia.
Qed.

Lemma byte_of_Z_val c : byte_of_Z (byte_val c) = c.
Proof.
  unfold byte_of_Z. pose proof (byte_val_range c).
  rewrite Z.mod_small by lia. unfold byte_val. rewrite N2Z.id.
  now rewrite Byte.of_to_N.
Qed.

Lemma in_range_spec lo hi c : in_range lo hi c = true <-> lo <= c <= hi.
Proof. unfold in_range. rewrite andb_true_iff, !Z.leb_le. reflexivity. Qed.

Lemma encode_2 b0 b1 :
  194 <= b0 <= 223 -> 128 <= b1 <= 191 ->
  utf8_encode_cp ((b0 - 0xC0) * 64 + (b1 - 0x80))
  = [byte_of_Z b0; byte_of_Z b1].
Proof.
  intros H0 H1. unfold utf8_encode_cp.
  set (cp := (b0 - 0xC0) * 64 + (b1 - 0x80)).
  assert (Hd : cp / 64 = b0 - 192) by (subst cp; Z.div_mod_to_equations; lia).
  assert (Hm : cp mod 64 = b1 - 128) by (subst cp; Z.div_mod_to_equations; lia).
  destruct (Z.ltb_spec cp 0x80); [subst cp; lia |].
  destruct (Z.ltb_spec cp 0x800); [| subst cp; lia].
  rewrite Hd, Hm. do 2 f_equal; f_equal; lia.
Qed.

Lemma second_of_3_spec b0 b1 :
  224 <= b0 <= 239 -> second_of_3 b0 b1 = true ->
  128 <= b1 <= 191 /\ (b0 = 224 -> 160 <= b1) /\ (b0 = 237 -> b1 <= 159).
Proof.
  unfold second_of_3, is_cont. intros H0.
  destruct (Z.eqb_spec b0 0xE0); [rewrite in_range_spec; lia |].
  destruct (Z.eqb_spec b0 0xED); rewrite in_range_spec; lia.
Qed.

Lemma second_of_4_spec b0 b1 :
  240 <= b0 <= 244 -> second_of_4 b0 b1 = true ->
  128 <= b1 <= 191 /\ (b0 = 240 -> 144 <= b1) /\ (b0 = 244 -> b1 <= 143).
Proof.
  unfold second_of_4, is_cont. intros H0.
  destruct (Z.eqb_spec b0 0xF0); [rewrite in_range_spec; lia |].
  destruct (Z.eqb_spec b0 0xF4); rewrite in_range_spec; lia.
Qed.

Lemma encode_3 b0 b1 b2 :
  224 <= b0 <= 239 -> 128 <= b1 <= 191 -> (b0 = 224 -> 160 <= b1) ->
  128 <= b2 <= 191 ->
  utf8_encode_cp ((b0 - 0xE0) * 4096 + (b1 - 0x80) * 64 + (b2 - 0x80))
  = [byte_of_Z b0; byte_of_Z b1; byte_of_Z b2].
Proof.
  intros H0 H1 H1' H2. unfold utf8_encode_cp.
  set (cp := (b0 - 0xE0) * 4096 + (b1 - 0x80) * 64 + (b2 - 0x80)).
  assert (Hd : cp / 4096 = b0 - 224) by (subst cp; Z.div_mod_to_equations; lia).
  assert (Hd2 : cp / 64 = (b0 - 224) * 64 + (b1 - 128))
    by (subst cp; Z.div_mod_to_equations; lia).
  assert (Hm : cp mod 64 = b2 - 128) by (subst cp; Z.div_mod_to_equations; lia).
  assert (Hm2 : (cp / 64) mod 64 = b1 - 128)
    by (rewrite Hd2; Z.div_mod_to_equations; lia).
  destruct (Z.ltb_spec cp 0x80); [subst cp; lia |].
  destruct (Z.ltb_spec cp 0x800); [subst cp; lia |].
  destruct (Z.ltb_spec cp 0x10000); [| subst cp; lia].
  rewrite Hd, Hm, Hm2. do 3 f_equal; f_equal; lia.
Qed.

Lemma encode_4 b0 b1 b2 b3 :
  240 <= b0 <= 244 -> 128 <= b1 <= 191 -> (b0 = 240 -> 144 <= b1) ->
  128 <= b2 <= 191 -> 128 <= b3 <= 191 ->
  utf8_encode_cp ((b0 - 0xF0) * 262144 + (b1 - 0x80) * 4096
                  + (b2 - 0x80) * 64 + (b3 - 0x80))
  = [byte_of_Z b0; byte_of_Z b1; byte_of_Z b2; byte_of_Z b3].
Proof.
  intros H0 H1 H1' H2 H3. unfold utf8_encode_cp.
  set (cp := (b0 - 0xF0) * 262144 + (b1 - 0x80) * 4096
             + (b2 - 0x80) * 64 + (b3 - 0x80)).
  assert (Hd : cp / 262144 = b0 - 240)
    by (subst cp; Z.div_mod_to_equations; lia).
  assert (Hd1 : cp / 4096 = (b0 - 240) * 64 + (b1 - 128))
    by (subst cp; Z.div_mod_to_equations; lia).
  assert (Hd2 : cp / 64 = (b0 - 240) * 4096 + (b1 - 128) * 64 + (b2 - 128))
    by (subst cp; Z.div_mod_to_equations; lia).
  assert (Hm : cp mod 64 = b3 - 128) by (subst cp; Z.div_mod_to_equations; lia).
  assert (Hm1 : (cp / 4096) mod 64 = b1 - 128)
    by (rewrite Hd1; Z.div_mod_to_equations; lia).
  assert (Hm2 : (cp / 64) mod 64 = b2 - 128)
    by (rewrite Hd2; Z.div_mod_to_equations; lia).
  destruct (Z.ltb_spec cp 0x80); [subst cp; lia |].
  destruct (Z.ltb_spec cp 0x800); [subst cp; lia |].
  destruct (Z.ltb_spec cp 0x10000); [subst cp; lia |].
  rewrite Hd, Hm, Hm1, Hm2. do 4 f_equal; f_equal; lia.
Qed.

Lemma utf8_round_trip_bounded : forall n data s,
  (List.length data <= n)%nat ->
  utf8_code_points data = Some s -> utf8_encode s = data.
Proof.
  induction n as [| n IH]; intros data s Hn H.
  - destruct data; [| cbn in Hn; lia]. cbn in H. injection H as <-. reflexivity.
  - destruct data as [| c0 r0]; [cbn in H; injection H as <-; reflexivity |].
    cbn [utf8_code_points] in H. cbn [List.length] in Hn.
    pose proof (byte_val_range c0) as R0.
    destruct (Z.ltb_spec (byte_val c0) 0x80) as [Ha | Ha].
    { destruct (utf8_code_points r0) as [s0 |] eqn:E0; [| discriminate].
      cbn in H. injection H as <-. cbn [utf8_encode flat_map].
      fold (utf8_encode s0). rewrite (IH r0 s0) by (auto; lia).
      unfold utf8_encode_cp.
      destruct (Z.ltb_spec (byte_val c0) 0x80); [| lia].
      cbn [app]. now rewrite byte_of_Z_val. }
    destruct (in_range 0xC2 0xDF (byte_val c0)) eqn:E2.
    { apply in_range_spec in E2.
      destruct r0 as [| c1 r1]; [discriminate |].
      destruct (is_cont (byte_val c1)) eqn:C1; [| discriminate].
      apply in_range_spec in C1.
      destruct (utf8_code_points r1) as [s1 |] eqn:E1; [| discriminate].
      cbn in H. injection H as <-. cbn [utf8_encode flat_map].
      fold (utf8_encode s1). rewrite (IH r1 s1) by (auto; cbn in Hn; lia).
      rewrite encode_2 by lia. cbn [app]. now rewrite !byte_of_Z_val. }
    destruct (in_range 0xE0 0xEF (byte_val c0)) eqn:E3.
    { apply in_range_spec in E3.
      destruct r0 as [| c1 [| c2 r2]]; try discriminate.
      destruct (second_of_3 (byte_val c0) (byte_val c1)) eqn:S1;
        [| discriminate].
      apply second_of_3_spec in S1; [| lia].
      destruct (is_cont (byte_val c2)) eqn:C2; [| discriminate].
      apply in_range_spec in C2. cbn [andb] in H.
      destruct (utf8_code_points r2) as [s2 |] eqn:E; [| discriminate].
      cbn in H. injection H as <-. cbn [utf8_encode flat_map].
      fold (utf8_encode s2). rewrite (IH r2 s2) by (auto; cbn in Hn; lia).
      rewrite encode_3 by lia. cbn [app]. now rewrite !byte_of_Z_val. }
    destruct (in_range 0xF0 0xF4 (byte_val c0)) eqn:E4; [| discriminate].
    apply in_range_spec in E4.
    destruct r0 as [| c1 [| c2 [| c3 r3]]]; try discriminate.
    destruct (second_of_4 (byte_val c0) (byte_val c1)) eqn:S1;
      [| discriminate].
    apply second_of_4_spec in S1; [| lia].
    destruct (is_cont (byte_val c2)) eqn:C2; [| discriminate].
    destruct (is_cont (byte_val c3)) eqn:C3; [| discriminate].
    apply in_range_spec in C2, C3. cbn [andb] in H.
    destruct (utf8_code_points r3) as [s3 |] eqn:E; [| discriminate].
    cbn in H. injection H as <-. cbn [utf8_encode flat_map].
    fold (utf8_encode s3). rewrite (IH r3 s3) by (auto; cbn in Hn; lia).
    rewrite encode_4 by lia. cbn [app]. now rewrite !byte_of_Z_val.
Qed.

Lemma utf8_round_trip data s :
  utf8_code_points data = Some s -> utf8_encode s = data.
Proof. apply (utf8_round_trip_bounded (List.length data)). lia. Qed.

(** ** More fuel never changes an outcome *)

Lemma bind_more_fuel {A B} (m m' : M A) (k k' : A -> M B) b :
  (settled (m b) -> m' b = m b) ->
  (forall a b1, settled (k a b1) -> k' a b1 = k a b1) ->
  settled (bind m k b) -> bind m' k' b = bind m k b.
Proof.
  unfold settled, bind. intros Hm Hk H.
  destruct (m b) as [[a b1] | e |] eqn:E.
  - rewrite Hm by discriminate. now apply Hk.
  - rewrite Hm by discriminate. reflexivity.
  - contradiction.
Qed.

Lemma name_loop_more_fuel : forall fuel fuel' acc b,
  (fuel <= fuel')%nat ->
  settled (CAFilename.name_loop fuel acc b) ->
  CAFilename.name_loop fuel' acc b = CAFilename.name_loop fuel acc b.
Proof.
  induction fuel as [| fuel IH]; intros fuel' acc b Hle H.
  - now contradiction H.
  - destruct fuel' as [| fuel']; [lia |].
    cbn [CAFilename.name_loop] in *.
    destruct (Z.of_nat (List.length acc) <? CA_MAX_FILENAME_SIZE);
      [| reflexivity].
    apply bind_more_fuel; [reflexivity | | exact H].
    intros c b1 Hc. destruct (bytes_eqb c [x00]); [reflexivity |].
    apply IH; [lia | exact Hc].
Qed.

Lemma CAFilename_more_fuel fuel fuel' b :
  (fuel <= fuel')%nat ->
  settled (CAFilename.from_buffer fuel b) ->
  CAFilename.from_buffer fuel' b = CAFilename.from_buffer fuel b.
Proof.
  intros Hle H. unfold CAFilename.from_buffer in *.
  apply bind_more_fuel; [reflexivity | | exact H].
  intros h b1 Hh. destruct h; [| reflexivity].
  apply bind_more_fuel; [| reflexivity | exact Hh].
  now apply name_loop_more_fuel.
Qed.

Lemma CAFile_more_fuel fuel fuel' b :
  (fuel <= fuel')%nat ->
  settled (CAFile.from_bytes fuel b) ->
  CAFile.from_bytes fuel' b = CAFile.from_bytes fuel b.
Proof.
  intros Hle H. unfold CAFile.from_bytes in *.
  apply bind_more_fuel; [| reflexivity | exact H].
  now apply CAFilename_more_fuel.
Qed.

Lemma files_loop_more_fuel fuel fuel' : forall n n' files b,
  (fuel <= fuel')%nat -> (n <= n')%nat ->
  settled (CATar.files_loop fuel n files b) ->
  CATar.files_loop fuel' n' files b = CATar.files_loop fuel n files b.
Proof.
  induction n as [| n IH]; intros n' files b Hle Hn H.
  - now contradiction H.
  - destruct n' as [| n']; [lia |].
    cbn [CATar.files_loop] in *.
    apply bind_more_fuel; [| | exact H].
    + now apply CAFile_more_fuel.
    + intros f b1 Hf. destruct f; [| reflexivity].
      apply IH; [exact Hle | lia | exact Hf].
Qed.

Lemma CATar_more_fuel fuel fuel' b :
  (fuel <= fuel')%nat ->
  settled (CATar.from_bytes fuel b) ->
  CATar.from_bytes fuel' b = CATar.from_bytes fuel b.
Proof.
  intros Hle H. unfold CATar.from_bytes in *.
  apply bind_more_fuel; [reflexivity | | exact H].
  intros a b1 Ha.
  apply bind_more_fuel; [| reflexivity | exact Ha].
  now apply files_loop_more_fuel.
Qed.

(** The rejected name of C6's counterexample is rejected with any fuel that
    lets the loop end. *)
Lemma filename_not_utf8_any_fuel fuel :
  (257 <= fuel)%nat ->
  CAFilename.from_buffer fuel
    (BytesIO.of_bytes (header_bytes 18 CA_FORMAT_FILENAME ++ [xff; x00]))
  = Raise UnicodeDecodeError.
Proof.
  intros H. rewrite (CAFilename_more_fuel 257 fuel _ H).
  - vm_compute. reflexivity.
  - vm_compute. discriminate.
Qed.

(** ** Little-endian fields *)

Lemma byte_val_of_Z z : byte_val (byte_of_Z z) = z mod 256.
Proof.
  unfold byte_of_Z, byte_val.
  pose proof (Z.mod_pos_bound z 256 ltac:(lia)) as Hr.
  pose proof (Byte.to_of_N_option_map (Z.to_N (z mod 256))) as H.
  destruct (N.leb_spec (Z.to_N (z mod 256)) 255) as [Hle | Hgt]; [| lia].
  destruct (Byte.of_N (Z.to_N (z mod 256))) as [c |]; [| discriminate].
  cbn in H. injection H as ->. lia.
Qed.

Lemma length_le_bytes n : forall z, List.length (le_bytes n z) = n.
Proof. induction n as [| n IH]; intros z; cbn; [| rewrite IH]; reflexivity. Qed.

Lemma le_uint_le_bytes n : forall z, le_uint (le_bytes n z) = z mod 256 ^ Z.of_nat n.
Proof.
  induction n as [| n IH]; intros z.
  - cbn. now rewrite Z.mod_1_r.
  - cbn [le_bytes le_uint]. rewrite byte_val_of_Z, IH.
    rewrite Nat2Z.inj_succ, Z.pow_succ_r by lia.
    rewrite Z.rem_mul_r by lia. reflexivity.
Qed.

Lemma le_uint_pack_Q z : is_u64 z -> le_uint (pack_Q z) = z.
Proof.
  intros H. unfold pack_Q. rewrite le_uint_le_bytes.
  change (256 ^ Z.of_nat 8) with (2 ^ 64). now apply Z.mod_small.
Qed.

Lemma length_pack_Q z : List.length (pack_Q z) = 8%nat.
Proof. apply length_le_bytes. Qed.

Lemma length_header_bytes len magic :
  List.length (header_bytes len magic) = 16%nat.
Proof. unfold header_bytes. rewrite length_app, !length_pack_Q. reflexivity. Qed.

Lemma le_uint_bound data :
  0 <= le_uint data < 256 ^ Z.of_nat (List.length data).
Proof.
  induction data as [| c rest IH].
  - cbn. lia.
  - cbn [le_uint List.length]. rewrite Nat2Z.inj_succ, Z.pow_succ_r by lia.
    pose proof (byte_val_range c). lia.
Qed.

Lemma le_uint_firstn_8 data : is_u64 (le_uint (firstn 8 data)).
Proof.
  unfold is_u64. pose proof (le_uint_bound (firstn 8 data)) as H.
  assert (Hl : (List.length (firstn 8 data) <= 8)%nat)
    by (rewrite length_firstn; lia).
  assert (256 ^ Z.of_nat (List.length (firstn 8 data)) <= 256 ^ 8)
    by (apply Z.pow_le_mono_r; lia).
  change (2 ^ 64) with (256 ^ 8). lia.
Qed.

Lemma u64_at_is_u64 i data : is_u64 (u64_at i data).
Proof. apply le_uint_firstn_8. Qed.

Ltac u64 :=
  unfold is_u64, CA_FORMAT_INDEX, CA_FORMAT_TABLE, CA_FORMAT_ENTRY,
    CA_FORMAT_GOODBYE, CA_FORMAT_FILENAME, CA_FORMAT_PAYLOAD in *;
  change (2 ^ 64) with 18446744073709551616 in *; lia.

Lemma payload_size_bounds b p b' :
  from_buffer CAPayloadHeader b = Ok (Some p, b') ->
  0 <= CAFormatHeader.size p < 2 ^ 64.
Proof.
  intros H. apply header_ok_inv in H.
  destruct H as (_ & _ & [[E _] | [E _]]); [discriminate |].
  injection E as ->. cbn [CAFormatHeader.size]. apply le_uint_firstn_8.
Qed.

(** * The claims *)

(** ** C1: which magic ends a sequence *)

(** C1, as amended.  In every expected-magic context a 16-byte header whose
    magic field is the goodbye magic [0xdfd35c5e8327c403] makes the header
    decoder return [None], and no other magic does.  The value
    [0xe75b9e112f17417] is not a terminal magic: a header that carries it is
    treated like any other, so it raises [AssertionError] unless the context
    expects that very value, which none of the five header classes does. *)
Theorem goodbye_is_the_terminal_magic MAGIC b :
  (16 <= available b)%nat ->
  (header_magic b = CA_FORMAT_GOODBYE ->
   from_buffer (create_header_with_type MAGIC) b = Ok (None, advance 16 b)) /\
  (header_magic b = CA_FORMAT_TABLE_TAIL_MARKER ->
   from_buffer (create_header_with_type MAGIC) b =
   if MAGIC =? CA_FORMAT_TABLE_TAIL_MARKER
   then Ok (Some (CAFormatHeader.mk (header_length b)
                                    CA_FORMAT_TABLE_TAIL_MARKER),
            advance 16 b)
   else Raise AssertionError) /\
  (forall b',
      from_buffer (create_header_with_type MAGIC) b = Ok (None, b') ->
      header_magic b = CA_FORMAT_GOODBYE).
Proof.
  intros H16. split; [| split].
  - intros Hm. now apply header_goodbye.
  - intros Hm. rewrite header_from_buffer_eq.
    destruct (Nat.ltb_spec (available b) 16); [lia |].
    rewrite Hm. change (CA_FORMAT_TABLE_TAIL_MARKER =? CA_FORMAT_GOODBYE)
      with false. cbv iota.
    rewrite (Z.eqb_sym MAGIC).
    destruct (CA_FORMAT_TABLE_TAIL_MARKER =? MAGIC); reflexivity.
  - intros b' H. apply header_ok_inv in H.
    destruct H as (_ & _ & [[_ Hg] | [Hr _]]); [exact Hg | discriminate].
Qed.

(** C1 at two headers in the filename context: the goodbye magic ends the
    sequence, the tail marker value is rejected. *)
Lemma goodbye_is_the_terminal_magic_witness :
  from_buffer CAFilenameHeader (BytesIO.of_bytes goodbye_bytes)
  = Ok (None, advance 16 (BytesIO.of_bytes goodbye_bytes)) /\
  from_buffer CAFilenameHeader
    (BytesIO.of_bytes (header_bytes 16 CA_FORMAT_TABLE_TAIL_MARKER))
  = Raise AssertionError.
Proof.
  split.
  - apply (goodbye_is_the_terminal_magic CA_FORMAT_FILENAME
             (BytesIO.of_bytes goodbye_bytes)).
    + vm_compute. lia.
    + vm_compute. reflexivity.
  - apply (goodbye_is_the_terminal_magic CA_FORMAT_FILENAME
             (BytesIO.of_bytes (header_bytes 16 CA_FORMAT_TABLE_TAIL_MARKER))).
    + vm_compute. lia.
    + vm_compute. reflexivity.
Defined.

(** C1 as stated fails: a header with the magic [0xe75b9e112f17417], read
    where a filename header is expected, is not answered with [None] but
    with [AssertionError]. *)
Lemma tail_marker_is_not_terminal :
  header_magic (BytesIO.of_bytes (header_bytes 16 0xe75b9e112f17417))
  = 0xe75b9e112f17417 /\
  from_buffer CAFilenameHeader
    (BytesIO.of_bytes (header_bytes 16 0xe75b9e112f17417))
  = Raise AssertionError.
Proof. split; vm_compute; reflexivity. Qed.

(** ** C2: an unexpected magic *)

(** C2.  In every context, a header whose magic is neither the goodbye magic
    (the one terminal magic of the decoder) nor the magic the context
    expects raises [AssertionError], the "UnexpectedMagic" of the
    specification, and so does every decoder that encloses the read. *)
Theorem unexpected_magic_aborts MAGIC b :
  (16 <= available b)%nat ->
  header_magic b <> CA_FORMAT_GOODBYE ->
  header_magic b <> MAGIC ->
  from_buffer (create_header_with_type MAGIC) b = Raise AssertionError /\
  aborts_enclosing MAGIC b AssertionError.
Proof.
  intros H16 Hg Hm.
  pose proof (header_mismatch MAGIC b H16 Hg Hm) as H.
  split; [exact H | now apply header_raise_aborts].
Qed.

(** C2 at the payload magic where the filename magic is expected. *)
Lemma unexpected_magic_aborts_witness :
  from_buffer CAFilenameHeader (BytesIO.of_bytes (payload_bytes hello))
  = Raise AssertionError /\
  aborts_enclosing CA_FORMAT_FILENAME (BytesIO.of_bytes (payload_bytes hello))
    AssertionError.
Proof.
  apply (unexpected_magic_aborts CA_FORMAT_FILENAME
           (BytesIO.of_bytes (payload_bytes hello))).
  - vm_compute. lia.
  - vm_compute. discriminate.
  - vm_compute. discriminate.
Defined.

(** ** C3: a header cut short *)

(** C3.  With fewer than 16 bytes left, a header read raises [struct.error],
    the "Truncated" of the specification, in every context, and so does
    every enclosing decoder; no header is made up from missing bytes.  In
    particular the empty stream fails so at the archive-level entry header,
    and an index without chunks leads [parse_caidx] there. *)
Theorem short_header_is_truncated :
  (forall MAGIC b,
      (available b < 16)%nat ->
      from_buffer (create_header_with_type MAGIC) b = Raise struct_error /\
      aborts_enclosing MAGIC b struct_error) /\
  (forall fuel,
      CATar.from_bytes fuel (BytesIO.of_bytes []) = Raise struct_error) /\
  (forall open_rb (R : Type) (DirectoryChunkReader : string -> R)
          chunk_reader_read fuel caidx_path,
      from_file open_rb caidx_path = Ok (CAIndex.mk []) ->
      fst (parse_caidx open_rb DirectoryChunkReader chunk_reader_read
             fuel caidx_path)
      = Raise struct_error).
Proof.
  assert (Hempty : forall fuel,
             CATar.from_bytes fuel (BytesIO.of_bytes []) = Raise struct_error).
  { intros fuel.
    apply CATar_archive_raise, CAArchive_entry_raise, CAEntry_header_raise.
    apply header_short. cbn. lia. }
  split; [| split].
  - intros MAGIC b Hs.
    pose proof (header_short MAGIC b Hs) as H.
    split; [exact H | now apply header_raise_aborts].
  - exact Hempty.
  - intros open_rb R DCR rd fuel path Hf. unfold parse_caidx.
    rewrite Hf. cbn [CAIndex.chunks join_chunks read_chunks List.concat].
    rewrite Hempty. reflexivity.
Qed.

(** C3 at a buffer of 15 bytes. *)
Lemma short_header_is_truncated_witness :
  from_buffer CAEntryHeader (BytesIO.of_bytes (zeros 15)) = Raise struct_error
  /\ aborts_enclosing CA_FORMAT_ENTRY (BytesIO.of_bytes (zeros 15))
       struct_error.
Proof.
  apply (proj1 short_header_is_truncated CA_FORMAT_ENTRY
           (BytesIO.of_bytes (zeros 15))).
  vm_compute. lia.
Defined.

(** ** C9: the cursor after a header *)

(** C9.  Whenever the header decoder returns, with a header or with [None],
    the cursor stands exactly 16 bytes further and the buffer is the same. *)
Theorem header_read_advances_16 MAGIC b r b' :
  from_buffer (create_header_with_type MAGIC) b = Ok (r, b') ->
  BytesIO.pos b' = (BytesIO.pos b + 16)%nat /\
  BytesIO.buf b' = BytesIO.buf b.
Proof.
  intros H. apply header_ok_inv in H. destruct H as (_ & -> & _).
  split; reflexivity.
Qed.

(** C9 at a filename header and at a goodbye header. *)
Lemma header_read_advances_16_witness :
  (from_buffer CAFilenameHeader (BytesIO.of_bytes (filename_bytes a_txt))
   = Ok (Some (CAFormatHeader.mk 22 CA_FORMAT_FILENAME),
         BytesIO.mk (filename_bytes a_txt) 16) /\
   BytesIO.pos (BytesIO.mk (filename_bytes a_txt) 16)
   = (BytesIO.pos (BytesIO.of_bytes (filename_bytes a_txt)) + 16)%nat /\
   BytesIO.buf (BytesIO.mk (filename_bytes a_txt) 16)
   = BytesIO.buf (BytesIO.of_bytes (filename_bytes a_txt))) /\
  (from_buffer CAFilenameHeader (BytesIO.of_bytes goodbye_bytes)
   = Ok (None, BytesIO.mk goodbye_bytes 16) /\
   BytesIO.pos (BytesIO.mk goodbye_bytes 16)
   = (BytesIO.pos (BytesIO.of_bytes goodbye_bytes) + 16)%nat /\
   BytesIO.buf (BytesIO.mk goodbye_bytes 16)
   = BytesIO.buf (BytesIO.of_bytes goodbye_bytes)).
Proof.
  split.
  - split; [vm_compute; reflexivity |].
    apply (header_read_advances_16 CA_FORMAT_FILENAME
             (BytesIO.of_bytes (filename_bytes a_txt))
             (Some (CAFormatHeader.mk 22 CA_FORMAT_FILENAME))).
    vm_compute. reflexivity.
  - split; [vm_compute; reflexivity |].
    apply (header_read_advances_16 CA_FORMAT_FILENAME
             (BytesIO.of_bytes goodbye_bytes) None).
    vm_compute. reflexivity.
Defined.

(** ** C10: the goodbye magic where an entry is expected *)

(** C10.  A goodbye header in an entry-header position, followed by the 48
    bytes of an entry, neither fails nor ends anything: [CAEntry.from_buffer]
    returns an entry whose header is [None] and whose six fields are the
    next 48 bytes, 64 bytes are consumed, and both callers go on, the
    archive decoder with its file loop and the file decoder with the
    payload header. *)
Theorem goodbye_entry_is_swallowed b :
  (64 <= available b)%nat ->
  header_magic b = CA_FORMAT_GOODBYE ->
  let md := peek 48 (advance 16 b) in
  let entry := CAEntry.mk None (u64_at 0 md) (u64_at 1 md) (u64_at 2 md)
                          (u64_at 3 md) (u64_at 4 md) (u64_at 5 md) in
  CAEntry.from_buffer b = Ok (entry, advance 64 b) /\
  CAArchive.from_buffer b = Ok (CAArchive.mk entry, advance 64 b) /\
  (forall fuel,
      CATar.from_bytes fuel b =
      (files <- CATar.files_loop fuel fuel [] ;;
       ret (CATar.mk (CAArchive.mk entry) files)) (advance 64 b)) /\
  (forall fuel b0 filename,
      CAFilename.from_buffer fuel b0 = Ok (Some filename, b) ->
      CAFile.from_bytes fuel b0 =
      (payload <- from_buffer CAPayloadHeader ;;
       size <- CAFile.payload_size payload ;;
       data <- read (size - 16) ;;
       ret (Some (CAFile.mk filename data))) (advance 64 b)).
Proof.
  intros H64 Hm md entry.
  assert (He : CAEntry.from_buffer b = Ok (entry, advance 64 b)).
  { rewrite (CAEntry_from_buffer_eq b None (advance 16 b)).
    - rewrite available_advance by lia.
      destruct (Nat.ltb_spec (available b - 16) 48); [lia |].
      cbv zeta. rewrite advance_advance. reflexivity.
    - apply header_goodbye; [lia | exact Hm]. }
  assert (Ha : CAArchive.from_buffer b
               = Ok (CAArchive.mk entry, advance 64 b)).
  { unfold CAArchive.from_buffer. rewrite (bind_ok _ _ _ _ _ He).
    reflexivity. }
  repeat split.
  - exact He.
  - exact Ha.
  - intros fuel. unfold CATar.from_bytes.
    rewrite (bind_ok _ _ _ _ _ Ha). reflexivity.
  - intros fuel b0 filename Hfn. unfold CAFile.from_bytes.
    rewrite (bind_ok _ _ _ _ _ Hfn), (bind_ok _ _ _ _ _ Ha). reflexivity.
Qed.

(** C10 at an entry record whose header carries the goodbye magic. *)
Lemma goodbye_entry_is_swallowed_witness :
  CAEntry.from_buffer (BytesIO.of_bytes (entry_bytes CA_FORMAT_GOODBYE))
  = Ok (CAEntry.mk None 0 33188 0 1000 1000 0,
        BytesIO.mk (entry_bytes CA_FORMAT_GOODBYE) 64).
Proof.
  apply (goodbye_entry_is_swallowed
           (BytesIO.of_bytes (entry_bytes CA_FORMAT_GOODBYE))).
  - vm_compute. lia.
  - vm_compute. reflexivity.
Defined.

(** ** C4 and C5: the chunk descriptors *)

Lemma entry_offset_bytes b i :
  entry_offset (table_start b) i =
  le_uint (firstn 8 (skipn (64 + 40 * i) (BytesIO.buf b))).
Proof.
  unfold entry_offset, table_start, rewind, advance, peek, BytesIO.remaining.
  cbn [BytesIO.buf BytesIO.pos]. do 3 f_equal.
Qed.

Lemma entry_sha_bytes b i :
  entry_sha (table_start b) i =
  firstn 32 (skipn (64 + 40 * i + 8) (BytesIO.buf b)).
Proof.
  unfold entry_sha, table_start, rewind, advance, peek, BytesIO.remaining.
  cbn [BytesIO.buf BytesIO.pos]. do 2 f_equal.
Qed.

Lemma running_offset_last b :
  running_offset (table_start b) (Z.to_nat (num_chunks b))
  = last_stored_offset b.
Proof.
  unfold last_stored_offset.
  destruct (Z.to_nat (num_chunks b)) as [| j]; [reflexivity |].
  cbn [running_offset]. apply entry_offset_bytes.
Qed.

(** C5.  When index decoding returns, the number of descriptors is
    [(length - 32 - 56) / 40] with Python's floor division (no descriptor
    when that is negative, which it is for 64 to 87 bytes); entry [i] was
    read from the 40 bytes at [64 + 40 * i], an 8-byte cumulative offset and
    then a 32-byte hash, every one of them present in full; and the cursor
    is left just after the last entry read. *)
Theorem index_reads_counted_entries b idx b' :
  CAIndex.from_buffer b = Ok (idx, b') ->
  let len := Z.of_nat (List.length (BytesIO.buf b)) in
  let n := Z.to_nat ((len - 32 - 56) / 40) in
  List.length (CAIndex.chunks idx) = n /\
  (88 <= len -> Z.of_nat (List.length (CAIndex.chunks idx))
                = (len - 32 - 56) / 40) /\
  (64 + 40 * n <= List.length (BytesIO.buf b))%nat /\
  b' = BytesIO.mk (BytesIO.buf b) (64 + 40 * n) /\
  forall i, (i < n)%nat ->
    exists chunk,
      nth_error (CAIndex.chunks idx) i = Some chunk /\
      CAChunk.offset chunk + CAChunk.length chunk
      = le_uint (firstn 8 (skipn (64 + 40 * i) (BytesIO.buf b))) /\
      CAChunk.sha chunk
      = firstn 32 (skipn (64 + 40 * i + 8) (BytesIO.buf b)) /\
      List.length (CAChunk.sha chunk) = 32%nat.
Proof.
  intros H len n. apply CAIndex_ok_inv in H. destruct H as (HL & Hc & ->).
  change (Z.to_nat (num_chunks b)) with n in *.
  pose proof (num_chunks_fit b HL) as Hfit.
  change (Z.to_nat (num_chunks b)) with n in Hfit.
  unfold table_start in Hfit.
  rewrite available_advance, available_rewind in Hfit
    by (rewrite available_rewind; lia).
  assert (Hlen : List.length (CAIndex.chunks idx) = n)
    by (rewrite Hc, length_map, length_seq; reflexivity).
  split; [exact Hlen |]. split; [| split; [lia | split]].
  - intros H88. rewrite Hlen. unfold n. apply Z2Nat.id.
    apply Z.div_pos; lia.
  - unfold table_start, rewind, advance. cbn [BytesIO.buf BytesIO.pos].
    f_equal; lia.
  - intros i Hi. exists (chunk_of (table_start b) i).
    rewrite Hc, nth_error_map, nth_error_seq.
    destruct (Nat.ltb_spec i n); [| lia]. cbn [option_map].
    change (0 + i)%nat with i.
    split; [reflexivity |].
    cbn [chunk_of CAChunk.offset CAChunk.length CAChunk.sha].
    rewrite <- entry_offset_bytes, <- entry_sha_bytes.
    split; [lia |]. split; [reflexivity |].
    rewrite entry_sha_bytes, length_firstn, length_skipn. lia.
Qed.

(** C5 at the index of two chunks with the cumulative offsets 16 and 40. *)
Lemma index_reads_counted_entries_witness :
  List.length
    (CAIndex.chunks
       (CAIndex.mk [CAChunk.mk (zeros 32) 0 16; CAChunk.mk (zeros 32) 16 24]))
  = Z.to_nat ((Z.of_nat (List.length (index_bytes [16; 40])) - 32 - 56) / 40).
Proof.
  apply (index_reads_counted_entries
           (BytesIO.of_bytes (index_bytes [16; 40]))
           (CAIndex.mk [CAChunk.mk (zeros 32) 0 16;
                        CAChunk.mk (zeros 32) 16 24])
           (BytesIO.mk (index_bytes [16; 40]) 144)).
  vm_compute. reflexivity.
Defined.

(** C4, as amended.  For every index buffer that index decoding accepts:
    the first descriptor's offset is 0; each next descriptor starts where
    the one before ends; there are as many descriptors as the decoder
    reads table entries, [(length - 32 - 56) // 40] of them, and their
    lengths sum to the final cumulative offset, the one stored in the last
    of these entries (0 when there is none), which is also where the last
    descriptor ends.  The offsets are strictly
    increasing exactly when every descriptor but the last has a positive
    length, which the decoder does not check. *)
Theorem descriptors_are_contiguous b idx b' :
  CAIndex.from_buffer b = Ok (idx, b') ->
  let chunks := CAIndex.chunks idx in
  (forall c, nth_error chunks 0 = Some c -> CAChunk.offset c = 0) /\
  (forall i c d,
      nth_error chunks i = Some c -> nth_error chunks (S i) = Some d ->
      CAChunk.offset d = CAChunk.offset c + CAChunk.length c) /\
  List.length chunks = Z.to_nat (num_chunks b) /\
  total_length chunks
  = running_offset (table_start b) (Z.to_nat (num_chunks b)) /\
  total_length chunks = last_stored_offset b /\
  (forall c, nth_error chunks (Nat.pred (List.length chunks)) = Some c ->
             CAChunk.offset c + CAChunk.length c = total_length chunks) /\
  ((forall i c d,
       nth_error chunks i = Some c -> nth_error chunks (S i) = Some d ->
       CAChunk.offset c < CAChunk.offset d) <->
   (forall i c,
       nth_error chunks i = Some c -> (S i < List.length chunks)%nat ->
       0 < CAChunk.length c)).
Proof.
  intros H chunks. apply CAIndex_ok_inv in H. destruct H as (_ & Hc & _).
  subst chunks. rewrite Hc.
  set (t := table_start b). set (n := Z.to_nat (num_chunks b)).
  assert (Hnext : forall i c d,
             nth_error (map (chunk_of t) (seq 0 n)) i = Some c ->
             nth_error (map (chunk_of t) (seq 0 n)) (S i) = Some d ->
             CAChunk.offset d = CAChunk.offset c + CAChunk.length c).
  { intros i c d Hi Hs.
    apply nth_error_chunks in Hi, Hs. destruct Hi as [_ ->], Hs as [_ ->].
    cbn [chunk_of CAChunk.offset CAChunk.length running_offset]. lia. }
  assert (Hsum : total_length (map (chunk_of t) (seq 0 n))
                 = running_offset t n).
  { rewrite total_length_chunks. cbn [Nat.add running_offset]. lia. }
  split; [| split; [exact Hnext | split; [| split; [exact Hsum |]]]].
  - intros c H0. apply nth_error_chunks in H0. destruct H0 as [_ ->].
    reflexivity.
  - now rewrite length_map, length_seq.
  - split; [rewrite Hsum; apply running_offset_last |]. split.
    + rewrite Hsum, length_map, length_seq. intros c Hlast.
      apply nth_error_chunks in Hlast. destruct Hlast as [Hlt ->].
      cbn [chunk_of CAChunk.offset CAChunk.length].
      clearbody n. destruct n as [| m]; [lia |].
      cbn [Nat.pred running_offset]. lia.
    + rewrite length_map, length_seq. split.
      * intros Hinc i c Hi Hlt.
        destruct (nth_error (map (chunk_of t) (seq 0 n)) (S i))
          as [d |] eqn:Hd.
        -- pose proof (Hinc _ _ _ Hi Hd). pose proof (Hnext _ _ _ Hi Hd).
           lia.
        -- apply nth_error_None in Hd. rewrite length_map, length_seq in Hd.
           lia.
      * intros Hpos i c d Hi Hd.
        pose proof (Hnext _ _ _ Hi Hd).
        apply nth_error_chunks in Hd.
        pose proof (Hpos i c Hi ltac:(lia)). lia.
Qed.

(** C4 at the index of two chunks with the cumulative offsets 16 and 40:
    two descriptors, of 16 and 24 bytes, and 40 in the last entry. *)
Lemma descriptors_are_contiguous_witness :
  List.length [CAChunk.mk (zeros 32) 0 16; CAChunk.mk (zeros 32) 16 24]
  = Z.to_nat (num_chunks (BytesIO.of_bytes (index_bytes [16; 40]))) /\
  total_length [CAChunk.mk (zeros 32) 0 16; CAChunk.mk (zeros 32) 16 24]
  = last_stored_offset (BytesIO.of_bytes (index_bytes [16; 40])).
Proof.
  pose proof (descriptors_are_contiguous
                (BytesIO.of_bytes (index_bytes [16; 40]))
                (CAIndex.mk [CAChunk.mk (zeros 32) 0 16;
                             CAChunk.mk (zeros 32) 16 24])
                (BytesIO.mk (index_bytes [16; 40]) 144)) as H.
  destruct H as (_ & _ & Hn & _ & Hlast & _).
  - vm_compute. reflexivity.
  - split; [exact Hn | exact Hlast].
Defined.

(** C4 as stated fails: the index whose table stores the cumulative offsets
    16, 16 and 40 is accepted, and its second and third descriptors both
    have the offset 16. *)
Lemma offsets_not_strictly_increasing :
  CAIndex.from_buffer (BytesIO.of_bytes (index_bytes [16; 16; 40]))
  = Ok (CAIndex.mk [CAChunk.mk (zeros 32) 0 16;
                    CAChunk.mk (zeros 32) 16 0;
                    CAChunk.mk (zeros 32) 16 24],
        BytesIO.mk (index_bytes [16; 16; 40]) 184) /\
  ~ (CAChunk.offset (CAChunk.mk (zeros 32) 16 0)
     < CAChunk.offset (CAChunk.mk (zeros 32) 16 24)).
Proof. split; [vm_compute; reflexivity | cbn; lia]. Qed.

(** ** C6: file names *)

(** C6, as amended.  After a filename header, let the name be the [K] bytes
    under the cursor, none of them zero, that either are followed by a zero
    byte ([K < 256]) or fill the cap ([K = 256]).  With more than [K] units
    of fuel the decoder returns, and: if the [K] bytes are well-formed
    UTF-8 the result is the string they encode (the string whose UTF-8
    encoding is those [K] bytes), the terminator consumed in the first case
    and nothing beyond the 256 bytes read in the second; otherwise the
    decode raises [UnicodeDecodeError]. *)
Theorem filename_decoding fuel b h b1 K :
  from_buffer CAFilenameHeader b = Ok (Some h, b1) ->
  ~ In x00 (peek K b1) ->
  (K <= available b1)%nat ->
  ((K < 256)%nat /\ nth_error (BytesIO.remaining b1) K = Some x00) \/
  K = 256%nat ->
  (K < fuel)%nat ->
  CAFilename.from_buffer fuel b =
  match utf8_code_points (peek K b1) with
  | Some name =>
      Ok (Some (CAFilename.mk (Some h) name),
          advance (if (K <? 256)%nat then S K else K) b1)
  | None => Raise UnicodeDecodeError
  end /\
  List.length (peek K b1) = K /\
  (forall name,
      utf8_code_points (peek K b1) = Some name ->
      utf8_encode name = peek K b1).
Proof.
  intros Hh Hnz Hav Hend Hfuel.
  split; [| split; [now apply length_peek | apply utf8_round_trip]].
  unfold CAFilename.from_buffer.
  rewrite (bind_ok _ _ _ _ _ Hh).
  assert (Hend' : (List.length (@nil byte) + K = 256)%nat \/
                  ((List.length (@nil byte) + K < 256)%nat /\
                   nth_error (BytesIO.remaining b1) K = Some x00)).
  { cbn [List.length].
    destruct Hend as [[Hlt Hz] | ->]; [right; split; [lia | exact Hz] |].
    left. reflexivity. }
  rewrite (bind_ok _ _ _ _ _ (name_loop_spec K fuel [] b1 Hnz Hav Hend' Hfuel)).
  cbn [app List.length Nat.add]. unfold bind, lift, decode_utf8.
  destruct (utf8_code_points (peek K b1)); reflexivity.
Qed.

(** C6 at the name "a.txt" followed by its terminator. *)
Lemma filename_decoding_witness :
  CAFilename.from_buffer 6 (BytesIO.of_bytes (filename_bytes a_txt))
  = Ok (Some (CAFilename.mk (Some (CAFormatHeader.mk 22 CA_FORMAT_FILENAME))
                            [97; 46; 116; 120; 116]),
        BytesIO.mk (filename_bytes a_txt) 22).
Proof.
  apply (filename_decoding 6 (BytesIO.of_bytes (filename_bytes a_txt))
           (CAFormatHeader.mk 22 CA_FORMAT_FILENAME)
           (BytesIO.mk (filename_bytes a_txt) 16) 5).
  - vm_compute. reflexivity.
  - vm_compute. intuition discriminate.
  - vm_compute. lia.
  - left. split; [lia | vm_compute; reflexivity].
  - lia.
Defined.

(** C6 as stated fails: after a valid filename header, the name bytes
    [ff 00] have their terminator at byte 1, and yet no one-byte string
    results: the decode raises [UnicodeDecodeError]. *)
Lemma filename_not_utf8_is_rejected :
  from_buffer CAFilenameHeader
    (BytesIO.of_bytes (header_bytes 18 CA_FORMAT_FILENAME ++ [xff; x00]))
  = Ok (Some (CAFormatHeader.mk 18 CA_FORMAT_FILENAME),
        BytesIO.mk (header_bytes 18 CA_FORMAT_FILENAME ++ [xff; x00]) 16) /\
  BytesIO.remaining
    (BytesIO.mk (header_bytes 18 CA_FORMAT_FILENAME ++ [xff; x00]) 16)
  = [xff; x00] /\
  CAFilename.from_buffer 257
    (BytesIO.of_bytes (header_bytes 18 CA_FORMAT_FILENAME ++ [xff; x00]))
  = Raise UnicodeDecodeError.
Proof. repeat split; vm_compute; reflexivity. Qed.

(** ** C7: joining the chunks *)

(** C7.  Run with a reader that logs its calls, a reassembly that succeeds
    has asked for exactly the descriptors of the table, once each and in
    table order; its result is the concatenation, in that order, of what
    the calls returned, each call made on the reader the call before left;
    this is the stream [parse_caidx] hands to the archive decoder; and if
    every call returns as many bytes as its descriptor is long, the result
    is as long as the descriptor lengths sum to. *)
Theorem chunks_joined_in_table_order {R : Type}
  (chunk_reader_read : R -> CAChunk.t -> result bytes * R)
  r chunks data log r' :
  join_chunks (logged chunk_reader_read) ([], r) chunks
  = (Ok data, (log, r')) ->
  log = chunks /\
  join_chunks chunk_reader_read r chunks = (Ok data, r') /\
  (exists parts,
      reads chunk_reader_read r chunks parts r' /\
      data = List.concat parts) /\
  ((forall s c part s',
       In c chunks ->
       chunk_reader_read s c = (Ok part, s') ->
       Z.of_nat (List.length part) = CAChunk.length c) ->
   Z.of_nat (List.length data) = total_length chunks) /\
  (forall open_rb DirectoryChunkReader fuel caidx_path,
      from_file open_rb caidx_path = Ok (CAIndex.mk chunks) ->
      r = DirectoryChunkReader "/tmp/test_casync/default.castr"%string ->
      parse_caidx open_rb DirectoryChunkReader chunk_reader_read
        fuel caidx_path
      = (match CATar.from_bytes fuel (BytesIO.of_bytes data) with
         | Ok (tar, _) => Ok tar
         | Raise e => Raise e
         | OutOfFuel => OutOfFuel
         end, Some r')).
Proof.
  unfold join_chunks. intros H.
  destruct (read_chunks (logged chunk_reader_read) ([], r) chunks)
    as [[parts | e |] [log0 r0]] eqn:E; try discriminate.
  injection H as <- <- <-.
  apply read_chunks_logged in E.
  destruct E as (E & asked & rest & Hlog & Hch & Hall).
  rewrite (Hall parts eq_refl), app_nil_r in Hch. subst asked.
  cbn [app] in Hlog.
  pose proof (proj1 (read_chunks_ok _ _ _ _ _) E) as Hreads.
  assert (Hjoin : (let (res, r1) := read_chunks chunk_reader_read r chunks in
                   match res with
                   | Ok ps => (Ok (List.concat ps), r1)
                   | Raise e => (Raise e, r1)
                   | OutOfFuel => (OutOfFuel, r1)
                   end) = (Ok (List.concat parts), r0))
    by (rewrite E; reflexivity).
  split; [exact Hlog |]. split; [| split; [| split]].
  - destruct (read_chunks chunk_reader_read r chunks) as [[ps | e |] r1];
      exact Hjoin.
  - exists parts. split; [exact Hreads | reflexivity].
  - intros Hexact. exact (reads_lengths _ _ _ _ _ Hreads Hexact).
  - intros open_rb DCR fuel path Hf ->. unfold parse_caidx, join_chunks.
    rewrite Hf. cbn [CAIndex.chunks]. rewrite E.
    destruct (CATar.from_bytes fuel (BytesIO.of_bytes (List.concat parts)))
      as [[tar b1] | e |]; reflexivity.
Qed.

(** C7 at the two descriptors of lengths 16 and 24 and a reader that
    returns zero bytes of the asked length. *)
Lemma chunks_joined_in_table_order_witness :
  Z.of_nat (List.length (zeros 40))
  = total_length [CAChunk.mk (zeros 32) 0 16; CAChunk.mk (zeros 32) 16 24].
Proof.
  apply (chunks_joined_in_table_order zero_reader tt
           [CAChunk.mk (zeros 32) 0 16; CAChunk.mk (zeros 32) 16 24]
           (zeros 40)
           [CAChunk.mk (zeros 32) 0 16; CAChunk.mk (zeros 32) 16 24] tt).
  - vm_compute. reflexivity.
  - intros s c part s' [<- | [<- | []]] [= <- _]; vm_compute; reflexivity.
Defined.

(** ** C8: the data of a file record *)

(** C8, as amended.  Let a file record start at the cursor: its filename,
    its entry and its payload header decode, the last one validated as a
    payload header of length field [size] and 16 bytes long.  If
    [0 <= size - 16] and that many bytes are left after the header, the
    file decoder returns the record whose data are exactly these
    [size - 16] bytes, the cursor after them.  If fewer are left, or
    [size < 16], it returns a record all the same, with the bytes that are
    left, which are not [size - 16] in number.  So whatever record the file
    decoder returns there, its data have [size - 16] bytes if and only if
    [16 <= size] and [size - 16] bytes were left.  In the list that the
    archive decoder returns, every record has exactly [size - 16] bytes of
    data.  (A count is handed to [b.read] only if it fits [Py_ssize_t].) *)
Theorem file_data_is_payload fuel b filename b1 a b2 p b3 :
  CAFilename.from_buffer fuel b = Ok (Some filename, b1) ->
  CAArchive.from_buffer b1 = Ok (a, b2) ->
  from_buffer CAPayloadHeader b2 = Ok (Some p, b3) ->
  let count := CAFormatHeader.size p - 16 in
  (CAFormatHeader.type p = CA_FORMAT_PAYLOAD /\ b3 = advance 16 b2) /\
  (0 <= count <= Z.of_nat (available b3) -> count <= SSIZE_MAX ->
   CAFile.from_bytes fuel b
   = Ok (Some (CAFile.mk filename (peek (Z.to_nat count) b3)),
         advance (Z.to_nat count) b3) /\
   Z.of_nat (List.length (peek (Z.to_nat count) b3)) = count) /\
  (count < 0 \/ Z.of_nat (available b3) < count <= SSIZE_MAX ->
   CAFile.from_bytes fuel b
   = Ok (Some (CAFile.mk filename (BytesIO.remaining b3)),
         advance (available b3) b3) /\
   Z.of_nat (List.length (BytesIO.remaining b3)) <> count) /\
  (forall file b',
      CAFile.from_bytes fuel b = Ok (Some file, b') ->
      CAFile.filename file = filename /\
      (Z.of_nat (List.length (CAFile.data file)) = count <->
       0 <= count <= Z.of_nat (available b3))) /\
  (forall b0 tar b0',
      CATar.from_bytes fuel b0 = Ok (tar, b0') ->
      Forall (fun file => exists c,
                  BytesIO.buf c = BytesIO.buf b0 /\ payload_exact fuel c file)
             (CATar.files tar)).
Proof.
  intros Hfn Ha Hp count.
  pose proof (CAFile_from_payload _ _ _ _ _ _ _ _ Hfn Ha Hp) as Hfile.
  pose proof (payload_size_bounds _ _ _ Hp) as Hsize.
  rewrite read_eq in Hfile. fold count in Hfile.
  split; [| split; [| split; [| split]]].
  - apply header_ok_inv in Hp.
    destruct Hp as (_ & -> & [[E _] | (E & _ & Hm)]); [discriminate |].
    injection E as ->. cbn [CAFormatHeader.type]. auto.
  - intros [H0 Hle] Hmax. rewrite Hfile.
    assert (Hfit : fits_ssize count = true)
      by (apply fits_ssize_spec; unfold SSIZE_MAX in *; lia).
    rewrite Hfit. destruct (Z.ltb_spec count 0) as [Hneg | _]; [lia |].
    rewrite Nat.min_l by lia. split; [reflexivity |].
    rewrite length_peek by lia. lia.
  - intros Hshort. rewrite Hfile.
    assert (Hfit : fits_ssize count = true)
      by (apply fits_ssize_spec; unfold SSIZE_MAX, count in *; lia).
    rewrite Hfit. unfold available in *.
    destruct (Z.ltb_spec count 0) as [Hneg | Hpos];
      [split; [reflexivity | lia] |].
    destruct Hshort as [Hs | Hs]; [lia |].
    rewrite Nat.min_r by lia.
    rewrite firstn_all2 by lia. split; [reflexivity | lia].
  - intros file b' H. rewrite Hfile in H.
    destruct (fits_ssize count); [| discriminate].
    injection H as <- _. cbn [CAFile.filename CAFile.data].
    split; [reflexivity |].
    destruct (Z.ltb_spec count 0) as [Hneg | Hpos]; [lia |].
    rewrite length_firstn. unfold available. lia.
  - intros b0 tar b0' H. unfold CATar.from_bytes in H.
    apply bind_inv in H. destruct H as (a0 & c1 & Ha0 & H).
    apply bind_inv in H. destruct H as (files & c2 & Hl & H).
    injection H as <- <-. cbn [CATar.files].
    pose proof (keeps_CAArchive _ _ _ Ha0) as Hbuf.
    apply files_loop_inv in Hl. destruct Hl as (new & -> & Hnew).
    cbn [app]. eapply Forall_impl; [| exact Hnew].
    intros f (c & Hc & Hex). exists c. split; [congruence | exact Hex].
Qed.

(** C8 at the record of "a.txt" in the archive of this one file: the
    payload header at 150 has the length field 21, and the data are the 5
    bytes from 166 on. *)
Lemma file_data_is_payload_witness :
  CAFile.from_bytes 6 (BytesIO.mk one_file_archive 64)
  = Ok (Some (CAFile.mk
                (CAFilename.mk
                   (Some (CAFormatHeader.mk 22 CA_FORMAT_FILENAME))
                   [97; 46; 116; 120; 116])
                (peek (Z.to_nat (21 - 16)) (BytesIO.mk one_file_archive 166))),
        advance (Z.to_nat (21 - 16)) (BytesIO.mk one_file_archive 166)) /\
  Z.of_nat
    (List.length
       (peek (Z.to_nat (21 - 16)) (BytesIO.mk one_file_archive 166)))
  = 21 - 16.
Proof.
  pose proof (file_data_is_payload 6 (BytesIO.mk one_file_archive 64)
                (CAFilename.mk
                   (Some (CAFormatHeader.mk 22 CA_FORMAT_FILENAME))
                   [97; 46; 116; 120; 116])
                (BytesIO.mk one_file_archive 86)
                (CAArchive.mk
                   (CAEntry.mk (Some (CAFormatHeader.mk 64 CA_FORMAT_ENTRY))
                               0 33188 0 1000 1000 0))
                (BytesIO.mk one_file_archive 150)
                (CAFormatHeader.mk 21 CA_FORMAT_PAYLOAD)
                (BytesIO.mk one_file_archive 166)) as H.
  destruct H as (_ & Hexact & _).
  - vm_compute. reflexivity.
  - vm_compute. reflexivity.
  - vm_compute. reflexivity.
  - apply Hexact.
    + vm_compute. split; discriminate.
    + vm_compute. discriminate.
Defined.

(** C8 as stated fails at the file decoder: where the payload header
    announces 100 bytes of data and the buffer ends after 5, it returns a
    record with these 5 bytes; the cursor is then at the end, and the
    archive decoder, which goes on to the next filename header, raises. *)
Lemma file_data_shorter_than_announced :
  CAFile.from_bytes 6 (BytesIO.of_bytes short_record)
  = Ok (Some (CAFile.mk
                (CAFilename.mk
                   (Some (CAFormatHeader.mk 22 CA_FORMAT_FILENAME))
                   [97; 46; 116; 120; 116])
                hello),
        BytesIO.mk short_record 107) /\
  from_buffer CAPayloadHeader (BytesIO.mk short_record 86)
  = Ok (Some (CAFormatHeader.mk 116 CA_FORMAT_PAYLOAD),
        BytesIO.mk short_record 102) /\
  Z.of_nat (List.length hello) <> 116 - 16 /\
  ~ payload_exact 6 (BytesIO.of_bytes short_record)
      (CAFile.mk
         (CAFilename.mk (Some (CAFormatHeader.mk 22 CA_FORMAT_FILENAME))
                        [97; 46; 116; 120; 116])
         hello) /\
  CATar.from_bytes 6
    (BytesIO.of_bytes (entry_bytes CA_FORMAT_ENTRY ++ short_record))
  = Raise struct_error.
Proof.
  split; [vm_compute; reflexivity |].
  split; [vm_compute; reflexivity |].
  split; [vm_compute; discriminate |].
  split; [| vm_compute; reflexivity].
  intros (b1 & a & b2 & p & b3 & Hfn & Ha & Hp & Hlen & _).
  assert (E1 : CAFilename.from_buffer 6 (BytesIO.of_bytes short_record)
               = Ok (Some (CAFilename.mk
                             (Some (CAFormatHeader.mk 22 CA_FORMAT_FILENAME))
                             [97; 46; 116; 120; 116]),
                     BytesIO.mk short_record 22))
    by (vm_compute; reflexivity).
  cbn [CAFile.filename CAFile.data] in Hfn, Hlen.
  rewrite E1 in Hfn. injection Hfn as <-.
  assert (E2 : CAArchive.from_buffer (BytesIO.mk short_record 22)
               = Ok (CAArchive.mk
                       (CAEntry.mk
                          (Some (CAFormatHeader.mk 64 CA_FORMAT_ENTRY))
                          0 33188 0 1000 1000 0),
                     BytesIO.mk short_record 86))
    by (vm_compute; reflexivity).
  rewrite E2 in Ha. injection Ha as <- <-.
  assert (E3 : from_buffer CAPayloadHeader (BytesIO.mk short_record 86)
               = Ok (Some (CAFormatHeader.mk 116 CA_FORMAT_PAYLOAD),
                     BytesIO.mk short_record 102))
    by (vm_compute; reflexivity).
  rewrite E3 in Hp. injection Hp as <- <-.
  cbn in Hlen. discriminate.
Qed.

(** * Further properties *)

(** ** A cursor in front of given bytes *)

Lemma peek_app b X rest :
  BytesIO.remaining b = X ++ rest -> peek (List.length X) b = X.
Proof.
  intros E. unfold peek. rewrite E, firstn_app, Nat.sub_diag, firstn_all.
  cbn. now rewrite app_nil_r.
Qed.

Lemma remaining_advance_app b X rest :
  BytesIO.remaining b = X ++ rest ->
  BytesIO.remaining (advance (List.length X) b) = rest.
Proof.
  intros E. rewrite remaining_advance, E, skipn_app, Nat.sub_diag, skipn_all.
  reflexivity.
Qed.

Lemma available_app b X rest :
  BytesIO.remaining b = X ++ rest ->
  available b = (List.length X + List.length rest)%nat.
Proof. intros E. unfold available. now rewrite E, length_app. Qed.

Lemma header_fields_at b len magic rest :
  BytesIO.remaining b = header_bytes len magic ++ rest ->
  is_u64 len -> is_u64 magic ->
  (16 <= available b)%nat /\ header_length b = len /\ header_magic b = magic /\
  BytesIO.remaining (advance 16 b) = rest.
Proof.
  intros E Hl Hm.
  pose proof (peek_app _ _ _ E) as P. rewrite length_header_bytes in P.
  pose proof (remaining_advance_app _ _ _ E) as R.
  rewrite length_header_bytes in R.
  pose proof (available_app _ _ _ E) as A. rewrite length_header_bytes in A.
  unfold header_length, header_magic. rewrite P. unfold header_bytes.
  rewrite firstn_app, length_pack_Q, firstn_all2 by (rewrite length_pack_Q; lia).
  rewrite skipn_app, length_pack_Q, skipn_all2 by (rewrite length_pack_Q; lia).
  change (firstn (8 - 8) (pack_Q magic)) with (@nil byte).
  change ([] ++ skipn (8 - 8) (pack_Q magic)) with (pack_Q magic).
  rewrite app_nil_r, firstn_all2 by (rewrite length_pack_Q; lia).
  rewrite !le_uint_pack_Q by assumption.
  repeat split; try reflexivity; [lia | exact R].
Qed.

Lemma header_decode_at MAGIC b len rest :
  BytesIO.remaining b = header_bytes len MAGIC ++ rest ->
  is_u64 len -> is_u64 MAGIC -> MAGIC <> CA_FORMAT_GOODBYE ->
  from_buffer (create_header_with_type MAGIC) b
  = Ok (Some (CAFormatHeader.mk len MAGIC), advance 16 b) /\
  BytesIO.remaining (advance 16 b) = rest.
Proof.
  intros E Hl Hm Hg.
  destruct (header_fields_at _ _ _ _ E Hl Hm) as (H16 & HL & HM & R).
  split; [| exact R]. rewrite header_from_buffer_eq.
  destruct (Nat.ltb_spec (available b) 16); [lia |].
  rewrite HM, HL.
  destruct (Z.eqb_spec MAGIC CA_FORMAT_GOODBYE); [contradiction |].
  now rewrite Z.eqb_refl.
Qed.

Lemma goodbye_decode_at MAGIC b len rest :
  BytesIO.remaining b = header_bytes len CA_FORMAT_GOODBYE ++ rest ->
  is_u64 len ->
  from_buffer (create_header_with_type MAGIC) b = Ok (None, advance 16 b) /\
  BytesIO.remaining (advance 16 b) = rest.
Proof.
  intros E Hl.
  destruct (header_fields_at _ _ _ _ E Hl ltac:(u64))
    as (H16 & HL & HM & R).
  split; [| exact R]. now apply header_goodbye.
Qed.

Lemma u64_at_0_pack z data : u64_at 0 (pack_Q z ++ data) = z mod 2 ^ 64.
Proof.
  unfold u64_at. change (8 * 0)%nat with 0%nat. rewrite skipn_O.
  rewrite firstn_app, length_pack_Q.
  change (firstn (8 - 8) data) with (@nil byte).
  rewrite app_nil_r, firstn_all2 by (rewrite length_pack_Q; lia).
  unfold pack_Q. now rewrite le_uint_le_bytes.
Qed.

Lemma u64_at_S_pack i z data :
  u64_at (S i) (pack_Q z ++ data) = u64_at i data.
Proof.
  unfold u64_at. rewrite skipn_app, length_pack_Q.
  rewrite skipn_all2 by (rewrite length_pack_Q; lia).
  replace (8 * S i - 8)%nat with (8 * i)%nat by lia. reflexivity.
Qed.

Lemma entry_decode_at b e rest :
  BytesIO.remaining b = encode_entry e ++ rest ->
  CAEntry.from_buffer b = Ok (entry_read_back e, advance 64 b) /\
  BytesIO.remaining (advance 64 b) = rest.
Proof.
  intros E. unfold encode_entry in E. rewrite <- app_assoc in E.
  destruct (header_decode_at CA_FORMAT_ENTRY _ _ _ E) as [Hh R];
    try u64; try discriminate.
  set (md := pack_Q (CAEntry.feature_flags e) ++ pack_Q (CAEntry.mode e)
             ++ pack_Q (CAEntry.flags e) ++ pack_Q (CAEntry.uid e)
             ++ pack_Q (CAEntry.gid e) ++ pack_Q (CAEntry.mtime e)) in *.
  assert (Hlen : List.length md = 48%nat)
    by (unfold md; rewrite !length_app, !length_pack_Q; reflexivity).
  pose proof (peek_app _ _ _ R) as P. rewrite Hlen in P.
  pose proof (remaining_advance_app _ _ _ R) as R2. rewrite Hlen in R2.
  pose proof (available_app _ _ _ R) as A. rewrite Hlen in A.
  rewrite advance_advance in R2. split; [| exact R2].
  rewrite (CAEntry_from_buffer_eq _ _ _ Hh).
  destruct (Nat.ltb_spec (available (advance 16 b)) 48); [lia |].
  cbv zeta. rewrite advance_advance, P. unfold md.
  rewrite <- (app_nil_r (pack_Q (CAEntry.mtime e))).
  repeat (rewrite ?u64_at_S_pack, ?u64_at_0_pack). reflexivity.
Qed.

Lemma filename_decode_at fuel b name rest :
  BytesIO.remaining b = filename_bytes name ++ rest ->
  plain_name name -> (List.length name < fuel)%nat ->
  CAFilename.from_buffer fuel b =
  match utf8_code_points name with
  | Some s =>
      Ok (Some (CAFilename.mk
                  (Some (CAFormatHeader.mk
                           (16 + Z.of_nat (List.length name) + 1)
                           CA_FORMAT_FILENAME))
                  s),
          advance (List.length (filename_bytes name)) b)
  | None => Raise UnicodeDecodeError
  end /\
  BytesIO.remaining (advance (List.length (filename_bytes name)) b) = rest.
Proof.
  intros E [Hnz Hlen] Hfuel.
  split; [| exact (remaining_advance_app _ _ _ E)].
  unfold filename_bytes in *. rewrite <- app_assoc in E.
  destruct (header_decode_at CA_FORMAT_FILENAME _ _ _ E) as [Hh R];
    try u64; try discriminate.
  rewrite <- app_assoc in R.
  unfold CAFilename.from_buffer. rewrite (bind_ok _ _ _ _ _ Hh).
  pose proof (peek_app _ _ _ R) as P.
  rewrite (bind_ok _ _ _ _ _
             (name_loop_spec (List.length name) fuel [] (advance 16 b)
                ltac:(now rewrite P)
                ltac:(rewrite (available_app _ _ _ R); lia)
                ltac:(right; split; [cbn [List.length]; lia |];
                      rewrite R, nth_error_app2, Nat.sub_diag by lia;
                      reflexivity)
                Hfuel)).
  cbn [app List.length Nat.add]. rewrite P.
  destruct (Nat.ltb_spec (List.length name) 256); [| lia].
  unfold bind, lift, decode_utf8.
  destruct (utf8_code_points name); [| reflexivity].
  unfold ret. rewrite advance_advance, !length_app, length_header_bytes.
  cbn [List.length]. do 3 f_equal. lia.
Qed.

Lemma CAArchive_of_entry b e b' :
  CAEntry.from_buffer b = Ok (e, b') ->
  CAArchive.from_buffer b = Ok (CAArchive.mk e, b').
Proof.
  intros H. unfold CAArchive.from_buffer. now rewrite (bind_ok _ _ _ _ _ H).
Qed.

Lemma payload_decode_at b data rest :
  BytesIO.remaining b = payload_bytes data ++ rest ->
  Z.of_nat (List.length data) <= SSIZE_MAX ->
  from_buffer CAPayloadHeader b
  = Ok (Some (CAFormatHeader.mk (16 + Z.of_nat (List.length data))
                                CA_FORMAT_PAYLOAD),
        advance 16 b) /\
  read (16 + Z.of_nat (List.length data) - 16) (advance 16 b)
  = Ok (data, advance (List.length (payload_bytes data)) b) /\
  BytesIO.remaining (advance (List.length (payload_bytes data)) b) = rest.
Proof.
  intros E Hfit.
  assert (Hu : is_u64 (16 + Z.of_nat (List.length data)))
    by (unfold is_u64, SSIZE_MAX in *; lia).
  pose proof (remaining_advance_app _ _ _ E) as Rall.
  unfold payload_bytes in *. rewrite <- app_assoc in E.
  destruct (header_decode_at CA_FORMAT_PAYLOAD _ _ _ E Hu) as [Hh R];
    try u64; try discriminate.
  split; [exact Hh |]. split; [| exact Rall].
  replace (16 + Z.of_nat (List.length data) - 16)
    with (Z.of_nat (List.length data)) by lia.
  rewrite read_full;
    [| rewrite (available_app _ _ _ R); lia
     | apply fits_ssize_spec; unfold SSIZE_MAX in *; lia].
  rewrite (peek_app _ _ _ R), advance_advance, length_app,
    length_header_bytes.
  reflexivity.
Qed.

Lemma file_decode_at fuel b f rest :
  BytesIO.remaining b = encode_file f ++ rest ->
  readable_source f -> (List.length (src_name f) < fuel)%nat ->
  CAFile.from_bytes fuel b
  = Ok (Some (read_back f), advance (List.length (encode_file f)) b) /\
  BytesIO.remaining (advance (List.length (encode_file f)) b) = rest.
Proof.
  intros E (Hplain & Hutf & Hu) Hfuel.
  split; [| exact (remaining_advance_app _ _ _ E)].
  unfold encode_file in *. rewrite <- app_assoc in E.
  destruct (filename_decode_at fuel _ _ _ E Hplain Hfuel) as [Hfn R1].
  unfold read_back, decoded_name.
  destruct (utf8_code_points (src_name f)) as [s |]; [| contradiction].
  rewrite <- app_assoc in R1.
  destruct (entry_decode_at _ _ _ R1) as [He R2].
  destruct (payload_decode_at _ _ _ R2 Hu) as (Hp & Hd & _).
  apply CAArchive_of_entry in He.
  unfold CAFile.from_bytes.
  rewrite (bind_ok _ _ _ _ _ Hfn), (bind_ok _ _ _ _ _ He),
    (bind_ok _ _ _ _ _ Hp).
  unfold CAFile.payload_size.
  rewrite (bind_ok _ _ _ _ _ (eq_refl : ret _ _ = Ok (_, _))).
  cbn [CAFormatHeader.size].
  rewrite (bind_ok _ _ _ _ _ Hd). unfold ret, decoded_file.
  rewrite !advance_advance, !length_app. do 2 f_equal.
Qed.

Lemma CAFile_end fuel b b' :
  from_buffer CAFilenameHeader b = Ok (None, b') ->
  CAFile.from_bytes fuel b = Ok (None, b').
Proof.
  intros H.
  assert (Hfn : CAFilename.from_buffer fuel b = Ok (None, b'))
    by (unfold CAFilename.from_buffer; now rewrite (bind_ok _ _ _ _ _ H)).
  unfold CAFile.from_bytes. now rewrite (bind_ok _ _ _ _ _ Hfn).
Qed.

Lemma files_loop_decode_at fuel : forall files n acc b rest,
  BytesIO.remaining b
  = List.concat (map encode_file files) ++ goodbye_bytes ++ rest ->
  Forall readable_source files ->
  (256 <= fuel)%nat -> (List.length files < n)%nat ->
  CATar.files_loop fuel n acc b
  = Ok (acc ++ map read_back files,
        advance (List.length (List.concat (map encode_file files)) + 16) b).
Proof.
  induction files as [| f files IH]; intros n acc b rest E Hok Hfuel Hn;
    (destruct n as [| n]; [cbn in Hn; lia |]); cbn [CATar.files_loop].
  - cbn [map List.concat app] in E.
    destruct (goodbye_decode_at CA_FORMAT_FILENAME _ _ _ E ltac:(u64))
      as [Hh _].
    rewrite (bind_ok _ _ _ _ _ (CAFile_end fuel _ _ Hh)).
    cbn [map List.concat List.length Nat.add]. unfold ret.
    now rewrite app_nil_r.
  - cbn [map List.concat] in E. rewrite <- app_assoc in E.
    inversion Hok as [| ? ? Hf Hrest]; subst.
    assert (Hname : (List.length (src_name f) < fuel)%nat)
      by (destruct Hf as [[_ Hl] _]; lia).
    destruct (file_decode_at fuel _ _ _ E Hf Hname) as [Hd R].
    rewrite (bind_ok _ _ _ _ _ Hd).
    rewrite (IH n (acc ++ [read_back f]) _ rest R Hrest Hfuel
               ltac:(cbn in Hn; lia)).
    rewrite <- app_assoc, advance_advance.
    cbn [map List.concat app]. rewrite length_app.
    do 3 f_equal. lia.
Qed.

Lemma CATar_decode_at fuel b top files trailing :
  BytesIO.remaining b = encode_archive top files ++ trailing ->
  Forall readable_source files ->
  (256 <= fuel)%nat -> (List.length files < fuel)%nat ->
  CATar.from_bytes fuel b
  = Ok (CATar.mk (CAArchive.mk (entry_read_back top)) (map read_back files),
        advance (List.length (encode_archive top files)) b).
Proof.
  intros E Hok Hfuel Hn.
  unfold encode_archive in E. rewrite <- !app_assoc in E.
  destruct (entry_decode_at _ _ _ E) as [He R].
  apply CAArchive_of_entry in He.
  unfold CATar.from_bytes. rewrite (bind_ok _ _ _ _ _ He).
  rewrite (bind_ok _ _ _ _ _
             (files_loop_decode_at fuel files fuel [] _ trailing R Hok
                Hfuel Hn)).
  unfold ret. cbn [app]. rewrite advance_advance. do 3 f_equal.
  unfold encode_archive, goodbye_bytes.
  rewrite !length_app, length_header_bytes.
  unfold encode_entry. rewrite !length_app, length_header_bytes,
    !length_pack_Q. lia.
Qed.

(** X1.  Round trip of the archive decoder: a stream made of an entry
    record, the records of any list of readable files and a goodbye header,
    followed by anything, decodes to exactly those files, names and data
    byte for byte and in order, with the cursor left just after the goodbye
    header; what follows it is never read. *)
Theorem archive_round_trip fuel top files trailing :
  Forall readable_source files ->
  (256 <= fuel)%nat -> (List.length files < fuel)%nat ->
  CATar.from_bytes fuel
    (BytesIO.of_bytes (encode_archive top files ++ trailing))
  = Ok (CATar.mk (CAArchive.mk (entry_read_back top)) (map read_back files),
        BytesIO.mk (encode_archive top files ++ trailing)
                   (List.length (encode_archive top files))).
Proof.
  intros Hok Hfuel Hn.
  rewrite (CATar_decode_at fuel _ top files trailing);
    [reflexivity | reflexivity | exact Hok | exact Hfuel | exact Hn].
Qed.

(** X1 at the archive of "a.txt", followed by three stray bytes. *)
Lemma archive_round_trip_witness :
  CATar.from_bytes 256
    (BytesIO.of_bytes
       (encode_archive (CAEntry.mk None 0 33188 0 1000 1000 0)
          [mk_file_source a_txt (CAEntry.mk None 0 33188 0 0 0 0) hello]
        ++ [x01; x02; x03]))
  = Ok (CATar.mk
          (CAArchive.mk
             (entry_read_back (CAEntry.mk None 0 33188 0 1000 1000 0)))
          (map read_back
             [mk_file_source a_txt (CAEntry.mk None 0 33188 0 0 0 0) hello]),
        BytesIO.mk
          (encode_archive (CAEntry.mk None 0 33188 0 1000 1000 0)
             [mk_file_source a_txt (CAEntry.mk None 0 33188 0 0 0 0) hello]
           ++ [x01; x02; x03])
          (List.length
             (encode_archive (CAEntry.mk None 0 33188 0 1000 1000 0)
                [mk_file_source a_txt (CAEntry.mk None 0 33188 0 0 0 0)
                   hello]))).
Proof.
  apply (archive_round_trip 256 (CAEntry.mk None 0 33188 0 1000 1000 0)
           [mk_file_source a_txt (CAEntry.mk None 0 33188 0 0 0 0) hello]
           [x01; x02; x03]).
  - constructor; [| constructor].
    split; [split; [cbn; intuition discriminate | cbn; lia] |].
    split; [vm_compute; discriminate | unfold SSIZE_MAX; cbn; lia].
  - lia.
  - cbn. lia.
Defined.

(** ** A name that runs into the end of the buffer *)

Lemma name_loop_truncated : forall fuel acc b,
  ~ In x00 (BytesIO.remaining b) ->
  (List.length acc + available b < 256)%nat ->
  CAFilename.name_loop fuel acc b = OutOfFuel.
Proof.
  induction fuel as [| fuel IH]; intros acc b Hnz Hlen; [reflexivity |].
  destruct (BytesIO.remaining b) as [| c rest] eqn:E.
  - apply name_loop_at_end; [| lia]. unfold available. now rewrite E.
  - cbn [CAFilename.name_loop]. unfold CA_MAX_FILENAME_SIZE.
    destruct (Z.ltb_spec (Z.of_nat (List.length acc)) 256); [| lia].
    destruct (read_1 _ _ _ E) as [R Erest].
    rewrite (bind_ok _ _ _ _ _ R).
    assert (Hc : c <> x00) by (intros ->; apply Hnz; now left).
    destruct (bytes_eqb [c] [x00]) eqn:Eq;
      [apply bytes_eqb_nul in Eq; contradiction |].
    apply IH.
    + rewrite Erest. intros Hin. apply Hnz. now right.
    + unfold available in *. rewrite Erest, length_app. rewrite E in Hlen.
      cbn [List.length] in *. lia.
Qed.

(** X2.  A filename header followed by fewer than 256 bytes, none of them
    zero, up to the end of the buffer: the name loop reads to the end and
    then spins ([b.read(1)] returns the empty string for ever), so the
    filename decoder does not return, nor do the file decoder and the
    archive decoder that reached it. *)
Theorem truncated_name_never_returns b h b1 :
  from_buffer CAFilenameHeader b = Ok (Some h, b1) ->
  ~ In x00 (BytesIO.remaining b1) ->
  (available b1 < 256)%nat ->
  forall fuel,
    CAFilename.from_buffer fuel b = OutOfFuel /\
    CAFile.from_bytes fuel b = OutOfFuel /\
    (forall n files, CATar.files_loop fuel n files b = OutOfFuel) /\
    (forall b0 a,
        CAArchive.from_buffer b0 = Ok (a, b) ->
        CATar.from_bytes fuel b0 = OutOfFuel).
Proof.
  intros Hh Hnz Hlen fuel.
  assert (Hfn : CAFilename.from_buffer fuel b = OutOfFuel).
  { unfold CAFilename.from_buffer. rewrite (bind_ok _ _ _ _ _ Hh).
    apply bind_out_of_fuel. apply name_loop_truncated; [exact Hnz |].
    cbn [List.length]. lia. }
  assert (Hf : CAFile.from_bytes fuel b = OutOfFuel)
    by (unfold CAFile.from_bytes; now apply bind_out_of_fuel).
  assert (Hl : forall n files, CATar.files_loop fuel n files b = OutOfFuel).
  { intros [| n] files; [reflexivity |]. cbn [CATar.files_loop].
    now apply bind_out_of_fuel. }
  repeat split; try assumption.
  intros b0 a Ha. unfold CATar.from_bytes. rewrite (bind_ok _ _ _ _ _ Ha).
  apply bind_out_of_fuel. apply Hl.
Qed.

(** X2 at a filename header followed by "a.txt" without its terminator. *)
Lemma truncated_name_never_returns_witness :
  CAFilename.from_buffer 1000
    (BytesIO.of_bytes (header_bytes 22 CA_FORMAT_FILENAME ++ a_txt))
  = OutOfFuel.
Proof.
  apply (truncated_name_never_returns
           (BytesIO.of_bytes (header_bytes 22 CA_FORMAT_FILENAME ++ a_txt))
           (CAFormatHeader.mk 22 CA_FORMAT_FILENAME)
           (BytesIO.mk (header_bytes 22 CA_FORMAT_FILENAME ++ a_txt) 16)).
  - vm_compute. reflexivity.
  - cbn. intuition discriminate.
  - cbn. lia.
Defined.

(** ** The cursor only moves forward *)

Lemma forward_ret {A} (a : A) : moves_forward (ret a).
Proof. intros b a' b' [= _ <-]. auto. Qed.

Lemma forward_raise {A} e : moves_forward (@raise A e).
Proof. intros b a b' H. discriminate. Qed.

Lemma forward_out_of_fuel {A} : moves_forward (@out_of_fuel A).
Proof. intros b a b' H. discriminate. Qed.

Lemma forward_lift {A} (r : result A) : moves_forward (lift r).
Proof.
  intros b a b'. unfold lift. destruct r; try discriminate.
  intros [= _ <-]. auto.
Qed.

Lemma forward_read n : moves_forward (read n).
Proof.
  intros b a b'. unfold read. destruct (fits_ssize n); [| discriminate].
  intros [= _ <-]. cbn. split; [reflexivity | lia].
Qed.

Lemma forward_bind {A B} (m : M A) (k : A -> M B) :
  moves_forward m -> (forall a, moves_forward (k a)) ->
  moves_forward (bind m k).
Proof.
  intros Hm Hk b r b2 H. apply bind_inv in H.
  destruct H as (a & b1 & H1 & H2).
  destruct (Hm _ _ _ H1) as [E1 P1]. destruct (Hk _ _ _ _ H2) as [E2 P2].
  split; [congruence | lia].
Qed.

Create HintDb forward.

#[local] Hint Resolve forward_ret forward_raise forward_out_of_fuel
  forward_lift forward_read : forward.

Ltac forward :=
  repeat first
    [ apply forward_bind; [| intros ?]
    | solve [auto with forward]
    | match goal with
      | |- moves_forward (match ?x with _ => _ end) => destruct x
      | |- moves_forward (if ?x then _ else _) => destruct x
      end ].

Lemma forward_header MAGIC :
  moves_forward (from_buffer (create_header_with_type MAGIC)).
Proof. unfold create_header_with_type, from_buffer. forward. Qed.

#[local] Hint Resolve forward_header : forward.

Lemma forward_name_loop fuel : forall acc,
  moves_forward (CAFilename.name_loop fuel acc).
Proof.
  induction fuel as [| fuel IH]; intros acc; cbn [CAFilename.name_loop].
  - forward.
  - destruct (Z.of_nat (List.length acc) <? CA_MAX_FILENAME_SIZE);
      [| forward].
    apply forward_bind; [forward |]. intros c.
    destruct (bytes_eqb c [x00]); [forward | apply IH].
Qed.

#[local] Hint Resolve forward_name_loop : forward.

Lemma forward_CAFilename fuel : moves_forward (CAFilename.from_buffer fuel).
Proof.
  unfold CAFilename.from_buffer.
  apply forward_bind; [apply forward_header | intros h].
  destruct h; forward.
Qed.

Lemma forward_CAEntry : moves_forward CAEntry.from_buffer.
Proof.
  unfold CAEntry.from_buffer.
  apply forward_bind; [apply forward_header | intros h]. forward.
Qed.

Lemma forward_CAArchive : moves_forward CAArchive.from_buffer.
Proof.
  unfold CAArchive.from_buffer.
  apply forward_bind; [apply forward_CAEntry | intros h]. forward.
Qed.

#[local] Hint Resolve forward_CAFilename forward_CAEntry forward_CAArchive
  : forward.

Lemma forward_CAFile fuel : moves_forward (CAFile.from_bytes fuel).
Proof.
  unfold CAFile.from_bytes, CAFile.payload_size.
  apply forward_bind; [apply forward_CAFilename | intros fn].
  destruct fn; [| forward].
  apply forward_bind; [apply forward_CAArchive | intros a].
  apply forward_bind; [apply forward_header | intros p].
  forward.
Qed.

(** ** Where the archive decoder stops *)

Lemma CAFile_none_inv fuel b b' :
  CAFile.from_bytes fuel b = Ok (None, b') ->
  from_buffer CAFilenameHeader b = Ok (None, b').
Proof.
  unfold CAFile.from_bytes. intros H.
  apply bind_inv in H. destruct H as (fn & b1 & Hfn & H).
  destruct fn as [fn |].
  - apply bind_inv in H. destruct H as (a & b2 & _ & H).
    apply bind_inv in H. destruct H as (p & b3 & _ & H).
    apply bind_inv in H. destruct H as (sz & b4 & _ & H).
    apply bind_inv in H. destruct H as (d & b5 & _ & H). discriminate.
  - injection H as <-. unfold CAFilename.from_buffer in Hfn.
    apply bind_inv in Hfn. destruct Hfn as (h & b2 & Hh & Hfn).
    destruct h as [h |]; [| now injection Hfn as <-].
    apply bind_inv in Hfn. destruct Hfn as (nm & b3 & _ & Hfn).
    apply bind_inv in Hfn. destruct Hfn as (s & b4 & _ & Hfn). discriminate.
Qed.

Lemma files_loop_stops_at_goodbye fuel : forall n files b files' b',
  CATar.files_loop fuel n files b = Ok (files', b') ->
  exists b0,
    BytesIO.buf b0 = BytesIO.buf b /\
    (BytesIO.pos b <= BytesIO.pos b0)%nat /\
    from_buffer CAFilenameHeader b0 = Ok (None, b').
Proof.
  induction n as [| n IH]; intros files b files' b' H; [discriminate |].
  cbn [CATar.files_loop] in H.
  apply bind_inv in H. destruct H as (f & b1 & Hf & H).
  destruct f as [file |].
  - destruct (forward_CAFile _ _ _ _ Hf) as [E P].
    apply IH in H. destruct H as (b0 & E0 & P0 & H0).
    exists b0. repeat split; [congruence | lia | exact H0].
  - injection H as _ <-. apply CAFile_none_inv in Hf.
    exists b. auto.
Qed.

(** X3.  The archive decoder returns only from a goodbye header read where
    a filename header is expected: when it returns, the 16 bytes just before
    the final cursor, at least 64 bytes into the stream, are a header whose
    magic is the goodbye magic.  Reaching the end of the stream is never a
    way to return. *)
Theorem archive_returns_only_at_goodbye fuel b tar b' :
  CATar.from_bytes fuel b = Ok (tar, b') ->
  exists b0,
    BytesIO.buf b0 = BytesIO.buf b /\
    (BytesIO.pos b + 64 <= BytesIO.pos b0)%nat /\
    (16 <= available b0)%nat /\
    header_magic b0 = CA_FORMAT_GOODBYE /\
    b' = advance 16 b0.
Proof.
  unfold CATar.from_bytes. intros H.
  apply bind_inv in H. destruct H as (a & b1 & Ha & H).
  apply bind_inv in H. destruct H as (files & b2 & Hl & H).
  injection H as _ <-.
  assert (H64 : BytesIO.buf b1 = BytesIO.buf b /\
                BytesIO.pos b1 = (BytesIO.pos b + 64)%nat).
  { unfold CAArchive.from_buffer in Ha.
    apply bind_inv in Ha. destruct Ha as (e & c & He & Ha).
    injection Ha as _ <-.
    destruct (from_buffer CAEntryHeader b) as [[h c1] | |] eqn:Hh.
    - rewrite (CAEntry_from_buffer_eq _ _ _ Hh) in He.
      apply header_ok_inv in Hh. destruct Hh as (_ & -> & _).
      destruct (available (advance 16 b) <? 48)%nat; [discriminate |].
      injection He as _ <-. cbn. split; [reflexivity | lia].
    - rewrite (CAEntry_header_raise _ _ Hh) in He. discriminate.
    - unfold CAEntry.from_buffer in He.
      rewrite (bind_out_of_fuel _ _ _ Hh) in He. discriminate. }
  destruct H64 as [E1 P1].
  apply files_loop_stops_at_goodbye in Hl.
  destruct Hl as (b0 & E0 & P0 & H0).
  apply header_ok_inv in H0.
  destruct H0 as (H16 & -> & [[_ Hg] | [Hr _]]); [| discriminate].
  exists b0. repeat split; [congruence | lia | exact H16 | exact Hg].
Qed.

(** X3 at the archive of "a.txt". *)
Lemma archive_returns_only_at_goodbye_witness :
  exists b0,
    BytesIO.buf b0 = BytesIO.buf (BytesIO.of_bytes one_file_archive) /\
    (BytesIO.pos (BytesIO.of_bytes one_file_archive) + 64
     <= BytesIO.pos b0)%nat /\
    (16 <= available b0)%nat /\
    header_magic b0 = CA_FORMAT_GOODBYE /\
    BytesIO.mk one_file_archive 187 = advance 16 b0.
Proof.
  apply (archive_returns_only_at_goodbye 6
           (BytesIO.of_bytes one_file_archive)
           (CATar.mk
              (CAArchive.mk
                 (CAEntry.mk (Some (CAFormatHeader.mk 64 CA_FORMAT_ENTRY))
                             0 33188 0 1000 1000 0))
              [CAFile.mk
                 (CAFilename.mk
                    (Some (CAFormatHeader.mk 22 CA_FORMAT_FILENAME))
                    [97; 46; 116; 120; 116])
                 hello])).
  vm_compute. reflexivity.
Defined.

Lemma files_loop_skip fuel : forall files n acc b rest,
  BytesIO.remaining b = List.concat (map encode_file files) ++ rest ->
  Forall readable_source files ->
  (256 <= fuel)%nat ->
  CATar.files_loop fuel (List.length files + n) acc b
  = CATar.files_loop fuel n (acc ++ map read_back files)
      (advance (List.length (List.concat (map encode_file files))) b) /\
  BytesIO.remaining
    (advance (List.length (List.concat (map encode_file files))) b) = rest.
Proof.
  induction files as [| f files IH]; intros n acc b rest E Hok Hfuel.
  - cbn [map List.concat List.length Nat.add app] in *.
    rewrite advance_0, app_nil_r. auto.
  - cbn [map List.concat] in E. rewrite <- app_assoc in E.
    inversion Hok as [| ? ? Hf Hrest]; subst.
    assert (Hname : (List.length (src_name f) < fuel)%nat)
      by (destruct Hf as [[_ Hl] _]; lia).
    destruct (file_decode_at fuel _ _ _ E Hf Hname) as [Hd R].
    destruct (IH n (acc ++ [read_back f]) _ rest R Hrest Hfuel) as [Hloop R'].
    cbn [List.length Nat.add CATar.files_loop map List.concat].
    rewrite (bind_ok _ _ _ _ _ Hd), Hloop.
    rewrite advance_advance in *. rewrite <- app_assoc, length_app.
    cbn [app]. auto.
Qed.

(** X4.  An archive whose stream ends after the last file, or goes on for
    fewer than 16 bytes, is not decoded: with the entry record and any list
    of readable files but no goodbye header, the archive decoder raises
    [struct.error] and the files it had decoded are lost. *)
Theorem archive_without_goodbye_is_truncated fuel top files trailing :
  Forall readable_source files ->
  (256 <= fuel)%nat -> (List.length files < fuel)%nat ->
  (List.length trailing < 16)%nat ->
  CATar.from_bytes fuel
    (BytesIO.of_bytes
       (encode_entry top ++ List.concat (map encode_file files) ++ trailing))
  = Raise struct_error.
Proof.
  intros Hok Hfuel Hn Ht.
  set (b := BytesIO.of_bytes _).
  assert (E : BytesIO.remaining b
              = encode_entry top
                ++ (List.concat (map encode_file files) ++ trailing))
    by reflexivity.
  destruct (entry_decode_at _ _ _ E) as [He R].
  apply CAArchive_of_entry in He.
  apply (CATar_files_raise _ _ _ _ _ He).
  replace fuel with (List.length files + S (fuel - List.length files - 1))%nat
    at 2 by lia.
  destruct (files_loop_skip fuel files (S (fuel - List.length files - 1)) []
              _ trailing R Hok Hfuel) as [-> R'].
  apply files_loop_raise, CAFile_filename_raise, CAFilename_header_raise.
  apply header_short. unfold available. rewrite R'. exact Ht.
Qed.

(** X4 at the archive of "a.txt" without its goodbye header. *)
Lemma archive_without_goodbye_is_truncated_witness :
  CATar.from_bytes 256
    (BytesIO.of_bytes
       (encode_entry (CAEntry.mk None 0 33188 0 1000 1000 0)
        ++ List.concat
             (map encode_file
                [mk_file_source a_txt (CAEntry.mk None 0 33188 0 0 0 0)
                   hello])
        ++ []))
  = Raise struct_error.
Proof.
  apply (archive_without_goodbye_is_truncated 256
           (CAEntry.mk None 0 33188 0 1000 1000 0)
           [mk_file_source a_txt (CAEntry.mk None 0 33188 0 0 0 0) hello]
           []).
  - constructor; [| constructor].
    split; [split; [cbn; intuition discriminate | cbn; lia] |].
    split; [vm_compute; discriminate | unfold SSIZE_MAX; cbn; lia].
  - lia.
  - cbn. lia.
  - cbn. lia.
Defined.

(** ** What a decoded name can be *)

Lemma name_loop_inv : forall fuel acc b name b',
  (List.length acc <= 256)%nat ->
  CAFilename.name_loop fuel acc b = Ok (name, b') ->
  exists K,
    name = acc ++ peek K b /\
    ~ In x00 (peek K b) /\
    (K <= available b)%nat /\
    (List.length acc + K <= 256)%nat /\
    (((List.length acc + K)%nat = 256%nat /\ b' = advance K b) \/
     ((List.length acc + K < 256)%nat /\
      nth_error (BytesIO.remaining b) K = Some x00 /\
      b' = advance (S K) b)).
Proof.
  induction fuel as [| fuel IH]; intros acc b name b' Hacc H;
    [discriminate |].
  cbn [CAFilename.name_loop] in H. unfold CA_MAX_FILENAME_SIZE in H.
  destruct (Z.ltb_spec (Z.of_nat (List.length acc)) 256) as [Hlt | Hge].
  - destruct (BytesIO.remaining b) as [| c rest] eqn:E.
    + (* end of the buffer: the read is empty and the loop goes on *)
      assert (Hav : available b = 0%nat) by (unfold available; now rewrite E).
      change 1 with (Z.of_nat 1) in H.
      rewrite (bind_ok _ _ _ _ _ (read_short 1 b ltac:(lia) eq_refl)) in H.
      rewrite E, Hav, advance_0, app_nil_r in H. cbn [bytes_eqb] in H.
      rewrite (name_loop_at_end acc b Hav ltac:(lia) fuel) in H.
      discriminate.
    + destruct (read_1 _ _ _ E) as [R Erest].
      rewrite (bind_ok _ _ _ _ _ R) in H.
      destruct (bytes_eqb [c] [x00]) eqn:Eq.
      * apply bytes_eqb_nul in Eq. subst c. injection H as <- <-.
        exists 0%nat. unfold peek. cbn [firstn].
        rewrite app_nil_r, Nat.add_0_r.
        split; [reflexivity |]. split; [intros [] |].
        split; [lia |]. split; [lia |].
        right. split; [lia |]. split; reflexivity.
      * apply IH in H; [| rewrite length_app; cbn [List.length]; lia].
        destruct H as (K & -> & Hnz & Hav & Hle & Hend).
        rewrite length_app in Hle, Hend. cbn [List.length] in Hle, Hend.
        exists (S K). unfold peek, available in *. rewrite Erest in *.
        rewrite E. cbn [firstn List.length]. rewrite <- app_assoc.
        cbn [app].
        split; [reflexivity |]. split.
        { intros [-> | Hin]; [| now apply Hnz].
          rewrite (proj2 (bytes_eqb_nul x00) eq_refl) in Eq. discriminate. }
        split; [lia |]. split; [lia |].
        rewrite !advance_advance in Hend.
        destruct Hend as [[Hc ->] | (Hc & Hz & ->)]; [left | right].
        -- split; [lia | reflexivity].
        -- split; [lia |]. split; [exact Hz | reflexivity].
  - injection H as <- <-. exists 0%nat. unfold peek. cbn [firstn].
    rewrite app_nil_r, Nat.add_0_r, advance_0.
    split; [reflexivity |]. split; [intros [] |].
    split; [lia |]. split; [lia |].
    left. split; [lia | reflexivity].
Qed.

Lemma utf8_no_nul data s :
  utf8_code_points data = Some s -> ~ In x00 data -> ~ In 0 s.
Proof.
  intros H Hnz Hin. apply utf8_round_trip in H. apply Hnz. rewrite <- H.
  unfold utf8_encode. apply in_flat_map. exists 0. split; [exact Hin |].
  now left.
Qed.

(** X5.  Whatever file name the filename decoder returns, its UTF-8
    encoding is at most 256 bytes long and is the bytes that follow the
    filename header, and the name contains no U+0000; the cursor is left
    after those bytes, and after one more, the terminator, unless the name
    fills the 256 bytes. *)
Theorem decoded_name_is_bounded fuel b fn b' :
  CAFilename.from_buffer fuel b = Ok (Some fn, b') ->
  let encoded := utf8_encode (CAFilename.filename fn) in
  let K := List.length encoded in
  (K <= 256)%nat /\
  encoded = peek K (advance 16 b) /\
  ~ In 0 (CAFilename.filename fn) /\
  b' = advance (16 + (if (K <? 256)%nat then S K else K)) b.
Proof.
  unfold CAFilename.from_buffer. intros H.
  apply bind_inv in H. destruct H as (h & b1 & Hh & H).
  apply header_ok_inv in Hh. destruct Hh as (_ & -> & _).
  destruct h as [h |]; [| discriminate].
  apply bind_inv in H. destruct H as (raw & b2 & Hl & H).
  apply bind_inv in H. destruct H as (s & b3 & Hs & H).
  injection H as <- <-. cbn [CAFilename.filename].
  unfold lift, decode_utf8 in Hs.
  destruct (utf8_code_points raw) as [s' |] eqn:Hu; [| discriminate].
  injection Hs as -> ->.
  apply name_loop_inv in Hl; [| cbn; lia].
  destruct Hl as (K & Hraw & Hnz & Hav & Hle & Hend).
  cbn [app List.length Nat.add] in *. subst raw.
  pose proof (utf8_round_trip _ _ Hu) as Hrt.
  pose proof (length_peek _ _ Hav) as HK.
  cbv zeta. rewrite Hrt, HK.
  split; [exact Hle |]. split; [reflexivity |].
  split; [exact (utf8_no_nul _ _ Hu Hnz) |].
  destruct Hend as [[-> ->] | (Hlt & _ & ->)].
  - cbn [Nat.ltb Nat.leb]. now rewrite advance_advance.
  - destruct (Nat.ltb_spec K 256); [| lia]. now rewrite advance_advance.
Qed.

(** X5 at the name "a.txt". *)
Lemma decoded_name_is_bounded_witness :
  (List.length (utf8_encode [97; 46; 116; 120; 116]%Z) <= 256)%nat.
Proof.
  apply (decoded_name_is_bounded 6 (BytesIO.of_bytes (filename_bytes a_txt))
           (CAFilename.mk (Some (CAFormatHeader.mk 22 CA_FORMAT_FILENAME))
                          [97; 46; 116; 120; 116])
           (BytesIO.mk (filename_bytes a_txt) 22)).
  vm_compute. reflexivity.
Defined.

(** ** The payload read *)

(** X6.  Once the filename, the entry and the payload header of a record
    have decoded, [CAFile.from_bytes] is decided by the count [size - 16]
    it hands to [b.read]: a count above [sys.maxsize] raises
    [OverflowError]; any other returns a record, whose data are the next
    [size - 16] bytes if that many are left, all that is left if fewer are,
    and also all that is left if [size] is below 16, the count then being
    negative.  In the last two cases the record is returned with the cursor
    at the end of the buffer: no exception reports the shortfall. *)
Theorem payload_read_takes_what_is_left fuel b filename b1 a b2 p b3 :
  CAFilename.from_buffer fuel b = Ok (Some filename, b1) ->
  CAArchive.from_buffer b1 = Ok (a, b2) ->
  from_buffer CAPayloadHeader b2 = Ok (Some p, b3) ->
  let count := CAFormatHeader.size p - 16 in
  CAFile.from_bytes fuel b
  = (if SSIZE_MAX <? count then Raise OverflowError
     else Ok (Some (CAFile.mk filename
                      (if count <? 0 then BytesIO.remaining b3
                       else firstn (Z.to_nat count) (BytesIO.remaining b3))),
              advance (if count <? 0 then available b3
                       else Nat.min (Z.to_nat count) (available b3)) b3)) /\
  (count < 0 \/ Z.of_nat (available b3) <= count <= SSIZE_MAX ->
   CAFile.from_bytes fuel b
   = Ok (Some (CAFile.mk filename (BytesIO.remaining b3)),
         advance (available b3) b3) /\
   available (advance (available b3) b3) = 0%nat).
Proof.
  intros Hfn Ha Hp count.
  pose proof (payload_size_bounds _ _ _ Hp) as Hsize.
  rewrite (CAFile_from_payload _ _ _ _ _ _ _ _ Hfn Ha Hp), read_eq.
  fold count.
  assert (Hfit : fits_ssize count = negb (SSIZE_MAX <? count)).
  { unfold fits_ssize.
    destruct (Z.leb_spec (- SSIZE_MAX - 1) count),
             (Z.leb_spec count SSIZE_MAX), (Z.ltb_spec SSIZE_MAX count);
      unfold SSIZE_MAX, count in *; try reflexivity; lia. }
  rewrite Hfit. split.
  - destruct (SSIZE_MAX <? count); reflexivity.
  - intros Hshort.
    destruct (Z.ltb_spec SSIZE_MAX count) as [Hbig | _];
      [unfold SSIZE_MAX in *; lia |].
    cbn [negb]. split; [| rewrite available_advance; lia].
    destruct (Z.ltb_spec count 0) as [Hneg | Hpos]; [reflexivity |].
    destruct Hshort as [Hs | Hs]; [lia |].
    rewrite Nat.min_r by lia.
    rewrite firstn_all2 by (unfold available in Hs; lia). reflexivity.
Qed.

(** X6 at a payload header that announces 100 bytes before the last 5. *)
Lemma payload_read_takes_what_is_left_witness :
  CAFile.from_bytes 6
    (BytesIO.of_bytes (filename_bytes a_txt ++ entry_bytes CA_FORMAT_ENTRY
                       ++ header_bytes 116 CA_FORMAT_PAYLOAD ++ hello))
  = Ok (Some (CAFile.mk
                (CAFilename.mk
                   (Some (CAFormatHeader.mk 22 CA_FORMAT_FILENAME))
                   [97; 46; 116; 120; 116])
                (BytesIO.remaining
                   (BytesIO.mk
                      (filename_bytes a_txt ++ entry_bytes CA_FORMAT_ENTRY
                       ++ header_bytes 116 CA_FORMAT_PAYLOAD ++ hello)
                      102))),
        advance
          (available
             (BytesIO.mk
                (filename_bytes a_txt ++ entry_bytes CA_FORMAT_ENTRY
                 ++ header_bytes 116 CA_FORMAT_PAYLOAD ++ hello) 102))
          (BytesIO.mk
             (filename_bytes a_txt ++ entry_bytes CA_FORMAT_ENTRY
              ++ header_bytes 116 CA_FORMAT_PAYLOAD ++ hello) 102)).
Proof.
  apply (payload_read_takes_what_is_left 6
           (BytesIO.of_bytes
              (filename_bytes a_txt ++ entry_bytes CA_FORMAT_ENTRY
               ++ header_bytes 116 CA_FORMAT_PAYLOAD ++ hello))
           (CAFilename.mk (Some (CAFormatHeader.mk 22 CA_FORMAT_FILENAME))
                          [97; 46; 116; 120; 116])
           (BytesIO.mk
              (filename_bytes a_txt ++ entry_bytes CA_FORMAT_ENTRY
               ++ header_bytes 116 CA_FORMAT_PAYLOAD ++ hello) 22)
           (CAArchive.mk
              (CAEntry.mk (Some (CAFormatHeader.mk 64 CA_FORMAT_ENTRY))
                          0 33188 0 1000 1000 0))
           (BytesIO.mk
              (filename_bytes a_txt ++ entry_bytes CA_FORMAT_ENTRY
               ++ header_bytes 116 CA_FORMAT_PAYLOAD ++ hello) 86)
           (CAFormatHeader.mk 116 CA_FORMAT_PAYLOAD)
           (BytesIO.mk
              (filename_bytes a_txt ++ entry_bytes CA_FORMAT_ENTRY
               ++ header_bytes 116 CA_FORMAT_PAYLOAD ++ hello) 102)).
  - vm_compute. reflexivity.
  - vm_compute. reflexivity.
  - vm_compute. reflexivity.
  - right. vm_compute. split; discriminate.
Defined.

(** X7.  A goodbye header where the payload header of a file is expected is
    neither an end of the archive nor an unexpected magic: the header
    decoder returns [None], [payload.size] raises [AttributeError], and the
    file decoder and the file loop raise it in turn. *)
Theorem goodbye_payload_is_attribute_error fuel b filename b1 a b2 :
  CAFilename.from_buffer fuel b = Ok (Some filename, b1) ->
  CAArchive.from_buffer b1 = Ok (a, b2) ->
  (16 <= available b2)%nat ->
  header_magic b2 = CA_FORMAT_GOODBYE ->
  CAFile.from_bytes fuel b = Raise AttributeError /\
  forall n files, CATar.files_loop fuel (S n) files b = Raise AttributeError.
Proof.
  intros Hfn Ha H16 Hg.
  assert (H : CAFile.from_bytes fuel b = Raise AttributeError).
  { unfold CAFile.from_bytes.
    rewrite (bind_ok _ _ _ _ _ Hfn), (bind_ok _ _ _ _ _ Ha).
    rewrite (bind_ok _ _ _ _ _ (header_goodbye CA_FORMAT_PAYLOAD b2 H16 Hg)).
    reflexivity. }
  split; [exact H |]. intros n files. now apply files_loop_raise.
Qed.

(** X7 at "a.txt", its entry and then a goodbye header. *)
Lemma goodbye_payload_is_attribute_error_witness :
  CAFile.from_bytes 6
    (BytesIO.of_bytes (filename_bytes a_txt ++ entry_bytes CA_FORMAT_ENTRY
                       ++ goodbye_bytes))
  = Raise AttributeError.
Proof.
  apply (goodbye_payload_is_attribute_error 6
           (BytesIO.of_bytes (filename_bytes a_txt
                              ++ entry_bytes CA_FORMAT_ENTRY
                              ++ goodbye_bytes))
           (CAFilename.mk (Some (CAFormatHeader.mk 22 CA_FORMAT_FILENAME))
                          [97; 46; 116; 120; 116])
           (BytesIO.mk (filename_bytes a_txt ++ entry_bytes CA_FORMAT_ENTRY
                        ++ goodbye_bytes) 22)
           (CAArchive.mk
              (CAEntry.mk (Some (CAFormatHeader.mk 64 CA_FORMAT_ENTRY))
                          0 33188 0 1000 1000 0))
           (BytesIO.mk (filename_bytes a_txt ++ entry_bytes CA_FORMAT_ENTRY
                        ++ goodbye_bytes) 86)).
  - vm_compute. reflexivity.
  - vm_compute. reflexivity.
  - vm_compute. lia.
  - vm_compute. reflexivity.
Defined.

(** ** Entries *)

(** X8.  [CAEntry.from_buffer] returns exactly when the cursor has 64 bytes
    before it and the magic of the first 16 is the entry or the goodbye
    magic, and it then consumes exactly 64 bytes.  A wrong magic is reported
    ([AssertionError]) before the six fields are looked for; fewer than 16
    bytes, or fewer than 48 after an accepted header, goodbye included,
    raise [struct.error]. *)
Theorem entry_decoding_outcomes b :
  CAEntry.from_buffer b =
  if (available b <? 16)%nat then Raise struct_error
  else if (header_magic b =? CA_FORMAT_GOODBYE)
          || (header_magic b =? CA_FORMAT_ENTRY)
       then if (available b <? 64)%nat then Raise struct_error
            else let md := peek 48 (advance 16 b) in
                 Ok (CAEntry.mk
                       (if header_magic b =? CA_FORMAT_GOODBYE then None
                        else Some (CAFormatHeader.mk (header_length b)
                                                     (header_magic b)))
                       (u64_at 0 md) (u64_at 1 md) (u64_at 2 md)
                       (u64_at 3 md) (u64_at 4 md) (u64_at 5 md),
                     advance 64 b)
       else Raise AssertionError.
Proof.
  pose proof (header_from_buffer_eq CA_FORMAT_ENTRY b) as Hh.
  fold CAEntryHeader in Hh.
  destruct (Nat.ltb_spec (available b) 16) as [Hs | Hl].
  - now apply CAEntry_header_raise.
  - assert (Hmd : forall h,
               from_buffer CAEntryHeader b = Ok (h, advance 16 b) ->
               CAEntry.from_buffer b =
               if (available b <? 64)%nat then Raise struct_error
               else let md := peek 48 (advance 16 b) in
                    Ok (CAEntry.mk h (u64_at 0 md) (u64_at 1 md)
                                   (u64_at 2 md) (u64_at 3 md) (u64_at 4 md)
                                   (u64_at 5 md), advance 64 b)).
    { intros h H. rewrite (CAEntry_from_buffer_eq _ _ _ H).
      rewrite available_advance by lia.
      destruct (Nat.ltb_spec (available b - 16) 48),
               (Nat.ltb_spec (available b) 64); try lia; [reflexivity |].
      cbv zeta. now rewrite advance_advance. }
    destruct (header_magic b =? CA_FORMAT_GOODBYE).
    + cbn [orb]. now apply Hmd.
    + cbn [orb]. destruct (header_magic b =? CA_FORMAT_ENTRY).
      * now apply Hmd.
      * now apply CAEntry_header_raise.
Qed.

(** ** What the index decoder checks *)

Lemma CaFormatIndex_ok_magic b idx b1 :
  CaFormatIndex.from_buffer b = Ok (idx, b1) ->
  header_magic b = CA_FORMAT_INDEX \/ header_magic b = CA_FORMAT_GOODBYE.
Proof.
  unfold CaFormatIndex.from_buffer. intros H.
  apply bind_inv in H. destruct H as (h & c & Hh & _).
  apply header_ok_inv in Hh.
  destruct Hh as (_ & _ & [[_ Hg] | (_ & _ & Hm)]); auto.
Qed.

Lemma CAIndex_ok_magics b idx b' :
  CAIndex.from_buffer b = Ok (idx, b') ->
  (header_magic (rewind b) = CA_FORMAT_INDEX \/
   header_magic (rewind b) = CA_FORMAT_GOODBYE) /\
  (header_magic (advance 48 (rewind b)) = CA_FORMAT_TABLE \/
   header_magic (advance 48 (rewind b)) = CA_FORMAT_GOODBYE).
Proof.
  intros H. rewrite CAIndex_from_buffer_eq in H.
  apply bind_inv in H. destruct H as (i & b1 & Hi & H).
  apply bind_inv in H. destruct H as (h & b2 & Hh & _).
  pose proof (CaFormatIndex_ok_magic _ _ _ Hi) as Hm.
  apply CaFormatIndex_ok_inv in Hi. destruct Hi as (_ & ->).
  apply header_ok_inv in Hh.
  destruct Hh as (_ & _ & [[_ Hg] | (_ & _ & Hm')]); auto.
Qed.

(** X9.  The index decoder accepts a buffer exactly when it has at least 64
    bytes and, both at byte 8 and at byte 56, the magic read is the expected
    one (index, table) or the goodbye magic.  Nothing else can make it
    fail: after the two headers no read comes up short, and neither the
    size fields, the preamble, the entries nor the tail are checked. *)
Theorem index_accepted_iff b :
  (exists idx b', CAIndex.from_buffer b = Ok (idx, b')) <->
  (64 <= List.length (BytesIO.buf b))%nat /\
  (header_magic (rewind b) = CA_FORMAT_INDEX \/
   header_magic (rewind b) = CA_FORMAT_GOODBYE) /\
  (header_magic (advance 48 (rewind b)) = CA_FORMAT_TABLE \/
   header_magic (advance 48 (rewind b)) = CA_FORMAT_GOODBYE).
Proof.
  split.
  - intros (idx & b' & H).
    pose proof (CAIndex_ok_inv _ _ _ H) as (HL & _ & _).
    pose proof (CAIndex_ok_magics _ _ _ H) as (Hi & Ht). auto.
  - intros (HL & Hi & Ht). eexists _, _. now apply CAIndex_accepts.
Qed.

(** X9 at the index of two chunks. *)
Lemma index_accepted_iff_witness :
  exists idx b',
    CAIndex.from_buffer (BytesIO.of_bytes (index_bytes [16; 40]))
    = Ok (idx, b').
Proof.
  apply (proj2 (index_accepted_iff (BytesIO.of_bytes (index_bytes [16; 40])))).
  split; [vm_compute; lia |]. split; left; vm_compute; reflexivity.
Defined.

Lemma firstn_skipn_region {A} (l1 l2 : list A) m p k :
  firstn m l1 = firstn m l2 -> (p + k <= m)%nat ->
  firstn k (skipn p l1) = firstn k (skipn p l2).
Proof.
  intros H Hle.
  assert (Hin : forall l : list A,
             firstn k (skipn p l) = firstn k (skipn p (firstn m l))).
  { intros l. rewrite skipn_firstn_comm, firstn_firstn.
    now rewrite Nat.min_l by lia. }
  now rewrite (Hin l1), (Hin l2), H.
Qed.

Lemma chunk_of_region b1 b2 n i :
  firstn (40 * n) (skipn 64 (BytesIO.buf b1))
  = firstn (40 * n) (skipn 64 (BytesIO.buf b2)) ->
  (i < n)%nat ->
  chunk_of (table_start b1) i = chunk_of (table_start b2) i.
Proof.
  intros H Hi.
  assert (Hoff : forall j, (j < n)%nat ->
             entry_offset (table_start b1) j
             = entry_offset (table_start b2) j).
  { intros j Hj. rewrite !entry_offset_bytes. f_equal.
    replace (64 + 40 * j)%nat with (40 * j + 64)%nat by lia.
    rewrite <- !skipn_skipn.
    apply (firstn_skipn_region _ _ (40 * n)); [exact H | lia]. }
  unfold chunk_of. f_equal.
  - rewrite !entry_sha_bytes.
    replace (64 + 40 * i + 8)%nat with (40 * i + 8 + 64)%nat by lia.
    rewrite <- (skipn_skipn (40 * i + 8) 64 (BytesIO.buf b1)),
      <- (skipn_skipn (40 * i + 8) 64 (BytesIO.buf b2)).
    apply (firstn_skipn_region _ _ (40 * n)); [exact H | lia].
  - destruct i as [| j]; [reflexivity |]. cbn [running_offset].
    apply Hoff. lia.
  - rewrite (Hoff i Hi). f_equal.
    destruct i as [| j]; [reflexivity |]. cbn [running_offset].
    apply Hoff. lia.
Qed.

(** X10.  The descriptors depend only on the length of the buffer, the two
    magics and the bytes of the entries read: an accepted index and any
    buffer of the same length that agrees with it there, whatever its size
    fields, preamble and tail record, decode to the same descriptors. *)
Theorem index_ignores_unchecked_bytes b1 b2 idx c1 :
  List.length (BytesIO.buf b1) = List.length (BytesIO.buf b2) ->
  header_magic (rewind b1) = header_magic (rewind b2) ->
  header_magic (advance 48 (rewind b1))
  = header_magic (advance 48 (rewind b2)) ->
  firstn (40 * Z.to_nat (num_chunks b1)) (skipn 64 (BytesIO.buf b1))
  = firstn (40 * Z.to_nat (num_chunks b1)) (skipn 64 (BytesIO.buf b2)) ->
  CAIndex.from_buffer b1 = Ok (idx, c1) ->
  exists c2, CAIndex.from_buffer b2 = Ok (idx, c2).
Proof.
  intros HL Hm0 Hm48 Hreg H.
  pose proof (CAIndex_ok_inv _ _ _ H) as (H64 & Hc & _).
  pose proof (CAIndex_ok_magics _ _ _ H) as (Hi & Ht).
  assert (Hn : num_chunks b2 = num_chunks b1)
    by (unfold num_chunks; now rewrite HL).
  eexists. rewrite CAIndex_accepts; [| lia | congruence | congruence].
  f_equal. f_equal. destruct idx as [chunks]. cbn [CAIndex.chunks] in Hc.
  subst chunks. f_equal. rewrite Hn.
  apply map_ext_in. intros i Hin. apply in_seq in Hin.
  symmetry. apply (chunk_of_region b1 b2 (Z.to_nat (num_chunks b1)));
    [exact Hreg | lia].
Qed.

(** X10 at the index of two chunks and its bare counterpart. *)
Lemma index_ignores_unchecked_bytes_witness :
  exists c2,
    CAIndex.from_buffer (BytesIO.of_bytes (bare_index_bytes [16; 40]))
    = Ok (CAIndex.mk [CAChunk.mk (zeros 32) 0 16;
                      CAChunk.mk (zeros 32) 16 24], c2).
Proof.
  apply (index_ignores_unchecked_bytes
           (BytesIO.of_bytes (index_bytes [16; 40]))
           (BytesIO.of_bytes (bare_index_bytes [16; 40]))
           (CAIndex.mk [CAChunk.mk (zeros 32) 0 16;
                        CAChunk.mk (zeros 32) 16 24])
           (BytesIO.mk (index_bytes [16; 40]) 144));
    vm_compute; reflexivity.
Defined.

(** X11.  Every field the index decoder hands out comes from 64 unsigned
    bits: in each descriptor of an accepted index the offset and the end
    [offset + length] lie in [0, 2^64), so a length is above [-2^64] and
    below [2^64] (and negative when the table steps back), and the lengths
    sum to a value in [0, 2^64). *)
Theorem descriptor_fields_are_u64 b idx b' :
  CAIndex.from_buffer b = Ok (idx, b') ->
  Forall (fun c =>
            is_u64 (CAChunk.offset c) /\
            is_u64 (CAChunk.offset c + CAChunk.length c) /\
            - 2 ^ 64 < CAChunk.length c < 2 ^ 64)
         (CAIndex.chunks idx) /\
  is_u64 (total_length (CAIndex.chunks idx)).
Proof.
  intros H. apply CAIndex_ok_inv in H. destruct H as (_ & Hc & _).
  rewrite Hc. set (t := table_start b).
  assert (He : forall i, is_u64 (entry_offset t i))
    by (intros i; apply le_uint_firstn_8).
  assert (Hr : forall i, is_u64 (running_offset t i))
    by (intros [| j]; [unfold is_u64; cbn; lia | apply He]).
  split.
  - apply Forall_forall. intros c Hin. apply in_map_iff in Hin.
    destruct Hin as (i & <- & _).
    cbn [chunk_of CAChunk.offset CAChunk.length].
    pose proof (He i) as Hi. pose proof (Hr i) as Hri.
    unfold is_u64 in *. repeat split; lia.
  - rewrite total_length_chunks. cbn [running_offset Nat.add].
    pose proof (Hr (Z.to_nat (num_chunks b))). unfold is_u64 in *. lia.
Qed.

(** X11 at the index of two chunks with the cumulative offsets 16 and 40. *)
Lemma descriptor_fields_are_u64_witness :
  is_u64 (total_length [CAChunk.mk (zeros 32) 0 16;
                        CAChunk.mk (zeros 32) 16 24]).
Proof.
  apply (descriptor_fields_are_u64
           (BytesIO.of_bytes (index_bytes [16; 40]))
           (CAIndex.mk [CAChunk.mk (zeros 32) 0 16;
                        CAChunk.mk (zeros 32) 16 24])
           (BytesIO.mk (index_bytes [16; 40]) 144)).
  vm_compute. reflexivity.
Defined.

(** ** Reassembly *)

Section MoreJoining.

Context {R : Type}.
Variable chunk_reader_read : R -> CAChunk.t -> result bytes * R.

Lemma read_chunks_app : forall r before parts r1 tail,
  reads chunk_reader_read r before parts r1 ->
  read_chunks chunk_reader_read r (before ++ tail)
  = match read_chunks chunk_reader_read r1 tail with
    | (Ok ps, s) => (Ok (parts ++ ps), s)
    | other => other
    end.
Proof.
  intros r before parts r1 tail H.
  induction H as [r | r c part r1 rest parts r2 Hc Hr IH].
  - cbn [app]. destruct (read_chunks chunk_reader_read r tail)
      as [[ps | e |] s]; reflexivity.
  - cbn [app read_chunks]. rewrite Hc, IH.
    destruct (read_chunks chunk_reader_read r2 tail) as [[ps | e |] s];
      reflexivity.
Qed.

Lemma reads_logged : forall r chunks parts r1,
  reads chunk_reader_read r chunks parts r1 ->
  forall log,
    reads (logged chunk_reader_read) (log, r) chunks parts
          (log ++ chunks, r1).
Proof.
  intros r chunks parts r1 H.
  induction H as [r | r c part r1 rest parts r2 Hc Hr IH]; intros log.
  - rewrite app_nil_r. constructor.
  - econstructor.
    + unfold logged. cbn [fst snd]. rewrite Hc. reflexivity.
    + replace (log ++ c :: rest) with ((log ++ [c]) ++ rest)
        by (now rewrite <- app_assoc).
      apply IH.
Qed.

Lemma reads_each : forall r chunks parts r1,
  reads chunk_reader_read r chunks parts r1 ->
  forall c, In c chunks ->
    exists s part s', chunk_reader_read s c = (Ok part, s').
Proof.
  intros r chunks parts r1 H.
  induction H as [r | r c part r1 rest parts r2 Hc Hr IH]; intros c' Hin.
  - destruct Hin.
  - destruct Hin as [<- | Hin]; [eauto | now apply IH].
Qed.

End MoreJoining.

(** X12.  A chunk read that raises ends the reassembly there: the chunks
    before it have been asked for, in order, the chunks after it are never
    asked for, and [parse_caidx] raises without running the archive decoder
    on what was read so far.  What it raises is the reader's exception as
    it leaves the generator expression: the same exception, except that a
    [StopIteration] has become a [RuntimeError]. *)
Theorem failed_chunk_aborts_reassembly {R : Type}
  (chunk_reader_read : R -> CAChunk.t -> result bytes * R)
  r before chunk after parts r1 e r2 :
  reads chunk_reader_read r before parts r1 ->
  chunk_reader_read r1 chunk = (Raise e, r2) ->
  join_chunks (logged chunk_reader_read) ([], r) (before ++ chunk :: after)
  = (Raise (through_generator e), (before ++ [chunk], r2)) /\
  (forall open_rb DirectoryChunkReader fuel caidx_path,
      from_file open_rb caidx_path
      = Ok (CAIndex.mk (before ++ chunk :: after)) ->
      r = DirectoryChunkReader "/tmp/test_casync/default.castr"%string ->
      parse_caidx open_rb DirectoryChunkReader chunk_reader_read
        fuel caidx_path
      = (Raise (through_generator e), Some r2)) /\
  (e <> StopIteration -> through_generator e = e) /\
  (e = StopIteration -> through_generator e = RuntimeError).
Proof.
  intros Hreads Hfail. split; [| split; [| split]].
  - unfold join_chunks.
    rewrite (read_chunks_app _ _ _ _ _ (chunk :: after)
               (reads_logged _ _ _ _ _ Hreads [])).
    cbn [app read_chunks]. unfold logged at 1. cbn [fst snd].
    rewrite Hfail. reflexivity.
  - intros open_rb DCR fuel path Hf ->. unfold parse_caidx, join_chunks.
    rewrite Hf. cbn [CAIndex.chunks].
    rewrite (read_chunks_app _ _ _ _ _ (chunk :: after) Hreads).
    cbn [read_chunks]. rewrite Hfail. reflexivity.
  - intros He. destruct e; try reflexivity. now destruct He.
  - intros ->. reflexivity.
Qed.

(** X12 at three descriptors and a reader that fails on the second. *)
Lemma failed_chunk_aborts_reassembly_witness :
  join_chunks (logged reader_failing_at_16) ([], tt)
    ([CAChunk.mk (zeros 32) 0 16]
     ++ CAChunk.mk (zeros 32) 16 24 :: [CAChunk.mk (zeros 32) 40 8])
  = (Raise (through_generator ReaderError),
     ([CAChunk.mk (zeros 32) 0 16] ++ [CAChunk.mk (zeros 32) 16 24], tt)).
Proof.
  apply (failed_chunk_aborts_reassembly reader_failing_at_16 tt
           [CAChunk.mk (zeros 32) 0 16] (CAChunk.mk (zeros 32) 16 24)
           [CAChunk.mk (zeros 32) 40 8] [zeros 16] tt ReaderError tt).
  - econstructor; [reflexivity | constructor].
  - reflexivity.
Defined.

(** The same three descriptors and a reader that raises [StopIteration] on
    the second: what leaves the reassembly is a [RuntimeError]. *)
Example stop_iteration_leaves_as_runtime_error :
  join_chunks (logged reader_stopping_at_16) ([], tt)
    [CAChunk.mk (zeros 32) 0 16; CAChunk.mk (zeros 32) 16 24;
     CAChunk.mk (zeros 32) 40 8]
  = (Raise RuntimeError,
     ([CAChunk.mk (zeros 32) 0 16; CAChunk.mk (zeros 32) 16 24], tt)).
Proof. vm_compute. reflexivity. Qed.

(** X13.  Index and reassembly together: for an accepted index whose every
    descriptor the reader answers with exactly [length] bytes, the
    reassembled stream is as long as the cumulative offset stored in the
    last table entry the decoder reads (0 when it reads none), the
    descriptors being as many as these entries,
    [(length - 32 - 56) // 40]; no descriptor has a negative length, and
    the offsets never decrease. *)
Theorem reassembled_length_is_last_offset {R : Type}
  (chunk_reader_read : R -> CAChunk.t -> result bytes * R)
  b idx b' r data r' :
  CAIndex.from_buffer b = Ok (idx, b') ->
  join_chunks chunk_reader_read r (CAIndex.chunks idx) = (Ok data, r') ->
  (forall s c part s',
      In c (CAIndex.chunks idx) ->
      chunk_reader_read s c = (Ok part, s') ->
      Z.of_nat (List.length part) = CAChunk.length c) ->
  List.length (CAIndex.chunks idx) = Z.to_nat (num_chunks b) /\
  Z.of_nat (List.length data)
  = running_offset (table_start b) (Z.to_nat (num_chunks b)) /\
  Z.of_nat (List.length data) = last_stored_offset b /\
  Forall (fun c => 0 <= CAChunk.length c) (CAIndex.chunks idx) /\
  (forall i c d,
      nth_error (CAIndex.chunks idx) i = Some c ->
      nth_error (CAIndex.chunks idx) (S i) = Some d ->
      CAChunk.offset c <= CAChunk.offset d).
Proof.
  intros Hidx Hjoin Hexact.
  unfold join_chunks in Hjoin.
  destruct (read_chunks chunk_reader_read r (CAIndex.chunks idx))
    as [[parts | e |] r0] eqn:E; try discriminate.
  injection Hjoin as <- <-.
  apply read_chunks_ok in E.
  assert (Hpos : Forall (fun c => 0 <= CAChunk.length c) (CAIndex.chunks idx)).
  { apply Forall_forall. intros c Hin.
    destruct (reads_each _ _ _ _ _ E c Hin) as (s & part & s' & Hc).
    rewrite <- (Hexact _ _ _ _ Hin Hc). lia. }
  rewrite (reads_lengths _ _ _ _ _ E Hexact).
  apply CAIndex_ok_inv in Hidx. destruct Hidx as (_ & Hc & _).
  rewrite Hc in *.
  assert (Hsum : total_length
                   (map (chunk_of (table_start b))
                        (seq 0 (Z.to_nat (num_chunks b))))
                 = running_offset (table_start b) (Z.to_nat (num_chunks b))).
  { rewrite total_length_chunks. cbn [running_offset Nat.add]. lia. }
  split; [now rewrite length_map, length_seq |].
  split; [exact Hsum |].
  split; [rewrite Hsum; apply running_offset_last |].
  split; [exact Hpos |].
  intros i c d Hi Hd.
  assert (Hlen : 0 <= CAChunk.length c).
  { rewrite Forall_forall in Hpos. apply Hpos.
    eapply nth_error_In. exact Hi. }
  apply nth_error_chunks in Hi, Hd. destruct Hi as [_ ->], Hd as [_ ->].
  cbn [chunk_of CAChunk.offset CAChunk.length running_offset] in *. lia.
Qed.

(** X13 at the index of two chunks and a reader that returns zero bytes of
    the asked length: 40 bytes, the offset stored in the second entry. *)
Lemma reassembled_length_is_last_offset_witness :
  List.length
    (CAIndex.chunks
       (CAIndex.mk [CAChunk.mk (zeros 32) 0 16;
                    CAChunk.mk (zeros 32) 16 24]))
  = Z.to_nat (num_chunks (BytesIO.of_bytes (index_bytes [16; 40]))) /\
  Z.of_nat (List.length (zeros 40))
  = last_stored_offset (BytesIO.of_bytes (index_bytes [16; 40])).
Proof.
  pose proof (reassembled_length_is_last_offset zero_reader
                (BytesIO.of_bytes (index_bytes [16; 40]))
                (CAIndex.mk [CAChunk.mk (zeros 32) 0 16;
                             CAChunk.mk (zeros 32) 16 24])
                (BytesIO.mk (index_bytes [16; 40]) 144) tt (zeros 40) tt)
    as H.
  destruct H as (Hn & _ & Hlast & _).
  - vm_compute. reflexivity.
  - vm_compute. reflexivity.
  - intros s c part s' [<- | [<- | []]] [= <- _]; vm_compute; reflexivity.
  - split; [exact Hn | exact Hlast].
Defined.

(** ** A name that fills the cap *)

(** X14.  A file whose name is exactly 256 bytes long, written with its
    terminator like any other, cannot be decoded: the name loop stops at the
    cap and leaves the terminator unread, so the entry header that follows
    is read one byte early, its magic does not match, and the file decoder
    raises [AssertionError]. *)
Theorem name_of_cap_length_desynchronises fuel b name e rest :
  BytesIO.remaining b = filename_bytes name ++ encode_entry e ++ rest ->
  List.length name = 256%nat ->
  ~ In x00 name ->
  utf8_code_points name <> None ->
  (256 < fuel)%nat ->
  CAFile.from_bytes fuel b = Raise AssertionError.
Proof.
  intros E Hlen Hnz Hutf Hfuel.
  unfold filename_bytes in E. rewrite <- !app_assoc in E.
  destruct (header_decode_at CA_FORMAT_FILENAME _ _ _ E) as [Hh R];
    try u64; try discriminate.
  pose proof (peek_app _ _ _ R) as P. rewrite Hlen in P.
  pose proof (remaining_advance_app _ _ _ R) as R2. rewrite Hlen in R2.
  rewrite advance_advance in R2.
  assert (Hloop : CAFilename.name_loop fuel [] (advance 16 b)
                  = Ok (name, advance 272 b)).
  { rewrite (name_loop_spec 256 fuel [] (advance 16 b)).
    - cbn [app List.length Nat.add Nat.ltb Nat.leb]. rewrite P.
      now rewrite advance_advance.
    - now rewrite P.
    - rewrite (available_app _ _ _ R). lia.
    - left. reflexivity.
    - exact Hfuel. }
  destruct (utf8_code_points name) as [s |] eqn:Hs; [| contradiction].
  assert (Hfn : CAFilename.from_buffer fuel b
                = Ok (Some (CAFilename.mk
                              (Some (CAFormatHeader.mk
                                       (16 + Z.of_nat (List.length name) + 1)
                                       CA_FORMAT_FILENAME)) s),
                      advance 272 b)).
  { unfold CAFilename.from_buffer.
    rewrite (bind_ok _ _ _ _ _ Hh), (bind_ok _ _ _ _ _ Hloop).
    unfold bind, lift, decode_utf8. rewrite Hs. reflexivity. }
  apply (CAFile_archive_raise _ _ _ _ _ Hfn).
  apply CAArchive_entry_raise, CAEntry_header_raise.
  change (16 + 256)%nat with 272%nat in R2.
  assert (Hpeek : peek 16 (advance 272 b)
                  = x00 :: firstn 15 (header_bytes 64 CA_FORMAT_ENTRY)).
  { unfold peek. rewrite R2. unfold encode_entry.
    cbn [app firstn]. reflexivity. }
  apply header_mismatch.
  - unfold available. rewrite R2. cbn [app List.length].
    unfold encode_entry. rewrite length_app, length_app, length_header_bytes.
    lia.
  - unfold header_magic. rewrite Hpeek. vm_compute. discriminate.
  - unfold header_magic. rewrite Hpeek. vm_compute. discriminate.
Qed.

(** X14 at a file whose name is 256 letters "a". *)
Lemma name_of_cap_length_desynchronises_witness :
  CAFile.from_bytes 257
    (BytesIO.of_bytes
       (filename_bytes name_of_256
        ++ encode_entry (CAEntry.mk None 0 33188 0 0 0 0)
        ++ payload_bytes hello))
  = Raise AssertionError.
Proof.
  apply (name_of_cap_length_desynchronises 257
           (BytesIO.of_bytes
              (filename_bytes name_of_256
               ++ encode_entry (CAEntry.mk None 0 33188 0 0 0 0)
               ++ payload_bytes hello))
           name_of_256 (CAEntry.mk None 0 33188 0 0 0 0)
           (payload_bytes hello)).
  - reflexivity.
  - reflexivity.
  - intros H. apply repeat_spec in H. discriminate.
  - vm_compute. discriminate.
  - lia.
Defined.

(** ** Extraction *)

Section ExtractionOrder.

Context {FS : Type}.
Variable rmtree : str -> FS -> result unit * FS.
Variable mkdir : str -> FS -> result unit * FS.
Variable write_file : str -> bytes -> FS -> result unit * FS.

Lemma write_files_logged directory : forall files log fs res log' fs',
  write_files (logged_write write_file) directory files (log, fs)
  = (res, (log', fs')) ->
  write_files write_file directory files fs = (res, fs') /\
  exists done rest,
    map (fun file => Write (file_path directory file) (CAFile.data file))
        files
    = done ++ rest /\
    log' = log ++ done /\
    (res = Ok tt -> rest = []).
Proof.
  induction files as [| f files IH]; intros log fs res log' fs';
    cbn [write_files map].
  - intros [= <- <- <-]. split; [reflexivity |]. exists [], [].
    cbn [app]. rewrite app_nil_r. auto.
  - unfold logged_write at 1. cbn [fst snd].
    destruct (write_file (file_path directory f) (CAFile.data f) fs)
      as [[[] | e |] fs1] eqn:E.
    + intros H. apply IH in H.
      destruct H as (H & done & rest & Hplan & -> & Hok).
      split; [exact H |].
      exists (Write (file_path directory f) (CAFile.data f) :: done), rest.
      rewrite Hplan, <- app_assoc. auto.
    + intros [= <- <- <-]. split; [reflexivity |].
      exists [Write (file_path directory f) (CAFile.data f)],
        (map (fun file => Write (file_path directory file)
                                (CAFile.data file)) files).
      repeat split. discriminate.
    + intros [= <- <- <-]. split; [reflexivity |].
      exists [Write (file_path directory f) (CAFile.data f)],
        (map (fun file => Write (file_path directory file)
                                (CAFile.data file)) files).
      repeat split. discriminate.
Qed.

Lemma extract_tar_logged tar directory fs res log fs' :
  extract_tar (logged_rmtree rmtree) (logged_mkdir mkdir)
    (logged_write write_file) tar directory ([], fs)
  = (res, (log, fs')) ->
  extract_tar rmtree mkdir write_file tar directory fs = (res, fs').
Proof.
  unfold extract_tar.
  unfold logged_rmtree at 1. cbn [fst snd app].
  destruct (rmtree directory fs) as [[[] | e |] fs1] eqn:Erm.
  - unfold logged_mkdir at 1. cbn [fst snd app].
    destruct (mkdir directory fs1) as [[[] | e |] fs2] eqn:Emk.
    + intros H. apply write_files_logged in H. apply H.
    + intros [= <- <- <-]. reflexivity.
    + intros [= <- <- <-]. reflexivity.
  - intros [= <- <- <-]. reflexivity.
  - intros [= <- <- <-]. reflexivity.
Qed.

(** The writes of the loop, when they all return. *)
Lemma write_files_ran directory : forall files log fs fs',
  ran rmtree mkdir write_file fs
    (map (fun file => Write (file_path directory file) (CAFile.data file))
         files) fs' ->
  write_files (logged_write write_file) directory files (log, fs)
  = (Ok tt,
     (log ++ map (fun file => Write (file_path directory file)
                                    (CAFile.data file)) files, fs')).
Proof.
  induction files as [| f files IH]; intros log fs fs' H;
    cbn [map write_files] in *.
  - inversion H; subst. now rewrite app_nil_r.
  - inversion H as [| ? ? fs1 ? ? Hc Hr]; subst. cbn [do_call] in Hc.
    unfold logged_write at 1. cbn [fst snd]. rewrite Hc.
    rewrite (IH _ _ _ Hr), <- app_assoc. reflexivity.
Qed.

(** The writes of the loop, when one of them raises. *)
Lemma write_files_stop directory :
  forall files log fs before call after fs1 e fs2,
  map (fun file => Write (file_path directory file) (CAFile.data file)) files
  = before ++ call :: after ->
  ran rmtree mkdir write_file fs before fs1 ->
  do_call rmtree mkdir write_file call fs1 = (Raise e, fs2) ->
  write_files (logged_write write_file) directory files (log, fs)
  = (Raise e, (log ++ before ++ [call], fs2)).
Proof.
  induction files as [| f files IH];
    intros log fs before call after fs1 e fs2 Hplan Hran Hfail;
    cbn [map] in Hplan.
  - destruct before; discriminate.
  - destruct before as [| c before]; cbn [app] in Hplan.
    + injection Hplan as <- _. inversion Hran; subst.
      cbn [do_call] in Hfail. cbn [write_files].
      unfold logged_write at 1. cbn [fst snd]. rewrite Hfail. reflexivity.
    + injection Hplan as <- Hrest.
      inversion Hran as [| ? ? fs0 ? ? Hc Hr]; subst. cbn [do_call] in Hc.
      cbn [write_files]. unfold logged_write at 1. cbn [fst snd].
      rewrite Hc. rewrite (IH _ _ _ _ _ _ _ _ Hrest Hr Hfail).
      rewrite <- app_assoc. reflexivity.
Qed.

End ExtractionOrder.

(** X15.  [extract_tar] calls [rmtree] on the directory, then [mkdir], then
    writes one file per record, in the order of the list, at the path
    [directory/name] built from the decoded name as it is.  If all these
    calls return, it has made exactly them and returns.  If the calls
    before one of them return and that one raises, [extract_tar] has made
    the calls up to and including that one, none after it, and raises the
    exception of that call, with the file system as that call left it: so
    nothing is created or written when [rmtree] raises, nothing is written
    when [mkdir] raises, and files written before a failing write stay
    written. *)
Theorem extraction_follows_plan {FS : Type}
  (rmtree mkdir : str -> FS -> result unit * FS)
  (write_file : str -> bytes -> FS -> result unit * FS)
  tar directory fs before fs1 :
  ran rmtree mkdir write_file fs before fs1 ->
  (before = extraction_plan tar directory ->
   extract_tar (logged_rmtree rmtree) (logged_mkdir mkdir)
     (logged_write write_file) tar directory ([], fs)
   = (Ok tt, (extraction_plan tar directory, fs1)) /\
   extract_tar rmtree mkdir write_file tar directory fs = (Ok tt, fs1)) /\
  (forall call after e fs2,
      extraction_plan tar directory = before ++ call :: after ->
      do_call rmtree mkdir write_file call fs1 = (Raise e, fs2) ->
      extract_tar (logged_rmtree rmtree) (logged_mkdir mkdir)
        (logged_write write_file) tar directory ([], fs)
      = (Raise e, (before ++ [call], fs2)) /\
      extract_tar rmtree mkdir write_file tar directory fs = (Raise e, fs2)).
Proof.
  intros Hran.
  assert (Hlogged :
    (before = extraction_plan tar directory ->
     extract_tar (logged_rmtree rmtree) (logged_mkdir mkdir)
       (logged_write write_file) tar directory ([], fs)
     = (Ok tt, (extraction_plan tar directory, fs1))) /\
    (forall call after e fs2,
        extraction_plan tar directory = before ++ call :: after ->
        do_call rmtree mkdir write_file call fs1 = (Raise e, fs2) ->
        extract_tar (logged_rmtree rmtree) (logged_mkdir mkdir)
          (logged_write write_file) tar directory ([], fs)
        = (Raise e, (before ++ [call], fs2)))).
  { unfold extraction_plan, extract_tar. split.
    - intros ->.
      inversion Hran as [| ? ? fsa ? ? Hrm Hran1]; subst.
      inversion Hran1 as [| ? ? fsb ? ? Hmk Hran2]; subst.
      cbn [do_call] in Hrm, Hmk.
      unfold logged_rmtree at 1. cbn [fst snd app]. rewrite Hrm.
      unfold logged_mkdir at 1. cbn [fst snd app]. rewrite Hmk.
      exact (write_files_ran rmtree mkdir write_file directory _ _ _ _ Hran2).
    - intros call after e fs2 Hplan Hfail.
      destruct before as [| c0 before]; cbn [app] in Hplan.
      + injection Hplan as <- _. inversion Hran; subst.
        cbn [do_call] in Hfail.
        unfold logged_rmtree at 1. cbn [fst snd app]. rewrite Hfail.
        reflexivity.
      + injection Hplan as <- Hplan.
        inversion Hran as [| ? ? fsa ? ? Hrm Hran1]; subst.
        cbn [do_call] in Hrm.
        unfold logged_rmtree at 1. cbn [fst snd app]. rewrite Hrm.
        destruct before as [| c1 before]; cbn [app] in Hplan.
        * injection Hplan as <- _. inversion Hran1; subst.
          cbn [do_call] in Hfail.
          unfold logged_mkdir at 1. cbn [fst snd app]. rewrite Hfail.
          reflexivity.
        * injection Hplan as <- Hplan.
          inversion Hran1 as [| ? ? fsb ? ? Hmk Hran2]; subst.
          cbn [do_call] in Hmk.
          unfold logged_mkdir at 1. cbn [fst snd app]. rewrite Hmk.
          exact (write_files_stop rmtree mkdir write_file directory
                   _ _ _ _ _ _ _ _ _ Hplan Hran2 Hfail). }
  destruct Hlogged as [Hall Hstop]. split.
  - intros Hb. split; [exact (Hall Hb) |].
    exact (extract_tar_logged _ _ _ _ _ _ _ _ _ (Hall Hb)).
  - intros call after e fs2 Hplan Hfail.
    split; [exact (Hstop _ _ _ _ Hplan Hfail) |].
    exact (extract_tar_logged _ _ _ _ _ _ _ _ _ (Hstop _ _ _ _ Hplan Hfail)).
Qed.

(** X15 at two records, of one byte and of five, and a file system whose
    writes fail above four bytes: both directory calls and both writes are
    made, the second write raises, and the first file stays written. *)
Lemma extraction_follows_plan_witness :
  extract_tar (logged_rmtree rmtree_needs_files) (logged_mkdir mkdir_plain)
    (logged_write write_small)
    (CATar.mk (CAArchive.mk (CAEntry.mk None 0 0 0 0 0 0))
       [CAFile.mk (CAFilename.mk None [97]) [x01];
        CAFile.mk (CAFilename.mk None [98]) hello])
    [100] ([], [([111], [])])
  = (Raise OSError,
     ([Rmtree [100]; Mkdir [100]; Write [100; 47; 97] [x01]]
      ++ [Write [100; 47; 98] hello],
      [([100; 47; 97], [x01])])) /\
  extract_tar rmtree_needs_files mkdir_plain write_small
    (CATar.mk (CAArchive.mk (CAEntry.mk None 0 0 0 0 0 0))
       [CAFile.mk (CAFilename.mk None [97]) [x01];
        CAFile.mk (CAFilename.mk None [98]) hello])
    [100] [([111], [])]
  = (Raise OSError, [([100; 47; 97], [x01])]).
Proof.
  apply (proj2 (extraction_follows_plan rmtree_needs_files mkdir_plain
                  write_small
                  (CATar.mk (CAArchive.mk (CAEntry.mk None 0 0 0 0 0 0))
                     [CAFile.mk (CAFilename.mk None [97]) [x01];
                      CAFile.mk (CAFilename.mk None [98]) hello])
                  [100] [([111], [])]
                  [Rmtree [100]; Mkdir [100]; Write [100; 47; 97] [x01]]
                  [([100; 47; 97], [x01])]
                  ltac:(repeat (econstructor; [reflexivity |]);
                        constructor))
           (Write [100; 47; 98] hello) [] OSError
           [([100; 47; 97], [x01])]).
  - reflexivity.
  - reflexivity.
Defined.

(** ** Fuel and termination *)

Lemma bind_out_of_fuel_inv {A B} (m : M A) (k : A -> M B) b :
  bind m k b = OutOfFuel ->
  m b = OutOfFuel \/ exists a b1, m b = Ok (a, b1) /\ k a b1 = OutOfFuel.
Proof.
  unfold bind. destruct (m b) as [[a b1] | e |]; [| discriminate | auto].
  intros H. right. exists a, b1. auto.
Qed.

Lemma free_ret {A} (a : A) : fuel_free (ret a).
Proof. intros b. discriminate. Qed.

Lemma free_raise {A} e : fuel_free (@raise A e).
Proof. intros b. discriminate. Qed.

Lemma free_read n : fuel_free (read n).
Proof. intros b. unfold read. destruct (fits_ssize n); discriminate. Qed.

Lemma free_unpack n data : fuel_free (lift (struct_unpack_Q n data)).
Proof.
  intros b. unfold lift, struct_unpack_Q.
  destruct (Nat.eqb (List.length data) (8 * n)); discriminate.
Qed.

Lemma free_decode data : fuel_free (lift (decode_utf8 data)).
Proof.
  intros b. unfold lift, decode_utf8.
  destruct (utf8_code_points data); discriminate.
Qed.

Lemma free_bind {A B} (m : M A) (k : A -> M B) :
  fuel_free m -> (forall a, fuel_free (k a)) -> fuel_free (bind m k).
Proof.
  intros Hm Hk b H. apply bind_out_of_fuel_inv in H.
  destruct H as [H | (a & b1 & _ & H)]; [now apply (Hm b) | now apply (Hk a b1)].
Qed.

Create HintDb fuelfree.

#[local] Hint Resolve free_ret free_raise free_read free_unpack free_decode
  : fuelfree.

Ltac fuelfree :=
  repeat first
    [ apply free_bind; [| intros ?]
    | solve [auto with fuelfree]
    | match goal with
      | |- fuel_free (match ?x with _ => _ end) => destruct x
      | |- fuel_free (if ?x then _ else _) => destruct x
      end ].

Lemma free_header MAGIC :
  fuel_free (from_buffer (create_header_with_type MAGIC)).
Proof. unfold create_header_with_type, from_buffer. fuelfree. Qed.

#[local] Hint Resolve free_header : fuelfree.

Lemma free_CAEntry : fuel_free CAEntry.from_buffer.
Proof.
  unfold CAEntry.from_buffer.
  apply free_bind; [apply free_header | intros h]. fuelfree.
Qed.

Lemma free_CAArchive : fuel_free CAArchive.from_buffer.
Proof.
  unfold CAArchive.from_buffer.
  apply free_bind; [apply free_CAEntry | intros e]. fuelfree.
Qed.

(** A name loop with enough fuel to reach the cap runs out of fuel only if
    it runs out for ever. *)
Lemma name_loop_decided : forall fuel acc b,
  (256 < List.length acc + fuel)%nat -> (List.length acc <= 256)%nat ->
  CAFilename.name_loop fuel acc b = OutOfFuel ->
  forall fuel', CAFilename.name_loop fuel' acc b = OutOfFuel.
Proof.
  induction fuel as [| fuel IH]; intros acc b Hf Hacc H; [lia |].
  cbn [CAFilename.name_loop] in H. unfold CA_MAX_FILENAME_SIZE in H.
  destruct (Z.ltb_spec (Z.of_nat (List.length acc)) 256) as [Hlt | Hge];
    [| discriminate].
  destruct (BytesIO.remaining b) as [| c rest] eqn:E.
  - apply name_loop_at_end; [| lia]. unfold available. now rewrite E.
  - destruct (read_1 _ _ _ E) as [R _].
    rewrite (bind_ok _ _ _ _ _ R) in H.
    destruct (bytes_eqb [c] [x00]) eqn:Eq; [discriminate |].
    pose proof (IH (acc ++ [c]) (advance 1 b)
                  ltac:(rewrite length_app; cbn [List.length]; lia)
                  ltac:(rewrite length_app; cbn [List.length]; lia) H) as Hall.
    intros [| fuel']; [reflexivity |].
    cbn [CAFilename.name_loop]. unfold CA_MAX_FILENAME_SIZE.
    destruct (Z.ltb_spec (Z.of_nat (List.length acc)) 256); [| lia].
    rewrite (bind_ok _ _ _ _ _ R), Eq. apply Hall.
Qed.

Lemma CAFilename_decided fuel b :
  (256 < fuel)%nat ->
  CAFilename.from_buffer fuel b = OutOfFuel ->
  forall fuel', CAFilename.from_buffer fuel' b = OutOfFuel.
Proof.
  unfold CAFilename.from_buffer. intros Hf H fuel'.
  apply bind_out_of_fuel_inv in H.
  destruct H as [H | (h & b1 & Hh & H)]; [now apply free_header in H |].
  rewrite (bind_ok _ _ _ _ _ Hh).
  destruct h as [h |]; [| discriminate].
  apply bind_out_of_fuel_inv in H.
  destruct H as [H | (raw & b2 & _ & H)].
  - apply bind_out_of_fuel.
    apply (name_loop_decided fuel [] b1); [cbn; lia | cbn; lia | exact H].
  - apply bind_out_of_fuel_inv in H.
    destruct H as [H | (s & b3 & _ & H)]; [| discriminate].
    now apply free_decode in H.
Qed.

Lemma CAFile_out_of_fuel_inv fuel b :
  CAFile.from_bytes fuel b = OutOfFuel ->
  CAFilename.from_buffer fuel b = OutOfFuel.
Proof.
  unfold CAFile.from_bytes. intros H.
  apply bind_out_of_fuel_inv in H.
  destruct H as [H | (fn & b1 & _ & H)]; [exact H | exfalso].
  destruct fn as [fn |]; [| discriminate].
  revert H. apply (free_bind _ _ free_CAArchive). intros a.
  apply free_bind; [apply free_header | intros p].
  unfold CAFile.payload_size. fuelfree.
Qed.

Lemma CAFile_decided fuel b :
  (256 < fuel)%nat ->
  CAFile.from_bytes fuel b = OutOfFuel ->
  forall fuel', CAFile.from_bytes fuel' b = OutOfFuel.
Proof.
  intros Hf H fuel'. apply CAFile_out_of_fuel_inv in H.
  unfold CAFile.from_bytes. apply bind_out_of_fuel.
  now apply (CAFilename_decided fuel).
Qed.

Lemma available_forward b b' :
  BytesIO.buf b' = BytesIO.buf b ->
  (BytesIO.pos b <= BytesIO.pos b')%nat ->
  (available b' <= available b)%nat.
Proof.
  intros E P. unfold available, BytesIO.remaining.
  rewrite E, !length_skipn. lia.
Qed.

Lemma CAFile_some_consumes fuel b file b' :
  CAFile.from_bytes fuel b = Ok (Some file, b') ->
  (available b' < available b)%nat.
Proof.
  intros H.
  destruct (forward_CAFile _ _ _ _ H) as [E _].
  apply CAFile_ok_inv in H.
  destruct H as (b1 & a & b2 & p & b3 & Hfn & Ha & Hp & Hd).
  unfold CAFilename.from_buffer in Hfn.
  apply bind_inv in Hfn. destruct Hfn as (h & c & Hh & Hfn).
  apply header_ok_inv in Hh. destruct Hh as (H16 & -> & _).
  destruct h as [h |]; [| discriminate].
  apply bind_inv in Hfn. destruct Hfn as (raw & c1 & Hl & Hfn).
  apply bind_inv in Hfn. destruct Hfn as (s & c2 & Hs & Hfn).
  injection Hfn as _ <-.
  unfold lift in Hs. destruct (decode_utf8 raw); try discriminate.
  injection Hs as _ <-.
  destruct (forward_name_loop _ _ _ _ _ Hl) as [_ P1].
  destruct (forward_CAArchive _ _ _ Ha) as [_ P2].
  destruct (forward_header _ _ _ _ Hp) as [_ P3].
  destruct (forward_read _ _ _ _ Hd) as [_ P4].
  cbn [advance BytesIO.pos] in P1.
  unfold available, BytesIO.remaining in *.
  rewrite E, !length_skipn in *. lia.
Qed.

Lemma files_loop_decided fuel : forall n files b,
  (256 < fuel)%nat -> (available b < n)%nat ->
  CATar.files_loop fuel n files b = OutOfFuel ->
  forall fuel' n', CATar.files_loop fuel' n' files b = OutOfFuel.
Proof.
  induction n as [| n IH]; intros files b Hf Hn H; [lia |].
  cbn [CATar.files_loop] in H. apply bind_out_of_fuel_inv in H.
  destruct H as [H | (f & b1 & Hfile & H)].
  - intros fuel' [| n']; [reflexivity |]. cbn [CATar.files_loop].
    apply bind_out_of_fuel. now apply (CAFile_decided fuel).
  - destruct f as [file |]; [| discriminate].
    pose proof (CAFile_some_consumes _ _ _ _ Hfile) as Hless.
    pose proof (IH (files ++ [file]) b1 Hf ltac:(lia) H) as Hall.
    intros fuel' [| n']; [reflexivity |]. cbn [CATar.files_loop].
    destruct (CAFile.from_bytes fuel' b) as [[f' b'] | e |] eqn:E';
      [| | now apply bind_out_of_fuel].
    + assert (Hsame : CAFile.from_bytes fuel' b = CAFile.from_bytes fuel b).
      { destruct (Nat.le_ge_cases fuel fuel') as [Hle | Hle].
        - apply CAFile_more_fuel; [exact Hle |]. rewrite Hfile. discriminate.
        - symmetry. apply CAFile_more_fuel; [exact Hle |].
          rewrite E'. discriminate. }
      rewrite E', Hfile in Hsame. injection Hsame as -> ->.
      rewrite (bind_ok _ _ _ _ _ E'). apply Hall.
    + assert (Hsame : CAFile.from_bytes fuel' b = CAFile.from_bytes fuel b).
      { destruct (Nat.le_ge_cases fuel fuel') as [Hle | Hle].
        - apply CAFile_more_fuel; [exact Hle |]. rewrite Hfile. discriminate.
        - symmetry. apply CAFile_more_fuel; [exact Hle |].
          rewrite E'. discriminate. }
      rewrite E', Hfile in Hsame. discriminate.
Qed.

Lemma CATar_decided fuel b :
  (256 < fuel)%nat -> (available b < fuel)%nat ->
  CATar.from_bytes fuel b = OutOfFuel ->
  forall fuel', CATar.from_bytes fuel' b = OutOfFuel.
Proof.
  unfold CATar.from_bytes. intros Hf Hn H fuel'.
  apply bind_out_of_fuel_inv in H.
  destruct H as [H | (a & b1 & Ha & H)]; [now apply free_CAArchive in H |].
  rewrite (bind_ok _ _ _ _ _ Ha).
  apply bind_out_of_fuel_inv in H.
  destruct H as [H | (fs & b2 & _ & H)]; [| discriminate].
  apply bind_out_of_fuel.
  destruct (forward_CAArchive _ _ _ Ha) as [E P].
  pose proof (available_forward _ _ E P).
  apply (files_loop_decided fuel fuel); [exact Hf | lia | exact H].
Qed.

(** X16.  The archive decoder is decided by a bounded run: with more than
    256 units of fuel and more than one per byte left, any larger amount of
    fuel gives the same outcome; and when that outcome is a lack of fuel,
    every amount of fuel is lacking, that is, [CATar.from_bytes] does not
    terminate on this buffer. *)
Theorem archive_decoding_is_decided fuel b :
  (256 < fuel)%nat -> (available b < fuel)%nat ->
  (forall fuel', (fuel <= fuel')%nat ->
                 CATar.from_bytes fuel' b = CATar.from_bytes fuel b) /\
  (CATar.from_bytes fuel b = OutOfFuel ->
   forall fuel', CATar.from_bytes fuel' b = OutOfFuel).
Proof.
  intros Hf Hn. split.
  - intros fuel' Hle.
    destruct (CATar.from_bytes fuel b) as [[t b'] | e |] eqn:E.
    + rewrite <- E. apply CATar_more_fuel; [exact Hle |].
      rewrite E. discriminate.
    + rewrite <- E. apply CATar_more_fuel; [exact Hle |].
      rewrite E. discriminate.
    + now apply (CATar_decided fuel).
  - now apply CATar_decided.
Qed.

(** X16 at the archive of "a.txt", with 257 and 1000 units of fuel. *)
Lemma archive_decoding_is_decided_witness :
  CATar.from_bytes 1000 (BytesIO.of_bytes one_file_archive)
  = CATar.from_bytes 257 (BytesIO.of_bytes one_file_archive).
Proof.
  apply (archive_decoding_is_decided 257 (BytesIO.of_bytes one_file_archive)).
  - lia.
  - vm_compute. lia.
  - lia.
Defined.

(** ** Round trip of the index decoder *)

Lemma table_reads_back t tail : forall (entries : list (Z * bytes)) k,
  BytesIO.remaining (advance (40 * k) t)
  = List.concat (map encode_index_entry entries) ++ tail ->
  Forall (fun e => is_u64 (fst e) /\ List.length (snd e) = 32%nat) entries ->
  map (chunk_of t) (seq k (List.length entries))
  = descriptors (running_offset t k) entries.
Proof.
  induction entries as [| [stored sha] rest IH]; intros k E Hok;
    [reflexivity |].
  inversion Hok as [| ? ? [Hu Hsha] Hrest]; subst. cbn [fst snd] in *.
  cbn [map List.concat] in E. unfold encode_index_entry at 1 in E.
  cbn [fst snd] in E. rewrite <- !app_assoc in E.
  assert (Hoff : entry_offset t k = stored).
  { unfold entry_offset.
    pose proof (peek_app _ _ _ E) as P. rewrite length_pack_Q in P.
    rewrite P. now apply le_uint_pack_Q. }
  pose proof (remaining_advance_app _ _ _ E) as E8.
  rewrite length_pack_Q, advance_advance in E8.
  assert (Hs : entry_sha t k = sha).
  { unfold entry_sha. pose proof (peek_app _ _ _ E8) as P.
    now rewrite Hsha in P. }
  pose proof (remaining_advance_app _ _ _ E8) as E40.
  rewrite Hsha, advance_advance in E40.
  replace (40 * k + 8 + 32)%nat with (40 * S k)%nat in E40 by lia.
  cbn [List.length seq map descriptors].
  rewrite (IH (S k) E40 Hrest). cbn [running_offset].
  unfold chunk_of. now rewrite Hoff, Hs.
Qed.

(** X17.  Round trip of the index decoder: an index file made of the index
    header and preamble, the table header, any entries with 64-bit offsets
    and 32-byte hashes, and 24 to 63 further bytes decodes to one descriptor
    per entry, with the entry's hash, starting where the entry before ends
    (at 0 for the first) and as long as the stored offsets differ. *)
Theorem index_round_trip (entries : list (Z * bytes)) (tail : bytes) :
  Forall (fun e => is_u64 (fst e) /\ List.length (snd e) = 32%nat) entries ->
  (24 <= List.length tail < 64)%nat ->
  CAIndex.from_buffer (BytesIO.of_bytes (encode_index entries tail))
  = Ok (CAIndex.mk (descriptors 0 entries),
        BytesIO.mk (encode_index entries tail)
                   (64 + 40 * List.length entries)).
Proof.
  intros Hok Htail.
  set (b := BytesIO.of_bytes (encode_index entries tail)).
  set (blocks := List.concat (map encode_index_entry entries)).
  assert (Hblocks : List.length blocks = (40 * List.length entries)%nat).
  { unfold blocks. clear - Hok.
    induction Hok as [| [o s] rest [_ Hs] _ IH]; [reflexivity |].
    cbn [map List.concat List.length]. unfold encode_index_entry at 1.
    cbn [fst snd] in *. rewrite !length_app, length_pack_Q, Hs, IH. lia. }
  assert (Hlen : List.length (BytesIO.buf b)
                 = (64 + 40 * List.length entries + List.length tail)%nat).
  { unfold b, BytesIO.of_bytes, encode_index. cbn [BytesIO.buf].
    fold blocks.
    rewrite !length_app, !length_header_bytes, !length_pack_Q, Hblocks. lia. }
  assert (E0 : BytesIO.remaining (rewind b)
               = header_bytes 48 CA_FORMAT_INDEX
                 ++ (pack_Q FLAGS ++ pack_Q 16384 ++ pack_Q 65536
                     ++ pack_Q 262144)
                 ++ header_bytes 0xffffffffffffffff CA_FORMAT_TABLE
                 ++ blocks ++ tail).
  { unfold b, rewind, BytesIO.remaining, BytesIO.of_bytes, encode_index.
    cbn [BytesIO.buf BytesIO.pos skipn]. now rewrite <- !app_assoc. }
  destruct (header_fields_at _ _ _ _ E0 ltac:(u64) ltac:(u64))
    as (_ & _ & Hm0 & E16).
  pose proof (remaining_advance_app _ _ _ E16) as E48.
  rewrite !length_app, !length_pack_Q, advance_advance in E48.
  change (16 + (8 + (8 + (8 + 8))))%nat with 48%nat in E48.
  destruct (header_fields_at _ _ _ _ E48 ltac:(u64) ltac:(u64))
    as (_ & _ & Hm48 & E64).
  rewrite advance_advance in E64. change (48 + 16)%nat with 64%nat in E64.
  fold (table_start b) in E64.
  assert (Hn : Z.to_nat (num_chunks b) = List.length entries).
  { unfold num_chunks, CA_HEADER_LEN, CA_TABLE_MIN_LEN, CA_TABLE_HEADER_LEN,
      CA_TABLE_ENTRY_LEN. rewrite Hlen.
    assert ((Z.of_nat (64 + 40 * List.length entries + List.length tail)
             - 32 - (16 + 40)) / 40 = Z.of_nat (List.length entries))
      by (Z.div_mod_to_equations; lia).
    lia. }
  rewrite CAIndex_accepts; [| lia | now left | now left].
  rewrite Hn.
  pose proof (table_reads_back (table_start b) tail entries 0
                ltac:(rewrite advance_0; exact E64) Hok) as Ht.
  cbn [running_offset] in Ht. rewrite Ht. reflexivity.
Qed.

(** X17 at a table of two entries and a tail of 40 zero bytes. *)
Lemma index_round_trip_witness :
  CAIndex.from_buffer
    (BytesIO.of_bytes
       (encode_index [(16, zeros 32); (40, repeat xff 32)] (zeros 40)))
  = Ok (CAIndex.mk (descriptors 0 [(16, zeros 32); (40, repeat xff 32)]),
        BytesIO.mk
          (encode_index [(16, zeros 32); (40, repeat xff 32)] (zeros 40))
          (64 + 40 * List.length [(16, zeros 32); (40, repeat xff 32)])).
Proof.
  apply (index_round_trip [(16, zeros 32); (40, repeat xff 32)] (zeros 40)).
  - repeat constructor; cbn; u64.
  - cbn. lia.
Defined.

(** ** From the index file to the files *)

(** X18.  Chunk boundaries do not matter: whatever descriptors the index
    holds, if the chunks the reader returns for them, joined in table order,
    are the stream of an archive of readable files (followed by anything),
    then [parse_caidx] returns exactly those files. *)
Theorem chunk_boundaries_do_not_matter {R : Type}
  (chunk_reader_read : R -> CAChunk.t -> result bytes * R)
  open_rb DirectoryChunkReader fuel caidx_path caidx top files trailing r' :
  from_file open_rb caidx_path = Ok caidx ->
  join_chunks chunk_reader_read
    (DirectoryChunkReader "/tmp/test_casync/default.castr"%string)
    (CAIndex.chunks caidx)
  = (Ok (encode_archive top files ++ trailing), r') ->
  Forall readable_source files ->
  (256 <= fuel)%nat -> (List.length files < fuel)%nat ->
  parse_caidx open_rb DirectoryChunkReader chunk_reader_read fuel caidx_path
  = (Ok (CATar.mk (CAArchive.mk (entry_read_back top))
                  (map read_back files)),
     Some r').
Proof.
  intros Hf Hj Hok Hfuel Hn. unfold parse_caidx. rewrite Hf, Hj.
  rewrite (CATar_decode_at fuel _ top files trailing);
    [reflexivity | reflexivity | exact Hok | exact Hfuel | exact Hn].
Qed.

(** X18 at the archive of "a.txt" cut into chunks of 100 and 87 bytes. *)
Lemma chunk_boundaries_do_not_matter_witness :
  parse_caidx (fun _ => Some (index_bytes [100; 187]))
    (fun _ => tt)
    (slice_reader
       (encode_archive (CAEntry.mk None 0 33188 0 1000 1000 0)
          [mk_file_source a_txt (CAEntry.mk None 0 33188 0 0 0 0) hello]))
    256 "test.caidx"%string
  = (Ok (CATar.mk
           (CAArchive.mk
              (entry_read_back (CAEntry.mk None 0 33188 0 1000 1000 0)))
           (map read_back
              [mk_file_source a_txt (CAEntry.mk None 0 33188 0 0 0 0)
                 hello])),
     Some tt).
Proof.
  apply (chunk_boundaries_do_not_matter
           (slice_reader
              (encode_archive (CAEntry.mk None 0 33188 0 1000 1000 0)
                 [mk_file_source a_txt (CAEntry.mk None 0 33188 0 0 0 0)
                    hello]))
           (fun _ => Some (index_bytes [100; 187])) (fun _ => tt) 256
           "test.caidx"%string
           (CAIndex.mk [CAChunk.mk (zeros 32) 0 100;
                        CAChunk.mk (zeros 32) 100 87])
           (CAEntry.mk None 0 33188 0 1000 1000 0)
           [mk_file_source a_txt (CAEntry.mk None 0 33188 0 0 0 0) hello]
           [] tt).
  - vm_compute. reflexivity.
  - vm_compute. reflexivity.
  - constructor; [| constructor].
    split; [split; [cbn; intuition discriminate | cbn; lia] |].
    split; [vm_compute; discriminate | unfold SSIZE_MAX; cbn; lia].
  - lia.
  - cbn. lia.
Defined.
